(** * Graph2Gauss sampling core: level sets, k-partite sampler, attributed graph, loss

    A shallow embedding of [src/gnc/g2g.py].  Integer arrays are lists of
    [nat] (counts, offsets, dense node indices) or of [Z] (the distance
    matrix, which holds the sentinel [-1]); every such value is bounded by
    the number of nodes, so the 64-bit arithmetic of numpy never wraps and
    the integers are left unbounded.  Probabilities and the loss weights
    (an integer times 0.5) are rationals; the tensors of the encoder and of
    the loss are lists of reals, so what is proved of them holds in exact
    arithmetic.  Where a result depends on the rounding of floats (the
    float32 weights of a batch, the float product of the split) the floats
    are IEEE 754 data.  A Python exception is a value of [exn] returned on the left of a
    sum.  The library calls are modelled by their contract: the shortest
    paths by breadth-first hop distances, the random generator by a tape of
    draws. *)

From Stdlib Require Import List Arith ZArith QArith Lia Bool Permutation.
From Stdlib Require Import Reals Lra Sorted.
From Stdlib Require Import SpecFloat.
Import ListNotations.

Close Scope R_scope.
Close Scope Q_scope.
Close Scope Z_scope.
Open Scope nat_scope.

(** ** Exceptions and results *)

Inductive exn : Type :=
| AssertionError
| KeyError
| IndexError
| ValueError
| AttributeError
| OverflowError
| Exception_only_one_layer (node : nat).

Definition result (A : Type) : Type := (exn + A)%type.

Definition raises {A : Type} (r : result A) : Prop :=
  match r with inl _ => True | inr _ => False end.

Definition bind {A B : Type} (r : result A) (f : A -> result B) : result B :=
  match r with
  | inl e => inl e
  | inr a => f a
  end.

Notation "x <- r ;; k" := (bind r (fun x => k))
  (at level 61, r at next level, right associativity).

(** ** Array helpers (numpy element-wise semantics on equal-length arrays) *)

Section Arrays.
Context {A B C : Type}.

Fixpoint zipWith (f : A -> B -> C) (xs : list A) (ys : list B) : list C :=
  match xs, ys with
  | x :: xs', y :: ys' => f x y :: zipWith f xs' ys'
  | _, _ => []
  end.
End Arrays.

(** [arr[idx]] with an index array: fancy indexing. *)
Definition take {A : Type} (d : A) (arr : list A) (idx : list nat) : list A :=
  map (fun t => nth t arr d) idx.

(** [arr[mask]]: the entries of [arr] at which the boolean mask holds. *)
Fixpoint mask_select {A : Type} (mask : list bool) (arr : list A) : list A :=
  match mask, arr with
  | true :: m, a :: r => a :: mask_select m r
  | false :: m, _ :: r => mask_select m r
  | _, _ => []
  end.

(** [arr[mask] = vals]: the masked entries are overwritten, in order. *)
Fixpoint mask_assign {A : Type} (mask : list bool) (arr vals : list A) : list A :=
  match mask, arr with
  | true :: m, a :: r =>
      match vals with
      | v :: vs => v :: mask_assign m r vs
      | [] => a :: mask_assign m r []
      end
  | false :: m, a :: r => a :: mask_assign m r vals
  | _, _ => arr
  end.

Definition sum (l : list nat) : nat := fold_right Nat.add 0 l.

Fixpoint cumsum_from (acc : nat) (l : list nat) : list nat :=
  match l with
  | [] => []
  | x :: t => (acc + x) :: cumsum_from (acc + x) t
  end.

Definition cumsum : list nat -> list nat := cumsum_from 0.

(** ** The process-wide numpy generator

    The generator is an oracle tape of raw draws with a read position.  A
    bounded integer draw reduces a raw draw below its bound, so every
    outcome numpy can produce is the outcome of some tape; a uniform float
    draw is a multiple of [2^-53] in [[0, 1)], as [random_sample] makes
    them. *)

Record RandomState : Type := { tape : nat -> N; pos : nat }.

Definition advance (k : nat) (rs : RandomState) : RandomState :=
  {| tape := tape rs; pos := pos rs + k |}.

(** A raw draw reduced below the bound [h]. *)
Definition below (raw : N) (h : nat) : nat := N.to_nat (raw mod N.of_nat h).

(** Draw [t] of [random_sample(size)]. *)
Definition random_sample (rs : RandomState) (t : nat) : Q :=
  Qmake (Z.of_N (tape rs (pos rs + t) mod 2 ^ 53)) (2 ^ 53).

(** [p.cumsum()] *)
Fixpoint qcumsum_from (acc : Q) (l : list Q) : list Q :=
  match l with
  | [] => []
  | x :: t => (acc + x)%Q :: qcumsum_from (acc + x)%Q t
  end.

Definition qcumsum : list Q -> list Q := qcumsum_from 0%Q.

(** [a.searchsorted(v, side='right')] for a sorted [a]: the number of
    entries that are at most [v]. *)
Definition searchsorted_right (a : list Q) (v : Q) : nat :=
  length (filter (fun c => Qle_bool c v) a).


(** [np.random.choice(a, size=size, p=p, replace=True)] for weights that
    pass [choice_checks], as the weights of a constructed sampler do: the
    index of each sample is found by its uniform draw in the cumulative
    weights.  The weights are exact, their float rounding is not modelled. *)
Definition choice (a size : nat) (p : list Q) (rs : RandomState)
  : list nat * RandomState :=
  let cdf := qcumsum p in
  let cdf := map (fun c => (c / last cdf 0)%Q) cdf in
  let uniform_samples := map (random_sample rs) (seq 0 size) in
  (map (searchsorted_right cdf) uniform_samples, advance size rs).

(** [np.random.randint(high)] with an array of exclusive upper bounds *)
Definition randint (high : list nat) (rs : RandomState) : list nat * RandomState :=
  (zipWith (fun t h => below (tape rs (pos rs + t)) h) (seq 0 (length high)) high,
   advance (length high) rs).

(** ** CompleteKPartiteGraph *)

Module KPartite.

Record CompleteKPartiteGraph : Type := {
  partitions : list (list nat);
  counts : list nat;
  total : nat;
  nodes : list nat;
  n_i : list nat;
  start_i : list nat;
  out_degrees : list nat;
  p : list Q
}.

Definition n_i_of (parts : list (list nat)) (cnts : list nat) : list nat :=
  flat_map (fun pn : list nat * nat => map (fun _ => snd pn) (fst pn))
    (combine parts cnts).

Definition start_i_of (parts : list (list nat)) (cnts ends : list nat) : list nat :=
  flat_map (fun pne : list nat * nat * nat =>
              map (fun _ => snd pne - snd (fst pne)) (fst (fst pne)))
    (combine (combine parts cnts) ends).

Definition Qdiv_nat (a b : nat) : Q :=
  (inject_Z (Z.of_nat a) / inject_Z (Z.of_nat b))%Q.

(** [CompleteKPartiteGraph.__init__]; a failed [assert] is [AssertionError]. *)
Definition init (parts : list (list nat)) : result CompleteKPartiteGraph :=
  let cnts := map (@length nat) parts in
  let tot := sum cnts in
  if negb (2 <=? length parts) then inl AssertionError
  else if negb (forallb (fun c => 0 <? c) cnts) then inl AssertionError
  else
    let nds := concat parts in
    let ni := n_i_of parts cnts in
    let st := start_i_of parts cnts (cumsum cnts) in
    let od := zipWith Nat.sub (repeat tot tot) ni in
    let pr := map (fun d => Qdiv_nat d (sum od)) od in
    inr {| partitions := parts; counts := cnts; total := tot; nodes := nds;
           n_i := ni; start_i := st; out_degrees := od; p := pr |}.

(** Lines 100-102 for one sample: the rank [k] drawn below [out_degrees[j]]
    skips the block of [j]'s own partition. *)
Definition remap (g : CompleteKPartiteGraph) (j k : nat) : nat :=
  k + Nat.b2n (nth j (start_i g) 0 <=? k) * nth j (n_i g) 0.

(** [sample_edges], the generator threaded explicitly. *)
Definition sample_edges (g : CompleteKPartiteGraph) (size : nat) (rs : RandomState)
  : (list nat * list nat) * RandomState :=
  let (j, rs1) := choice (total g) size (p g) rs in
  let (k, rs2) := randint (take 0 (out_degrees g) j) rs1 in
  let filter := zipWith (fun k s => s <=? k) k (take 0 (start_i g) j) in
  let k := zipWith Nat.add k
             (zipWith (fun (f : bool) n => Nat.b2n f * n) filter (take 0 (n_i g) j)) in
  let wrong_order := zipWith Nat.ltb k j in
  let tmp := mask_select wrong_order k in
  let k := mask_assign wrong_order k (mask_select wrong_order j) in
  let j := mask_assign wrong_order j tmp in
  let j := take 0 (nodes g) j in
  let k := take 0 (nodes g) k in
  ((j, k), rs2).

(** One sample of [sample_edges] from the two draws [j] (origin) and [r]
    (rank): remap, swap into dense order, translate to node identifiers. *)
Definition sample_edge (g : CompleteKPartiteGraph) (j r : nat) : nat * nat :=
  let k := remap g j r in
  if k <? j then (nth k (nodes g) 0, nth j (nodes g) 0)
  else (nth j (nodes g) 0, nth k (nodes g) 0).

(** The partition (by position in the input) that holds dense index [idx]. *)
Fixpoint part_index (cnts : list nat) (idx : nat) : nat :=
  match cnts with
  | [] => 0
  | c :: rest => if idx <? c then 0 else S (part_index rest (idx - c))
  end.



(** The sizes of the partitions, and the dense offset of partition [q]. *)
Definition lens (parts : list (list nat)) : list nat := map (@length nat) parts.

Definition offset (parts : list (list nat)) (q : nat) : nat :=
  sum (firstn q (lens parts)).

(** The cumulative weights that [choice] searches. *)
Definition cdf (g : CompleteKPartiteGraph) : list Q :=
  map (fun c => (c / last (qcumsum (p g)) 0)%Q) (qcumsum (p g)).

(** The origin and the rank that the generator yields for sample [t]. *)
Definition origin (g : CompleteKPartiteGraph) (rs : RandomState) (t : nat) : nat :=
  searchsorted_right (cdf g) (random_sample rs t).

Definition rank (g : CompleteKPartiteGraph) (size : nat) (rs : RandomState) (t : nat)
  : nat :=
  below (tape rs (pos rs + size + t)) (nth (origin g rs t) (out_degrees g) 0).

End KPartite.

(** ** Level sets *)

Module LevelSets.

(** The adjacency matrix: [entry a i j] tells whether [(i, j)] is a stored
    (non-zero) entry of the sparse matrix. *)
Definition adjacency : Type := list (list bool).

Definition shape0 (a : adjacency) : nat := length a.
Definition shape1 (a : adjacency) : nat := length (hd [] a).

Definition entry (a : adjacency) (i j : nat) : bool := nth j (nth i a []) false.

(** [shortest_path] rejects a graph that is not [n x n]. *)
Definition is_square (a : adjacency) : bool :=
  forallb (fun row => length row =? shape0 a) a.

(** [directed=False]: a step may follow [a[i, j]] or [a[j, i]]. *)
Definition linked (a : adjacency) (i j : nat) : bool :=
  (i <? shape0 a) && (j <? shape0 a) && (entry a i j || entry a j i).

Definition mem (x : nat) (l : list nat) : bool := existsb (Nat.eqb x) l.

(** Nodes within [k] hops of [i], in breadth-first order. *)
Fixpoint ball (a : adjacency) (k i : nat) : list nat :=
  match k with
  | 0 => [i]
  | S k' =>
      let b := ball a k' i in
      b ++ filter (fun j => negb (mem j b) && existsb (fun m => linked a m j) b)
             (seq 0 (shape0 a))
  end.

Fixpoint first_ball (a : adjacency) (i j k fuel : nat) : option nat :=
  match fuel with
  | 0 => None
  | S fuel' => if mem j (ball a k i) then Some k else first_ball a i j (S k) fuel'
  end.

(** Hop distance; [None] is the infinite distance of an unreachable pair. *)
Definition hops (a : adjacency) (i j : nat) : option nat :=
  first_ball a i j 0 (shape0 a).

(** [scipy.sparse.csgraph.shortest_path(A, unweighted=True, directed=False)] *)
Definition shortest_path (a : adjacency) : list (list (option nat)) :=
  map (fun i => map (fun j => hops a i j) (seq 0 (shape0 a))) (seq 0 (shape0 a)).

(** Lines 313-314: infinite distances become [-1], the rest integers. *)
Definition to_int (d : option nat) : Z :=
  match d with
  | Some k => Z.of_nat k
  | None => (-1)%Z
  end.

(** Lines 317-318: [D[D > K] = -1] when [K] is given. *)
Definition cap (K : option Z) (d : Z) : Z :=
  match K with
  | Some k => if (k <? d)%Z then (-1)%Z else d
  | None => d
  end.

Definition distance_matrix (a : adjacency) (K : option Z) : list (list Z) :=
  map (map (fun d => cap K (to_int d))) (shortest_path a).

Definition at2 (D : list (list Z)) (i j : nat) : Z := nth j (nth i D []) 0%Z.

(** [D.max(axis=1)] for one row. *)
Definition row_max (row : list Z) : Z :=
  match row with
  | [] => 0%Z
  | x :: t => fold_left Z.max t x
  end.

Abbreviation shells := (list (list nat)) (only parsing).

(** Python list indexing: a negative index counts from the end, an index
    out of range raises. *)
Definition py_index (len : nat) (idx : Z) : option nat :=
  if (idx <? 0)%Z then
    if (- idx <=? Z.of_nat len)%Z then Some (Z.to_nat (Z.of_nat len + idx)) else None
  else if (idx <? Z.of_nat len)%Z then Some (Z.to_nat idx) else None.

Fixpoint update_nth {A : Type} (n : nat) (f : A -> A) (l : list A) : list A :=
  match l, n with
  | [], _ => []
  | x :: t, 0 => f x :: t
  | x :: t, S n' => x :: update_nth n' f t
  end.

(** [sets[i][idx].append(x)] on the shared dictionary of shell lists. *)
Definition append_shell (sets : list shells) (i : nat) (idx : Z) (x : nat)
  : result (list shells) :=
  match nth_error sets i with
  | None => inl KeyError
  | Some sh =>
      match py_index (length sh) idx with
      | None => inl IndexError
      | Some s => inr (update_nth i (update_nth s (fun l => l ++ [x])) sets)
      end
  end.

Fixpoint for_each {S : Type} (xs : list nat) (body : S -> nat -> result S) (s : S)
  : result S :=
  match xs with
  | [] => inr s
  | x :: rest => s' <- body s x ;; for_each rest body s'
  end.

(** The body of the loop over [j] (lines 327-337). *)
Definition inner_step (D : list (list Z)) (i : nat) (sets : list shells) (j : nat)
  : result (list shells) :=
  let d := at2 D i j in
  if (d <? 0)%Z then
    s1 <- append_shell sets i (-1)%Z j ;; append_shell s1 j (-1)%Z i
  else
    s1 <- append_shell sets i d j ;; append_shell s1 j d i.

(** The body of the loop over [i] (lines 324-337). *)
Definition outer_step (D : list (list Z)) (sets : list shells) (i : nat)
  : result (list shells) :=
  s0 <- append_shell sets i 0%Z i ;;
  for_each (seq 0 i) (inner_step D i) s0.

(** Line 322: [1 + set_counts[i] + 1] empty shells per node. *)
Definition empty_sets (D : list (list Z)) : list shells :=
  map (fun row => repeat [] (Z.to_nat (1 + row_max row + 1))) D.

(** Lines 320-339, on the integer distance matrix. *)
Definition read_off (D : list (list Z)) : result (list shells) :=
  for_each (seq 0 (length D)) (outer_step D) (empty_sets D).

(** [level_sets(A, K)]; the dictionary keyed by [0 .. n-1] is the list of its
    values in key order, the empty dictionary the empty list. *)
Definition level_sets (a : adjacency) (K : option Z) : result (list shells) :=
  if (shape0 a =? 0) || (shape1 a =? 0) then inr []
  else if negb (is_square a) then inl ValueError
  else read_off (distance_matrix a K).

(** *** Vocabulary of the proofs about [level_sets] *)

(** A walk of exactly [k] steps along linked nodes. *)
Inductive walk (a : adjacency) : nat -> nat -> nat -> Prop :=
| walk_stop i : walk a 0 i i
| walk_step k i m j : walk a k i m -> linked a m j = true -> walk a (S k) i j.

(** Number of shells of node [i]: the largest distance of its row, plus the
    self shell and the overflow shell. *)
Definition nshells (D : list (list Z)) (i : nat) : nat :=
  Z.to_nat (1 + row_max (nth i D []) + 1).

(** The shell of node [i] that receives node [x]. *)
Definition slot (D : list (list Z)) (i x : nat) : nat :=
  if x =? i then 0
  else
    let d := at2 D (Nat.max i x) (Nat.min i x) in
    if (d <? 0)%Z then nshells D i - 1 else Z.to_nat d.

(** The order in which the nodes reach the shells of node [i]. *)
Definition order (n i : nat) : list nat := i :: seq 0 i ++ seq (S i) (n - S i).

(** [sets] holds, shell by shell, the nodes listed by [P]. *)
Definition filled (D : list (list Z)) (n : nat) (P : nat -> list nat)
  (sets : list shells) : Prop :=
  length sets = n
  /\ forall a, a < n ->
       length (nth a sets []) = nshells D a
       /\ forall s, nth s (nth a sets []) []
                    = filter (fun x => slot D a x =? s) (P a).

(** Nodes received by node [a] once the outer loop has finished [i] rounds. *)
Definition Pout (i a : nat) : list nat :=
  if a <? i then a :: seq 0 a ++ seq (S a) (i - S a) else [].

(** Nodes received by node [a] in round [i], after [j] inner rounds. *)
Definition Pin (i j a : nat) : list nat :=
  if a =? i then i :: seq 0 j
  else if a <? j then a :: seq 0 a ++ seq (S a) (i - a)
  else Pout i a.

End LevelSets.

(** ** AttributedGraph *)

Module Graph.
Import LevelSets.

Record AttributedGraph : Type := {
  A : adjacency;
  X : list (list R);
  z : list R;
  level_sets_ : list shells;
  level_counts : list (list nat);
  loss_weights : list Q;
  neighborhoods : list (option KPartite.CompleteKPartiteGraph)
}.

Fixpoint traverse {T U : Type} (f : T -> result U) (l : list T) : result (list U) :=
  match l with
  | [] => inr []
  | x :: rest => y <- f x ;; ys <- traverse f rest ;; inr (y :: ys)
  end.

Definition lookup {T : Type} (d : list T) (key : nat) : result T :=
  match nth_error d key with
  | Some v => inr v
  | None => inl KeyError
  end.

(** [N[1:].sum() ** 2 - (N[1:] ** 2).sum()] *)
Definition pair_count (N : list nat) : Z :=
  let counts := map Z.of_nat (tl N) in
  (fold_right Z.add 0 counts ^ 2
   - fold_right Z.add 0 (map (fun c => c ^ 2) counts))%Z.

Definition loss_weight (N : list nat) : Q := ((1 # 2) * inject_Z (pair_count N))%Q.

(** Lines 140-142 for one node. *)
Definition neighborhood (sets : list shells) (i : nat)
  : result (option KPartite.CompleteKPartiteGraph) :=
  ls <- lookup sets i ;;
  if 3 <=? length ls then
    g <- KPartite.init (tl ls) ;; inr (Some g)
  else inr None.

(** [AttributedGraph.__init__] *)
Definition init (a : adjacency) (x : list (list R)) (labels : list R) (K : option Z)
  : result AttributedGraph :=
  sets <- level_sets a K ;;
  let N := map (map (@length nat)) sets in
  let n := shape0 a in
  w <- traverse (fun i => Ni <- lookup N i ;; inr (loss_weight Ni)) (seq 0 n) ;;
  nb <- traverse (neighborhood sets) (seq 0 n) ;;
  inr {| A := a; X := x; z := labels; level_sets_ := sets; level_counts := N;
         loss_weights := w; neighborhoods := nb |}.

Definition nodes (g : AttributedGraph) : list nat := seq 0 (shape0 (A g)).

(** [eligible_nodes]: the nodes [i] with [len(N[i]) >= 3]. *)
Definition eligible_nodes (g : AttributedGraph) : result (list nat) :=
  flags <- traverse (fun i => Ni <- lookup (level_counts g) i ;;
                              inr (i, 3 <=? length Ni)) (nodes g) ;;
  inr (map fst (filter snd flags)).

(** [sample_two_neighbors], the generator threaded explicitly. *)
Definition sample_two_neighbors (g : AttributedGraph) (node size : nat)
  (rs : RandomState) : result (list nat * list nat) * RandomState :=
  match nth_error (level_sets_ g) node with
  | None => (inl KeyError, rs)
  | Some ls =>
      if length ls <? 3 then (inl (Exception_only_one_layer node), rs)
      else
        match nth_error (neighborhoods g) node with
        | None => (inl IndexError, rs)
        | Some None => (inl AttributeError, rs)
        | Some (Some s) =>
            let (jk, rs') := KPartite.sample_edges s size rs in (inr jk, rs')
        end
  end.

End Graph.

(** ** Encoder loss *)

Module Loss.

Definition tensor : Type := list (list R).

(** The network is a parameter of the loss: [forward] maps the attribute
    matrix to the means and variances, one row of length [L] per node. *)
Record Encoder : Type := {
  L : nat;
  forward : tensor -> tensor * tensor
}.

Definition gather_rows (input : tensor) (index : list nat) : tensor :=
  take [] input index.

Definition rsum (v : list R) : R := fold_right Rplus 0%R v.
Definition rprod (v : list R) : R := fold_right Rmult 1%R v.

Definition rows2 (f : list R -> list R -> list R) (a b : tensor) : tensor :=
  zipWith f a b.

Definition sub_t : tensor -> tensor -> tensor := rows2 (zipWith Rminus).
Definition div_t : tensor -> tensor -> tensor := rows2 (zipWith Rdiv).
Definition sq_t (a : tensor) : tensor := map (map (fun x => x * x)%R) a.
Definition log_t (a : tensor) : tensor := map (map ln) a.
Definition sum_last (a : tensor) : list R := map rsum a.
Definition prod_last (a : tensor) : list R := map rprod a.

(** Lines 262-269: the [closer] energy of every triplet of the batch. *)
Definition closer_energy (l : nat) (mu_i sigma_i mu_j sigma_j : tensor) : list R :=
  let diff_ij := sub_t mu_i mu_j in
  let ratio_ji := div_t sigma_j sigma_i in
  zipWith (fun ab c => 0.5 * (ab - INR l - c))%R
    (zipWith Rplus (sum_last ratio_ji) (sum_last (div_t (sq_t diff_ij) sigma_i)))
    (sum_last (log_t ratio_ji)).

(** Lines 271-275: the [apart] energy. *)
Definition apart_energy (l : nat) (mu_i sigma_i mu_k sigma_k : tensor) : list R :=
  let diff_ik := sub_t mu_i mu_k in
  let ratio_ki := div_t sigma_k sigma_i in
  map (fun ab => -0.5 * (ab - INR l))%R
    (zipWith Rplus (sum_last ratio_ki) (sum_last (div_t (sq_t diff_ik) sigma_i))).

Definition dot (a b : list R) : R := rsum (zipWith Rmult a b).

(** [Encoder.compute_loss] *)
Definition compute_loss (enc : Encoder) (x : tensor) (i j k : list nat)
  (w : list R) (nsamples : nat) : R :=
  let (mu, sigma) := forward enc x in
  let mu_i := gather_rows mu i in
  let sigma_i := gather_rows sigma i in
  let mu_j := gather_rows mu j in
  let sigma_j := gather_rows sigma j in
  let mu_k := gather_rows mu k in
  let sigma_k := gather_rows sigma k in
  let closer := closer_energy (L enc) mu_i sigma_i mu_j sigma_j in
  let apart := apart_energy (L enc) mu_i sigma_i mu_k sigma_k in
  let ratio_ki := div_t sigma_k sigma_i in
  let E := zipWith Rplus (map (fun c => c * c)%R closer)
             (zipWith Rmult (map exp apart) (map sqrt (prod_last ratio_ki))) in
  (dot E w / INR nsamples)%R.

(** The closer energy of one triplet, from its four rows. *)
Definition closer_row (l : nat) (mi si mj sj : list R) : R :=
  (0.5 * (rsum (zipWith Rdiv sj si)
          + rsum (zipWith Rdiv (map (fun v => v * v) (zipWith Rminus mi mj)) si)
          - INR l
          - rsum (map ln (zipWith Rdiv sj si))))%R.

End Loss.

(** ** GraphDataset *)

Module Dataset.
Import LevelSets Graph.

(** Exceptions of the dataset generator: those of the graph, and the
    [RuntimeError] of a slice assignment whose shapes do not match. *)
Inductive dataset_exn : Type :=
| Raised (e : exn)
| RuntimeError.

(** The entry of the float64 array [loss_weights] for a weight that is an
    integer over a power of two (here: over 2), rounded to nearest even. *)
Definition float64 (w : Q) : spec_float :=
  binary_normalize 53 1024 (Qnum w) (- Z.log2 (Z.pos (Qden w))) false.

(** The cast of a float64 to the float32 of a default [torch.empty] tensor,
    rounded to nearest even. *)
Definition to_float32 (f : spec_float) : spec_float :=
  match f with
  | S754_finite s m e =>
      binary_normalize 24 128 (if s then Z.neg m else Z.pos m) e s
  | _ => f
  end.

(** A one-dimensional tensor; [None] is an entry that [torch.empty] left
    uninitialised. *)
Definition empty {T : Type} (n : nat) : list (option T) := repeat None n.

(** The bounds of the slice [start:stop] of a tensor of length [len]. *)
Definition slice_lo (len start : nat) : nat := Nat.min start len.
Definition slice_hi (len start stop : nat) : nat :=
  Nat.max (Nat.min start len) (Nat.min stop len).

(** [t[start:stop] = v] with a scalar [v]. *)
Definition fill_slice {T : Type} (start stop : nat) (v : T) (t : list (option T))
  : list (option T) :=
  let lo := slice_lo (length t) start in
  let hi := slice_hi (length t) start stop in
  firstn lo t ++ repeat (Some v) (hi - lo) ++ skipn hi t.

(** [t[start:stop] = torch.tensor(vals)]: the shapes must agree, a single
    value is broadcast. *)
Definition assign_slice {T : Type} (start stop : nat) (vals : list T)
  (t : list (option T)) : dataset_exn + list (option T) :=
  let lo := slice_lo (length t) start in
  let hi := slice_hi (length t) start stop in
  if length vals =? hi - lo then inr (firstn lo t ++ map Some vals ++ skipn hi t)
  else
    match vals with
    | [v] => inr (firstn lo t ++ repeat (Some v) (hi - lo) ++ skipn hi t)
    | _ => inl RuntimeError
    end.

Record GraphDataset : Type := {
  graph : AttributedGraph;
  nsamples : nat;
  iterations : nat
}.

(** What one step of the generator yields. *)
Record Batch : Type := {
  batch_X : list (list R);
  i_indices : list (option nat);
  j_indices : list (option nat);
  k_indices : list (option nat);
  weights : list (option spec_float);
  batch_nsamples : nat
}.

Record buffers : Type := {
  buf_i : list (option nat);
  buf_j : list (option nat);
  buf_k : list (option nat);
  buf_w : list (option spec_float)
}.

(** The body of the loop over the eligible nodes (lines 191-199). *)
Definition row_step (g : AttributedGraph) (ns : nat) (b : buffers) (index i : nat)
  (rs : RandomState) : (dataset_exn + buffers) * RandomState :=
  let start := index * ns in
  let stop := start + ns in
  let bi := fill_slice start stop i (buf_i b) in
  match sample_two_neighbors g i ns rs with
  | (inl e, rs') => (inl (Raised e), rs')
  | (inr (js, ks), rs') =>
      match assign_slice start stop js (buf_j b) with
      | inl e => (inl e, rs')
      | inr bj =>
          match assign_slice start stop ks (buf_k b) with
          | inl e => (inl e, rs')
          | inr bk =>
              match nth_error (loss_weights g) i with
              | None => (inl (Raised IndexError), rs')
              | Some w =>
                  (inr {| buf_i := bi; buf_j := bj; buf_k := bk;
                          buf_w := fill_slice start stop (to_float32 (float64 w))
                                     (buf_w b) |}, rs')
              end
          end
      end
  end.

Fixpoint rows_loop (g : AttributedGraph) (ns : nat) (items : list (nat * nat))
  (b : buffers) (rs : RandomState) : (dataset_exn + buffers) * RandomState :=
  match items with
  | [] => (inr b, rs)
  | (index, i) :: rest =>
      match row_step g ns b index i rs with
      | (inl e, rs') => (inl e, rs')
      | (inr b', rs') => rows_loop g ns rest b' rs'
      end
  end.

(** One round of the loop over the iterations, up to its [yield]; the
    tensor of the weights is the one allocated before the loop. *)
Definition one_iteration (g : AttributedGraph) (ns : nat) (eligible : list nat)
  (nrows : nat) (w : list (option spec_float)) (rs : RandomState)
  : (dataset_exn + Batch) * RandomState :=
  let b0 := {| buf_i := empty nrows; buf_j := empty nrows; buf_k := empty nrows;
               buf_w := w |} in
  match rows_loop g ns (combine (seq 0 (length eligible)) eligible) b0 rs with
  | (inl e, rs') => (inl e, rs')
  | (inr b, rs') =>
      (inr {| batch_X := X g; i_indices := buf_i b; j_indices := buf_j b;
              k_indices := buf_k b; weights := buf_w b; batch_nsamples := ns |},
       rs')
  end.

(** The batches yielded by [count] rounds, the exception that ended the
    generator if any, and the generator state. *)
Fixpoint iterations_loop (g : AttributedGraph) (ns : nat) (eligible : list nat)
  (nrows count : nat) (w : list (option spec_float)) (rs : RandomState)
  : (list Batch * option dataset_exn) * RandomState :=
  match count with
  | 0 => (([], None), rs)
  | S count' =>
      match one_iteration g ns eligible nrows w rs with
      | (inl e, rs') => (([], Some e), rs')
      | (inr batch, rs') =>
          let (out, rs'') :=
            iterations_loop g ns eligible nrows count' (weights batch) rs' in
          ((batch :: fst out, snd out), rs'')
      end
  end.

(** [GraphDataset.__iter__], run to its end. *)
Definition iter (d : GraphDataset) (rs : RandomState)
  : (list Batch * option dataset_exn) * RandomState :=
  match eligible_nodes (graph d) with
  | inl e => (([], Some (Raised e)), rs)
  | inr eligible =>
      let nrows := length eligible * nsamples d in
      iterations_loop (graph d) (nsamples d) eligible nrows (iterations d)
        (empty nrows) rs
  end.

End Dataset.

(** ** The encoder network *)

Module Network.
Import Loss.

(** [nn.Linear]: [weight] has one row per output, [bias] one entry per
    output. *)
Record Linear : Type := {
  weight : list (list R);
  bias : list R
}.

(** [layer(x)]: every row [r] of [x] becomes [r W^T + b]. *)
Definition linear (l : Linear) (x : tensor) : tensor :=
  map (fun row => zipWith Rplus (map (fun wrow => dot row wrow) (weight l)) (bias l)) x.

Definition relu (v : R) : R := Rmax 0 v.

(** [F.elu] with its default [alpha = 1]. *)
Definition elu (v : R) : R := if Rlt_dec 0 v then v else (exp v - 1)%R.

Record Params : Type := {
  linear1 : Linear;
  linear2 : Linear;
  linear_mu : Linear;
  linear_sigma : Linear
}.

(** [Encoder.forward], in exact real arithmetic: the float32 rounding of
    the source is not modelled. *)
Definition forward (p : Params) (node : tensor) : tensor * tensor :=
  let h := map (map relu) (linear (linear1 p) node) in
  let h := map (map relu) (linear (linear2 p) h) in
  let mu := linear (linear_mu p) h in
  let sigma := map (map (fun v => elu v + 1)%R) (linear (linear_sigma p) h) in
  (mu, sigma).

(** The encoder of embedding dimension [l] with the given parameters. *)
Definition encoder (l : nat) (p : Params) : Encoder :=
  {| L := l; Loss.forward := forward p |}.

End Network.

(** ** train_test_split *)

Module Split.

(** [x[i], x[j] = x[j], x[i]] *)
Definition swap (i j : nat) (x : list nat) : list nat :=
  let xi := nth i x 0 in
  let xj := nth j x 0 in
  LevelSets.update_nth j (fun _ => xi) (LevelSets.update_nth i (fun _ => xj) x).

(** [random.shuffle]: for [i] from [len - 1] down to 1, swap entry [i] with
    an entry drawn from [0 .. i]; [m] is the number of rounds left. *)
Fixpoint shuffle_from (m : nat) (x : list nat) (rs : RandomState)
  : list nat * RandomState :=
  match m with
  | 0 => (x, rs)
  | S m' =>
      let j := below (tape rs (pos rs)) (S m) in
      shuffle_from m' (swap m j x) (advance 1 rs)
  end.

Definition shuffle (x : list nat) (rs : RandomState) : list nat * RandomState :=
  shuffle_from (length x - 1) x rs.

(** The position at which a slice bound [s] of a list of length [len]
    falls: a negative bound counts from the end, and bounds are clamped. *)
Definition slice_bound (len : nat) (s : Z) : nat :=
  if (s <? 0)%Z then Z.to_nat (Z.max 0 (Z.of_nat len + s))
  else Nat.min (Z.to_nat s) len.

(** The conversion of an [int] to a [float] (a binary64), rounded to
    nearest even; an [int] beyond the range of the floats raises. *)
Definition float_of_int (n : Z) : result spec_float :=
  match binary_normalize 53 1024 n 0 false with
  | S754_infinity _ => inl OverflowError
  | f => inr f
  end.

(** [int(f)] of a float: truncation towards zero. *)
Definition int_of_float (f : spec_float) : result Z :=
  match f with
  | S754_zero _ => inr 0%Z
  | S754_finite s m e =>
      let v := Z.shiftl (Z.pos m) e in
      inr (if s then - v else v)%Z
  | S754_infinity _ => inl OverflowError
  | S754_nan => inl ValueError
  end.

(** [int(n * train_ratio)] for a ratio that is a float: the product is a
    float product. *)
Definition split_index (n : nat) (train_ratio : spec_float) : result Z :=
  x <- float_of_int (Z.of_nat n) ;;
  int_of_float (SFmul 53 1024 x train_ratio).

Definition train_test_split (n : nat) (train_ratio : spec_float) (rs : RandomState)
  : result (list nat * list nat) * RandomState :=
  let nodes := seq 0 n in
  match split_index n train_ratio with
  | inl e => (inl e, rs)
  | inr s =>
      let (nodes', rs') := shuffle nodes rs in
      (inr (firstn (slice_bound (length nodes') s) nodes',
            skipn (slice_bound (length nodes') s) nodes'), rs')
  end.

End Split.

(** ** Sample graphs *)

Module Samples.
Import LevelSets.

(** The path 0-1-2-3-4. *)
Definition path5 : adjacency :=
  [[false; true; false; false; false];
   [true; false; true; false; false];
   [false; true; false; true; false];
   [false; false; true; false; true];
   [false; false; false; true; false]].

(** Two disjoint edges 0-1 and 2-3. *)
Definition two_edges : adjacency :=
  [[false; true; false; false];
   [true; false; false; false];
   [false; false; false; true];
   [false; false; true; false]].

Definition ramp : RandomState :=
  {| tape := fun t => ((7 * N.of_nat t + 3) * (2 ^ 50 + 1))%N; pos := 0 |}.

(** The floats nearest to 0.5, 0.7 and 0.29. *)
Definition float_half : spec_float := S754_finite false 4503599627370496 (-53).
Definition float_0_7 : spec_float :=
  SFdiv 53 1024 (binary_normalize 53 1024 7 0 false)
    (binary_normalize 53 1024 10 0 false).
Definition float_0_29 : spec_float :=
  SFdiv 53 1024 (binary_normalize 53 1024 29 0 false)
    (binary_normalize 53 1024 100 0 false).

(** An encoder of embedding dimension 2 with a fixed output for two nodes. *)
Definition fixed_encoder : Loss.Encoder :=
  {| Loss.L := 2;
     Loss.forward := fun _ => ([[1; 2]; [3; 5]], [[1; 4]; [2; 2]])%R |}.

(** A network with one weight per layer, all equal to 1, and no bias. *)
Definition unit_layer : Network.Linear :=
  {| Network.weight := [[1%R]]; Network.bias := [0%R] |}.

Definition unit_params : Network.Params :=
  {| Network.linear1 := unit_layer; Network.linear2 := unit_layer;
     Network.linear_mu := unit_layer; Network.linear_sigma := unit_layer |}.

End Samples.

(** * Proofs *)

(** ** Arrays *)

Lemma zipWith_length {A B C : Type} (f : A -> B -> C) xs ys :
  length (zipWith f xs ys) = Nat.min (length xs) (length ys).
Proof.
  revert ys; induction xs as [|x xs IH]; intros [|y ys]; simpl; auto.
Qed.

Lemma zipWith_nth {A B C : Type} (f : A -> B -> C) xs ys t da db dc :
  t < length xs -> t < length ys ->
  nth t (zipWith f xs ys) dc = f (nth t xs da) (nth t ys db).
Proof.
  revert ys t; induction xs as [|x xs IH]; intros [|y ys] [|t]; simpl;
    intros; try lia; auto.
  apply IH; lia.
Qed.

Lemma mask_assign_select {A : Type} (mask : list bool) (arr src : list A) :
  length mask = length arr -> length src = length arr ->
  mask_assign mask arr (mask_select mask src)
  = zipWith (fun (m : bool) (ab : A * A) => if m then snd ab else fst ab)
      mask (combine arr src).
Proof.
  revert arr src; induction mask as [|m mask IH]; intros [|a arr] [|s src];
    simpl; intros; try discriminate; auto.
  destruct m; simpl; f_equal; apply IH; lia.
Qed.

Lemma take_length {A : Type} (d : A) arr idx : length (take d arr idx) = length idx.
Proof. apply length_map. Qed.

Lemma take_nth {A : Type} (d : A) arr idx t :
  t < length idx -> nth t (take d arr idx) d = nth (nth t idx 0) arr d.
Proof.
  intros Ht. unfold take.
  rewrite (nth_indep _ d (nth (length arr) arr d)) by (rewrite length_map; lia).
  rewrite (map_nth (fun t => nth t arr d) idx (length arr)).
  f_equal. apply nth_indep; lia.
Qed.

Lemma map_const {A B : Type} (c : B) (l : list A) :
  map (fun _ => c) l = repeat c (length l).
Proof. induction l; simpl; congruence. Qed.

Lemma nth_map_seq {T : Type} (f : nat -> T) size t d :
  t < size -> nth t (map f (seq 0 size)) d = f t.
Proof.
  intros Ht.
  rewrite (nth_indep _ d (f 0)) by (rewrite length_map, length_seq; exact Ht).
  rewrite map_nth, seq_nth by exact Ht. reflexivity.
Qed.

Lemma nth_repeat_lt {A : Type} (a d : A) n t : t < n -> nth t (repeat a n) d = a.
Proof.
  revert t; induction n as [|n IH]; intros [|t] Ht; simpl; try lia; auto.
  apply IH; lia.
Qed.

Lemma sum_app l1 l2 : sum (l1 ++ l2) = sum l1 + sum l2.
Proof. induction l1; simpl; lia. Qed.

(** ** The layout of the flattened partitions *)

Lemma below_lt raw h : 0 < h -> below raw h < h.
Proof.
  intros Hh. unfold below.
  pose proof (N.mod_lt raw (N.of_nat h) ltac:(lia)). lia.
Qed.

Module KPartiteFacts.
Import KPartite.

Lemma n_i_of_cons pt ps :
  n_i_of (pt :: ps) (lens (pt :: ps))
  = repeat (length pt) (length pt) ++ n_i_of ps (lens ps).
Proof. unfold n_i_of; simpl. now rewrite map_const. Qed.

Lemma start_i_of_cons acc pt ps :
  start_i_of (pt :: ps) (lens (pt :: ps)) (cumsum_from acc (lens (pt :: ps)))
  = repeat acc (length pt)
    ++ start_i_of ps (lens ps) (cumsum_from (acc + length pt) (lens ps)).
Proof.
  unfold start_i_of; simpl. rewrite map_const.
  replace (acc + length pt - length pt) with acc by lia. reflexivity.
Qed.

Lemma n_i_of_length parts : length (n_i_of parts (lens parts)) = sum (lens parts).
Proof.
  induction parts as [|pt ps IH]; [reflexivity|].
  rewrite n_i_of_cons, length_app, repeat_length, IH. reflexivity.
Qed.

Lemma start_i_of_length parts acc :
  length (start_i_of parts (lens parts) (cumsum_from acc (lens parts)))
  = sum (lens parts).
Proof.
  revert acc; induction parts as [|pt ps IH]; intros acc; [reflexivity|].
  rewrite start_i_of_cons, length_app, repeat_length, IH. reflexivity.
Qed.

Lemma concat_length parts : length (concat parts) = sum (lens parts).
Proof.
  induction parts as [|pt ps IH]; simpl; [reflexivity|].
  rewrite length_app, IH. reflexivity.
Qed.

(** Everything the constructor tabulates about a dense index, read off the
    partition that holds it. *)
Lemma layout parts : forall acc idx,
  idx < sum (lens parts) ->
  let q := part_index (lens parts) idx in
  q < length parts
  /\ offset parts q <= idx < offset parts q + length (nth q parts [])
  /\ nth idx (start_i_of parts (lens parts) (cumsum_from acc (lens parts))) 0
     = acc + offset parts q
  /\ nth idx (n_i_of parts (lens parts)) 0 = length (nth q parts [])
  /\ nth idx (concat parts) 0 = nth (idx - offset parts q) (nth q parts []) 0.
Proof.
  induction parts as [|pt ps IH]; intros acc idx Hidx; [simpl in Hidx; lia|].
  rewrite start_i_of_cons, n_i_of_cons.
  simpl lens in *. simpl sum in Hidx. simpl part_index.
  destruct (idx <? length pt) eqn:E.
  - apply Nat.ltb_lt in E. unfold offset; simpl.
    rewrite !app_nth1 by (rewrite ?repeat_length; lia).
    rewrite !nth_repeat_lt by lia.
    repeat split; try lia. f_equal; lia.
  - apply Nat.ltb_ge in E.
    destruct (IH (acc + length pt) (idx - length pt)) as (Hq & Hb & Hs & Hn & Hc);
      [lia|].
    unfold offset in *; simpl.
    rewrite !app_nth2 by (rewrite ?repeat_length; lia).
    rewrite !repeat_length.
    repeat split; try lia.
    rewrite Hc. f_equal. lia.
Qed.

Lemma offset_step parts q :
  q < length parts -> offset parts (S q) = offset parts q + length (nth q parts []).
Proof.
  unfold offset. revert q; induction parts as [|pt ps IH]; intros q Hq;
    [simpl in Hq; lia|].
  destruct q as [|q]; simpl; [lia|].
  simpl in Hq. specialize (IH q ltac:(lia)). simpl in IH. unfold lens in *. lia.
Qed.

Lemma offset_mono parts a b : a <= b -> offset parts a <= offset parts b.
Proof.
  unfold offset. revert a b; induction (lens parts) as [|c l IH]; intros a b Hab.
  - rewrite !firstn_nil. lia.
  - destruct a, b; simpl; try lia. specialize (IH a b ltac:(lia)). lia.
Qed.

Lemma offset_total parts q : offset parts q <= sum (lens parts).
Proof.
  unfold offset. revert q; induction (lens parts) as [|c l IH]; intros q.
  - rewrite firstn_nil. lia.
  - destruct q; simpl; [lia|]. specialize (IH q). lia.
Qed.

(** Two dense indices share a partition exactly when one lies in the block
    of the other. *)
Lemma same_part_block parts j t :
  j < sum (lens parts) -> t < sum (lens parts) ->
  let q := part_index (lens parts) j in
  part_index (lens parts) t = q
  <-> offset parts q <= t < offset parts q + length (nth q parts []).
Proof.
  intros Hj Ht q.
  destruct (layout parts 0 j Hj) as (Hq & Hb & _).
  destruct (layout parts 0 t Ht) as (Hq' & Hb' & _).
  fold q in Hq, Hb. set (q' := part_index (lens parts) t) in *.
  split; [intros ->; exact Hb'|].
  intros Hin.
  destruct (Nat.lt_trichotomy q' q) as [Hlt|[Heq|Hgt]]; auto; exfalso.
  - pose proof (offset_mono parts (S q') q ltac:(lia)).
    rewrite offset_step in H by lia. lia.
  - pose proof (offset_mono parts (S q) q' ltac:(lia)).
    rewrite offset_step in H by lia. lia.
Qed.

Lemma part_index_mono parts a b :
  a <= b -> b < sum (lens parts) ->
  part_index (lens parts) a <= part_index (lens parts) b.
Proof.
  intros Hab Hb.
  destruct (layout parts 0 a ltac:(lia)) as (Hqa & Hba & _).
  destruct (layout parts 0 b Hb) as (Hqb & Hbb & _).
  set (qa := part_index (lens parts) a) in *.
  set (qb := part_index (lens parts) b) in *.
  destruct (Nat.le_gt_cases qa qb) as [|Hgt]; auto. exfalso.
  pose proof (offset_mono parts (S qb) qa ltac:(lia)).
  rewrite offset_step in H by lia. lia.
Qed.

Lemma init_inr parts g :
  init parts = inr g ->
  2 <= length parts
  /\ (forall q, q < length parts -> 0 < length (nth q parts []))
  /\ g = {| partitions := parts; counts := lens parts; total := sum (lens parts);
            nodes := concat parts; n_i := n_i_of parts (lens parts);
            start_i := start_i_of parts (lens parts) (cumsum (lens parts));
            out_degrees := zipWith Nat.sub
                             (repeat (sum (lens parts)) (sum (lens parts)))
                             (n_i_of parts (lens parts));
            p := map (fun d => Qdiv_nat d
                        (sum (zipWith Nat.sub
                                (repeat (sum (lens parts)) (sum (lens parts)))
                                (n_i_of parts (lens parts)))))
                   (zipWith Nat.sub
                      (repeat (sum (lens parts)) (sum (lens parts)))
                      (n_i_of parts (lens parts))) |}.
Proof.
  unfold init. fold (lens parts).
  destruct (2 <=? length parts) eqn:E2; simpl; [|discriminate].
  destruct (forallb (fun c => 0 <? c) (lens parts)) eqn:Ec; simpl; [|discriminate].
  intros H; injection H as <-.
  apply Nat.leb_le in E2. split; [exact E2|]. split; [|reflexivity].
  intros q Hq. rewrite forallb_forall in Ec.
  apply Nat.ltb_lt, Ec. unfold lens.
  replace (length (nth q parts [])) with (nth q (map (@length nat) parts) (length (@nil nat)))
    by apply map_nth.
  apply nth_In. rewrite length_map. exact Hq.
Qed.

Section Constructed.
Variable parts : list (list nat).
Variable g : CompleteKPartiteGraph.
Hypothesis Hinit : init parts = inr g.

Let q_of (j : nat) : nat := part_index (counts g) j.

Lemma g_counts : counts g = lens parts.
Proof. destruct (init_inr _ _ Hinit) as (_ & _ & ->). reflexivity. Qed.

Lemma g_total : total g = sum (lens parts).
Proof. destruct (init_inr _ _ Hinit) as (_ & _ & ->). reflexivity. Qed.

Lemma g_nodes : nodes g = concat parts.
Proof. destruct (init_inr _ _ Hinit) as (_ & _ & ->). reflexivity. Qed.

Lemma g_parts_nonempty q : q < length parts -> 0 < length (nth q parts []).
Proof. destruct (init_inr _ _ Hinit) as (_ & H & _). apply H. Qed.

Lemma g_two_parts : 2 <= length parts.
Proof. destruct (init_inr _ _ Hinit) as (H & _). exact H. Qed.

Lemma g_part_lt j : j < total g -> q_of j < length parts.
Proof.
  unfold q_of. rewrite g_counts, g_total. intros Hj.
  now destruct (layout parts 0 j Hj).
Qed.

Lemma g_start j : j < total g -> nth j (start_i g) 0 = offset parts (q_of j).
Proof.
  unfold q_of. rewrite g_counts, g_total. intros Hj.
  destruct (init_inr _ _ Hinit) as (_ & _ & ->). simpl. unfold cumsum.
  destruct (layout parts 0 j Hj) as (_ & _ & H & _). exact H.
Qed.

Lemma g_n j : j < total g -> nth j (n_i g) 0 = length (nth (q_of j) parts []).
Proof.
  unfold q_of. rewrite g_counts, g_total. intros Hj.
  destruct (init_inr _ _ Hinit) as (_ & _ & ->). simpl.
  now destruct (layout parts 0 j Hj) as (_ & _ & _ & -> & _).
Qed.

Lemma g_block j :
  j < total g ->
  offset parts (q_of j) <= j < offset parts (q_of j) + length (nth (q_of j) parts [])
  /\ offset parts (q_of j) + length (nth (q_of j) parts []) <= total g.
Proof.
  intros Hj. pose proof (g_part_lt j Hj) as Hq. revert Hj.
  unfold q_of in *. rewrite g_counts, g_total in *. intros Hj.
  destruct (layout parts 0 j Hj) as (_ & Hb & _). split; [exact Hb|].
  rewrite <- offset_step by exact Hq. apply offset_total.
Qed.

Lemma g_node_in j :
  j < total g -> In (nth j (nodes g) 0) (nth (q_of j) parts []).
Proof.
  intros Hj. pose proof (g_block j Hj) as [Hb _]. revert Hj Hb.
  unfold q_of. rewrite g_counts, g_total, g_nodes. intros Hj Hb.
  destruct (layout parts 0 j Hj) as (_ & _ & _ & _ & ->).
  apply nth_In. lia.
Qed.

Lemma g_out_degree j :
  j < total g ->
  nth j (out_degrees g) 0 = total g - length (nth (q_of j) parts []).
Proof.
  intros Hj. rewrite <- g_n by exact Hj. revert Hj. rewrite g_total. intros Hj.
  destruct (init_inr _ _ Hinit) as (_ & _ & ->). simpl.
  rewrite (zipWith_nth Nat.sub _ _ j 0 0 0)
    by (rewrite ?repeat_length, ?n_i_of_length; lia).
  rewrite nth_repeat_lt by lia. reflexivity.
Qed.

(** Some other partition is non-empty, so every node has an edge. *)
Lemma g_block_proper j :
  j < total g -> length (nth (q_of j) parts []) < total g.
Proof.
  intros Hj. destruct (g_block j Hj) as [Hb Ht].
  pose proof (g_part_lt j Hj) as Hq. pose proof g_two_parts as H2.
  rewrite g_total in *.
  destruct (q_of j) as [|q] eqn:E.
  - pose proof (offset_mono parts 2 (length parts) H2).
    pose proof (offset_total parts (length parts)).
    rewrite (offset_step parts 1), (offset_step parts 0) in H by lia.
    pose proof (g_parts_nonempty 1 ltac:(lia)). lia.
  - pose proof (offset_mono parts 1 (S q) ltac:(lia)).
    rewrite (offset_step parts 0) in H by lia.
    pose proof (g_parts_nonempty 0 ltac:(lia)). lia.
Qed.

Lemma g_out_degree_pos j : j < total g -> 0 < nth j (out_degrees g) 0.
Proof.
  intros Hj. rewrite g_out_degree by exact Hj.
  pose proof (g_block_proper j Hj). lia.
Qed.

Lemma g_total_pos : 0 < total g.
Proof.
  rewrite g_total. pose proof g_two_parts.
  pose proof (offset_mono parts 1 (length parts) ltac:(lia)).
  pose proof (offset_total parts (length parts)).
  rewrite (offset_step parts 0) in H0 by lia.
  pose proof (g_parts_nonempty 0 ltac:(lia)). lia.
Qed.

Lemma g_same_part j t :
  j < total g -> t < total g ->
  q_of t = q_of j
  <-> nth j (start_i g) 0 <= t < nth j (start_i g) 0 + nth j (n_i g) 0.
Proof.
  intros Hj Ht. rewrite g_start, g_n by exact Hj.
  revert Hj Ht. unfold q_of. rewrite g_counts, g_total.
  apply same_part_block.
Qed.

(** The remap lands outside the block of [j], below [total]. *)
Lemma remap_range j r :
  j < total g -> r < nth j (out_degrees g) 0 ->
  remap g j r < total g /\ q_of (remap g j r) <> q_of j.
Proof.
  intros Hj Hr. rewrite g_out_degree in Hr by exact Hj.
  destruct (g_block j Hj) as [Hb Ht].
  assert (Hlt : remap g j r < total g).
  { unfold remap. rewrite g_start, g_n by exact Hj.
    destruct (offset parts (q_of j) <=? r) eqn:E; simpl; lia. }
  split; [exact Hlt|].
  rewrite (g_same_part j _ Hj Hlt). unfold remap.
  rewrite g_start, g_n by exact Hj.
  destruct (offset parts (q_of j) <=? r) eqn:E; simpl;
    [apply Nat.leb_le in E | apply Nat.leb_gt in E]; lia.
Qed.



End Constructed.

(** *** Probabilities *)

Lemma nth_le_sum l t : nth t l 0 <= sum l.
Proof.
  revert t; induction l as [|x l IH]; intros [|t]; simpl; try lia.
  specialize (IH t). lia.
Qed.

Lemma inject_nat_nonzero a : 0 < a -> ~ (inject_Z (Z.of_nat a) == 0)%Q.
Proof. intros Ha. unfold Qeq; simpl. lia. Qed.




(** *** The cumulative weights and the search of [choice] *)

Lemma Qdiv_nat_add a b D :
  (Qdiv_nat a D + Qdiv_nat b D == Qdiv_nat (a + b) D)%Q.
Proof.
  unfold Qdiv_nat, Qdiv. rewrite Nat2Z.inj_add, inject_Z_plus. ring.
Qed.

Lemma Qdiv_nat_zero D : (Qdiv_nat 0 D == 0)%Q.
Proof. unfold Qdiv_nat, Qdiv. simpl. ring. Qed.

Lemma Qdiv_nat_one D : 0 < D -> (Qdiv_nat D D == 1)%Q.
Proof.
  intros HD. unfold Qdiv_nat. field. now apply inject_nat_nonzero.
Qed.

Lemma Qdiv_nat_le a b D : a <= b -> (Qdiv_nat a D <= Qdiv_nat b D)%Q.
Proof.
  intros Hab. unfold Qdiv_nat, Qdiv. apply Qmult_le_compat_r.
  - rewrite <- Zle_Qle. lia.
  - apply Qinv_le_0_compat. replace 0%Q with (inject_Z 0) by reflexivity.
    rewrite <- Zle_Qle. lia.
Qed.

Lemma nth_map_lt {A B : Type} (f : A -> B) l i da db :
  i < length l -> nth i (map f l) db = f (nth i l da).
Proof.
  revert i; induction l as [|x l IH]; intros [|i] Hi; simpl in *; try lia; auto.
  apply IH. lia.
Qed.

Lemma last_nth {A : Type} (l : list A) d : last l d = nth (length l - 1) l d.
Proof.
  induction l as [|x [|y l] IH]; try reflexivity.
  change (last (x :: y :: l) d) with (last (y :: l) d). rewrite IH.
  simpl. now rewrite Nat.sub_0_r.
Qed.


Lemma sum_firstn_mono l a b : a <= b -> sum (firstn a l) <= sum (firstn b l).
Proof.
  revert a b; induction l as [|x l IH]; intros [|a] [|b] Hab; simpl; try lia.
  specialize (IH a b ltac:(lia)). lia.
Qed.

Lemma qcumsum_from_length acc l : length (qcumsum_from acc l) = length l.
Proof. revert acc; induction l; intros; simpl; auto. Qed.

Lemma qcumsum_from_scaled D : forall l acc a i,
  (acc == Qdiv_nat a D)%Q -> i < length l ->
  (nth i (qcumsum_from acc (map (fun d => Qdiv_nat d D) l)) 0
   == Qdiv_nat (a + sum (firstn (S i) l)) D)%Q.
Proof.
  induction l as [|x l IH]; intros acc a i Hacc Hi; [simpl in Hi; lia|].
  assert (Hstep : (acc + Qdiv_nat x D == Qdiv_nat (a + x) D)%Q)
    by (rewrite Hacc; apply Qdiv_nat_add).
  destruct i as [|i].
  - cbn [map qcumsum_from nth firstn sum fold_right].
    rewrite Hstep, Nat.add_0_r. reflexivity.
  - cbn [map qcumsum_from nth].
    rewrite (IH _ (a + x) i Hstep) by (simpl in Hi; lia).
    replace (a + sum (firstn (S (S i)) (x :: l)))
      with (a + x + sum (firstn (S i) l)); [reflexivity|].
    change (firstn (S (S i)) (x :: l)) with (x :: firstn (S i) l).
    change (sum (x :: firstn (S i) l)) with (x + sum (firstn (S i) l)). lia.
Qed.


(** The search counts the entries up to the first one above the value. *)
Lemma searchsorted_right_count : forall (a : list Q) u j,
  j <= length a ->
  (forall i, i < j -> (nth i a 0 <= u)%Q) ->
  (forall i, j <= i < length a -> (u < nth i a 0)%Q) ->
  searchsorted_right a u = j.
Proof.
  unfold searchsorted_right.
  induction a as [|x a IH]; intros u j Hj Hlo Hhi; [simpl in *; lia|].
  destruct j as [|j]; simpl.
  - replace (Qle_bool x u) with false.
    + apply (IH u 0); [lia|intros i Hi; lia|].
      intros i Hi. apply (Hhi (S i)). simpl. lia.
    + symmetry. apply not_true_is_false. rewrite Qle_bool_iff.
      apply Qlt_not_le. apply (Hhi 0). simpl. lia.
  - replace (Qle_bool x u) with true.
    + simpl. f_equal. apply IH; [simpl in Hj; lia| |].
      * intros i Hi. apply (Hlo (S i)). lia.
      * intros i Hi. apply (Hhi (S i)). simpl. lia.
    + symmetry. rewrite Qle_bool_iff. apply (Hlo 0). lia.
Qed.

Lemma interval_cover (f : nat -> Q) u : forall n,
  (f 0%nat <= u)%Q -> (u < f n)%Q ->
  exists j, j < n /\ (f j <= u)%Q /\ (u < f (S j))%Q.
Proof.
  induction n as [|n IH]; intros H0 Hn.
  - exfalso. apply (Qlt_not_le _ _ Hn H0).
  - destruct (Qlt_le_dec u (f n)) as [Hlt|Hge].
    + destruct (IH H0 Hlt) as (j & Hj & H). exists j. split; [lia|exact H].
    + exists n. split; [lia|]. split; assumption.
Qed.

Lemma random_sample_range rs t :
  (0 <= random_sample rs t)%Q /\ (random_sample rs t < 1)%Q.
Proof.
  unfold random_sample, Qle, Qlt. cbn [Qnum Qden].
  pose proof (N.mod_lt (tape rs (pos rs + t)) (2 ^ 53) ltac:(discriminate)) as H.
  change (Z.pos (2 ^ 53)) with (Z.of_N (2 ^ 53)).
  rewrite Z.mul_0_l, Z.mul_1_r, Z.mul_1_l. split.
  - apply N2Z.is_nonneg.
  - apply N2Z.inj_lt, H.
Qed.

Section Probabilities.
Variable parts : list (list nat).
Variable g : CompleteKPartiteGraph.
Hypothesis Hinit : init parts = inr g.

Lemma g_out_degrees_length : length (out_degrees g) = total g.
Proof.
  rewrite (g_total parts g Hinit).
  destruct (init_inr _ _ Hinit) as (_ & _ & ->). simpl.
  rewrite zipWith_length, repeat_length, n_i_of_length. lia.
Qed.

Lemma g_degree_sum_pos : 0 < sum (out_degrees g).
Proof.
  pose proof (g_total_pos parts g Hinit) as Ht.
  pose proof (g_out_degree_pos parts g Hinit 0 Ht).
  pose proof (nth_le_sum (out_degrees g) 0). lia.
Qed.


Lemma g_p_map :
  p g = map (fun d => Qdiv_nat d (sum (out_degrees g))) (out_degrees g).
Proof using Hinit.
  destruct (init_inr _ _ Hinit) as (_ & _ & ->). reflexivity.
Qed.

(** Where the interval of node [i] starts among the cumulative weights. *)
Definition cut (i : nat) : Q :=
  Qdiv_nat (sum (firstn i (out_degrees g))) (sum (out_degrees g)).

Lemma cut_mono a b : a <= b -> (cut a <= cut b)%Q.
Proof using Hinit.
  intros Hab. apply Qdiv_nat_le. now apply sum_firstn_mono.
Qed.


Lemma cut_first : (cut 0 == 0)%Q.
Proof using Hinit. apply Qdiv_nat_zero. Qed.

Lemma cut_last : (cut (total g) == 1)%Q.
Proof using Hinit.
  unfold cut. rewrite <- g_out_degrees_length, firstn_all.
  apply Qdiv_nat_one, g_degree_sum_pos.
Qed.

Lemma g_qcumsum_nth i :
  i < total g -> (nth i (qcumsum (p g)) 0 == cut (S i))%Q.
Proof using Hinit.
  intros Hi. rewrite g_p_map. unfold qcumsum, cut.
  rewrite (qcumsum_from_scaled _ _ 0%Q 0 i).
  - reflexivity.
  - symmetry. apply Qdiv_nat_zero.
  - rewrite g_out_degrees_length. exact Hi.
Qed.

Lemma g_qcumsum_length : length (qcumsum (p g)) = total g.
Proof using Hinit.
  unfold qcumsum. rewrite qcumsum_from_length, g_p_map, length_map.
  apply g_out_degrees_length.
Qed.

Lemma g_qcumsum_last : (last (qcumsum (p g)) 0 == 1)%Q.
Proof using Hinit.
  pose proof (g_total_pos parts g Hinit) as Ht.
  rewrite last_nth, g_qcumsum_length, g_qcumsum_nth by lia.
  replace (S (total g - 1)) with (total g) by lia. apply cut_last.
Qed.

Lemma g_cdf_length : length (cdf g) = total g.
Proof using Hinit. unfold cdf. rewrite length_map. apply g_qcumsum_length. Qed.

Lemma g_cdf_nth i : i < total g -> (nth i (cdf g) 0 == cut (S i))%Q.
Proof using Hinit.
  intros Hi. unfold cdf.
  rewrite (nth_map_lt _ _ i 0%Q) by (rewrite g_qcumsum_length; exact Hi).
  rewrite g_qcumsum_last, g_qcumsum_nth by exact Hi. field.
Qed.

(** The origin of a sample is the node whose interval holds the draw. *)
Lemma g_origin_in rs t j :
  j < total g ->
  (cut j <= random_sample rs t)%Q -> (random_sample rs t < cut (S j))%Q ->
  origin g rs t = j.
Proof using Hinit.
  intros Hj Hlo Hhi. unfold origin. apply searchsorted_right_count.
  - rewrite g_cdf_length. lia.
  - intros i Hi. rewrite g_cdf_nth by lia.
    apply Qle_trans with (cut j); [apply cut_mono; lia|exact Hlo].
  - intros i Hi. rewrite g_cdf_length in Hi. rewrite g_cdf_nth by lia.
    apply Qlt_le_trans with (cut (S j)); [exact Hhi|apply cut_mono; lia].
Qed.

Lemma g_origin_cover rs t :
  exists j, j < total g
    /\ (cut j <= random_sample rs t)%Q /\ (random_sample rs t < cut (S j))%Q.
Proof using Hinit.
  destruct (random_sample_range rs t) as [H0 H1].
  apply interval_cover.
  - now rewrite cut_first.
  - now rewrite cut_last.
Qed.

Lemma g_origin_lt rs t : origin g rs t < total g.
Proof using Hinit.
  destruct (g_origin_cover rs t) as (j & Hj & Hlo & Hhi).
  now rewrite (g_origin_in rs t j Hj Hlo Hhi).
Qed.

Lemma g_rank_lt size rs t :
  rank g size rs t < nth (origin g rs t) (out_degrees g) 0.
Proof using Hinit.
  apply below_lt, (g_out_degree_pos parts g Hinit), g_origin_lt.
Qed.



End Probabilities.

(** *** The vectorised sampler, one sample at a time *)

Lemma zipWith_map_map {A B C T : Type} (f : A -> B -> C) (a : T -> A) (b : T -> B) l :
  zipWith f (map a l) (map b l) = map (fun t => f (a t) (b t)) l.
Proof. induction l; simpl; congruence. Qed.

Lemma zipWith_self_map {B C T : Type} (f : T -> B -> C) (b : T -> B) l :
  zipWith f l (map b l) = map (fun t => f t (b t)) l.
Proof. induction l; simpl; congruence. Qed.

Lemma combine_map_map {A B T : Type} (a : T -> A) (b : T -> B) l :
  combine (map a l) (map b l) = map (fun t => (a t, b t)) l.
Proof. induction l; simpl; congruence. Qed.

Lemma take_map {A T : Type} (d : A) arr (f : T -> nat) l :
  take d arr (map f l) = map (fun t => nth (f t) arr d) l.
Proof. unfold take. apply map_map. Qed.

Lemma sample_edges_pointwise g size rs :
  sample_edges g size rs
  = ((map (fun t => fst (sample_edge g (origin g rs t) (rank g size rs t)))
        (seq 0 size),
      map (fun t => snd (sample_edge g (origin g rs t) (rank g size rs t)))
        (seq 0 size)),
     advance size (advance size rs)).
Proof.
  unfold sample_edges, choice, randint. fold (cdf g). rewrite map_map.
  fold (origin g rs). rewrite !take_map, !length_map, length_seq.
  rewrite zipWith_self_map. simpl tape. simpl pos.
  rewrite !zipWith_map_map.
  rewrite !mask_assign_select by (rewrite !length_map; reflexivity).
  rewrite !combine_map_map, !zipWith_map_map, !take_map.
  f_equal. f_equal; apply map_ext; intros t; unfold sample_edge, remap;
    fold (rank g size rs t);
    destruct (_ <? origin g rs t); reflexivity.
Qed.

End KPartiteFacts.

(** ** Claims about the sampler *)

Section SamplerClaims.
Import KPartite KPartiteFacts.

Lemma sample_edge_ordered parts g j r :
  init parts = inr g ->
  j < total g -> r < nth j (out_degrees g) 0 ->
  exists a b, a < b /\ b < length parts
    /\ In (fst (sample_edge g j r)) (nth a parts [])
    /\ In (snd (sample_edge g j r)) (nth b parts []).
Proof.
  intros Hinit Hj Hr.
  destruct (remap_range parts g Hinit j r Hj Hr) as [Hk Hne].
  pose proof (g_node_in parts g Hinit j Hj) as Hinj.
  pose proof (g_node_in parts g Hinit _ Hk) as Hink.
  pose proof (g_part_lt parts g Hinit j Hj) as Hqj.
  pose proof (g_part_lt parts g Hinit _ Hk) as Hqk.
  unfold sample_edge.
  rewrite (g_counts parts g Hinit) in *. rewrite (g_total parts g Hinit) in Hj, Hk.
  destruct (remap g j r <? j) eqn:E;
    [apply Nat.ltb_lt in E | apply Nat.ltb_ge in E]; simpl.
  - pose proof (part_index_mono parts (remap g j r) j ltac:(lia) Hj).
    exists (part_index (lens parts) (remap g j r)), (part_index (lens parts) j).
    repeat split; auto; lia.
  - pose proof (part_index_mono parts j (remap g j r) E Hk).
    exists (part_index (lens parts) j), (part_index (lens parts) (remap g j r)).
    repeat split; auto; lia.
Qed.

Lemma concat_NoDup_part (parts : list (list nat)) x :
  NoDup (concat parts) ->
  forall a b, In x (nth a parts []) -> In x (nth b parts []) -> a = b.
Proof.
  induction parts as [|pt ps IH]; intros Hnd a b Ha Hb.
  - destruct a; destruct Ha.
  - simpl in Hnd.
    assert (Hsplit : forall y, In y pt -> forall c, In y (nth c ps []) -> False).
    { intros y Hy c Hc.
      destruct (Nat.lt_ge_cases c (length ps)) as [Hlt|Hge];
        [|rewrite nth_overflow in Hc by exact Hge; destruct Hc].
      apply NoDup_app_remove_l in Hnd as Hnd'.
      clear IH Ha Hb. revert Hnd. induction pt as [|u pt IHpt]; [destruct Hy|].
      simpl. intros Hnd. inversion Hnd as [|? ? Hnin Hnd2]; subst.
      destruct Hy as [->|Hy]; [|now apply IHpt].
      apply Hnin, in_or_app. right. apply in_concat.
      exists (nth c ps []). split; [apply nth_In; exact Hlt|exact Hc]. }
    destruct a as [|a], b as [|b]; simpl in Ha, Hb; auto.
    + exfalso; eapply Hsplit; eauto.
    + exfalso; eapply Hsplit; eauto.
    + f_equal. apply IH; auto. now apply NoDup_app_remove_l in Hnd.
Qed.

End SamplerClaims.



(** C4: every pair returned by [sample_edges] has its closer node in a
    partition of strictly smaller index than its farther node, so the two
    come from different input partitions and the closer index is at most the
    farther one; when no identifier occurs twice in the input this holds for
    the partitions of the two nodes, whichever way they are looked up. *)
Theorem sample_edges_ordered parts g size rs :
  KPartite.init parts = inr g ->
  let closer := fst (fst (KPartite.sample_edges g size rs)) in
  let farther := snd (fst (KPartite.sample_edges g size rs)) in
  length closer = size /\ length farther = size
  /\ forall t, t < size ->
       (exists a b, a < b /\ b < length parts
          /\ In (nth t closer 0) (nth a parts [])
          /\ In (nth t farther 0) (nth b parts []))
       /\ (NoDup (concat parts) ->
           forall a b, In (nth t closer 0) (nth a parts []) ->
                       In (nth t farther 0) (nth b parts []) -> a < b).
Proof.
  intros Hinit closer farther. unfold closer, farther.
  rewrite KPartiteFacts.sample_edges_pointwise. simpl.
  rewrite !length_map, !length_seq. split; [reflexivity|]. split; [reflexivity|].
  intros t Ht. rewrite !nth_map_seq by exact Ht.
  pose proof (KPartiteFacts.g_origin_lt parts g Hinit rs t) as Hj.
  pose proof (KPartiteFacts.g_rank_lt parts g Hinit size rs t) as Hr.
  destruct (sample_edge_ordered parts g _ _ Hinit Hj Hr) as (a & b & Hab & Hb & Hc & Hf).
  split; [exists a, b; auto|].
  intros Hnd a' b' Hc' Hf'.
  rewrite (concat_NoDup_part parts _ Hnd a' a Hc' Hc).
  rewrite (concat_NoDup_part parts _ Hnd b' b Hf' Hf). exact Hab.
Qed.

Lemma sample_edges_ordered_witness :
  exists g, KPartite.init [[10; 11]; [20; 21; 22]; [30]] = inr g
    /\ fst (KPartite.sample_edges g 6 Samples.ramp)
       = ([10; 11; 10; 10; 10; 11], [20; 20; 30; 22; 30; 22])
    /\ exists a b, a < b /\ b < 3
         /\ In (nth 2 (fst (fst (KPartite.sample_edges g 6 Samples.ramp))) 0)
              (nth a [[10; 11]; [20; 21; 22]; [30]] [])
         /\ In (nth 2 (snd (fst (KPartite.sample_edges g 6 Samples.ramp))) 0)
              (nth b [[10; 11]; [20; 21; 22]; [30]] []).
Proof.
  eexists. split; [reflexivity|]. split; [reflexivity|].
  exact (proj1 (proj2 (proj2
    (sample_edges_ordered [[10; 11]; [20; 21; 22]; [30]] _ 6 Samples.ramp eq_refl))
    2 ltac:(lia))).
Defined.

(** ** Hop distances *)

Module DistanceFacts.
Import LevelSets.

Lemma mem_In x l : mem x l = true <-> In x l.
Proof.
  unfold mem. rewrite existsb_exists. split.
  - intros (y & Hy & E). apply Nat.eqb_eq in E. now subst.
  - intros H. exists x. split; [exact H|apply Nat.eqb_refl].
Qed.

Lemma linked_sym a i j : linked a i j = linked a j i.
Proof.
  unfold linked.
  rewrite (andb_comm (i <? shape0 a)), (orb_comm (entry a i j)). reflexivity.
Qed.

Lemma walk_front a k : forall i m j,
  linked a i m = true -> walk a k m j -> walk a (S k) i j.
Proof.
  induction k as [|k IH]; intros i m j Him Hw; inversion Hw; subst.
  - apply walk_step with i; [constructor|exact Him].
  - eapply walk_step; [|eassumption]. eapply IH; eassumption.
Qed.

Lemma walk_reverse a k : forall i j, walk a k i j -> walk a k j i.
Proof.
  induction k as [|k IH]; intros i j Hw; inversion Hw; subst.
  - constructor.
  - apply walk_front with m; [now rewrite linked_sym|now apply IH].
Qed.

Lemma ball_step a k i j :
  In j (ball a (S k) i)
  <-> In j (ball a k i) \/ exists m, In m (ball a k i) /\ linked a m j = true.
Proof.
  simpl. rewrite in_app_iff, filter_In, in_seq, andb_true_iff, existsb_exists.
  split.
  - intros [H|(_ & _ & H)]; auto.
  - intros [H|(m & Hm & Hl)]; auto.
    destruct (mem j (ball a k i)) eqn:E; [left; now apply mem_In|right].
    split; [|split; [reflexivity|exists m; auto]].
    unfold linked in Hl. apply andb_true_iff in Hl as [Hl _].
    apply andb_true_iff in Hl as [_ Hj]. apply Nat.ltb_lt in Hj. lia.
Qed.

Lemma ball_walk a k : forall i j,
  In j (ball a k i) <-> exists k', k' <= k /\ walk a k' i j.
Proof.
  induction k as [|k IH]; intros i j.
  - simpl. split.
    + intros [->|[]]. exists 0. split; [lia|constructor].
    + intros (k' & Hk & Hw). assert (k' = 0) by lia. subst.
      inversion Hw; subst. now left.
  - rewrite ball_step. split.
    + intros [H|(m & Hm & Hl)].
      * apply IH in H as (k' & Hk & Hw). exists k'. split; [lia|exact Hw].
      * apply IH in Hm as (k' & Hk & Hw). exists (S k'). split; [lia|].
        eapply walk_step; eassumption.
    + intros (k' & Hk & Hw). inversion Hw; subst.
      * left. apply IH. exists 0. split; [lia|constructor].
      * right. exists m. split; [|assumption]. apply IH. exists k0. split; [lia|assumption].
Qed.

Lemma ball_sym a k i j : mem j (ball a k i) = mem i (ball a k j).
Proof.
  apply eq_true_iff_eq. rewrite !mem_In, !ball_walk.
  split; intros (k' & Hk & Hw); exists k'; (split; [exact Hk|now apply walk_reverse]).
Qed.

Lemma hops_sym a i j : hops a i j = hops a j i.
Proof.
  unfold hops. generalize 0 as k. induction (shape0 a) as [|fuel IH]; intros k;
    simpl; [reflexivity|].
  rewrite (ball_sym a k i j). destruct (mem i (ball a k j)); auto.
Qed.

Lemma distance_matrix_length a K : length (distance_matrix a K) = shape0 a.
Proof. unfold distance_matrix, shortest_path. now rewrite !length_map, length_seq. Qed.

Lemma distance_matrix_row a K i :
  i < shape0 a ->
  nth i (distance_matrix a K) []
  = map (fun j => cap K (to_int (hops a i j))) (seq 0 (shape0 a)).
Proof.
  intros Hi. unfold distance_matrix, shortest_path.
  rewrite map_map, nth_map_seq by exact Hi. apply map_map.
Qed.

Lemma distance_matrix_at a K i j :
  i < shape0 a -> j < shape0 a ->
  at2 (distance_matrix a K) i j = cap K (to_int (hops a i j)).
Proof.
  intros Hi Hj. unfold at2. rewrite distance_matrix_row by exact Hi.
  apply (nth_map_seq (fun j => cap K (to_int (hops a i j)))). exact Hj.
Qed.

Lemma cap_lower K h : (-1 <= cap K (to_int h))%Z.
Proof.
  unfold cap, to_int. destruct K as [k|], h as [d|]; try lia;
    destruct (_ <? _)%Z; lia.
Qed.

Lemma cap_spec K h :
  (exists d, h = Some d /\ (forall k, K = Some k -> (Z.of_nat d <= k)%Z)
             /\ cap K (to_int h) = Z.of_nat d)
  \/ ((h = None \/ exists k d, K = Some k /\ h = Some d /\ (k < Z.of_nat d)%Z)
      /\ cap K (to_int h) = (-1)%Z).
Proof.
  destruct h as [d|];
    [|right; split; [now left|destruct K; simpl; [destruct (_ <? _)%Z|]; reflexivity]].
  destruct K as [k|]; simpl.
  - destruct (Z.ltb_spec k (Z.of_nat d)).
    + right. split; [right; exists k, d; auto|reflexivity].
    + left. exists d. repeat split; auto. now intros ? [= <-].
  - left. exists d. repeat split; auto. discriminate.
Qed.

Lemma fold_max_ge l : forall x, (x <= fold_left Z.max l x)%Z.
Proof.
  induction l as [|y l IH]; intros x; simpl; [lia|].
  specialize (IH (Z.max x y)). lia.
Qed.

Lemma fold_max_upper l : forall x y, In y l -> (y <= fold_left Z.max l x)%Z.
Proof.
  induction l as [|u l IH]; intros x y Hy; [destruct Hy|]. simpl.
  destruct Hy as [->|Hy]; [|now apply IH].
  pose proof (fold_max_ge l (Z.max x y)). lia.
Qed.

Lemma fold_max_in l : forall x, fold_left Z.max l x = x \/ In (fold_left Z.max l x) l.
Proof.
  induction l as [|u l IH]; intros x; simpl; [now left|].
  destruct (IH (Z.max x u)) as [H|H]; [|now right; right].
  rewrite H. destruct (Z.max_spec x u) as [[_ ->]|[_ ->]]; auto.
Qed.

Lemma row_max_upper row y : In y row -> (y <= row_max row)%Z.
Proof.
  destruct row as [|x t]; [intros []|]. simpl.
  intros [->|Hy]; [apply fold_max_ge|now apply fold_max_upper].
Qed.

Lemma row_max_in row : row <> [] -> In (row_max row) row.
Proof.
  destruct row as [|x t]; [congruence|]. intros _. simpl.
  destruct (fold_max_in t x) as [->|H]; auto.
Qed.

End DistanceFacts.

(** ** Reading the shells off a distance matrix *)

Module ReadOffFacts.
Import LevelSets.

Lemma update_nth_length {A : Type} k (f : A -> A) l :
  length (update_nth k f l) = length l.
Proof. revert k; induction l as [|x l IH]; intros [|k]; simpl; auto. Qed.

Lemma update_nth_same {A : Type} k (f : A -> A) l d :
  k < length l -> nth k (update_nth k f l) d = f (nth k l d).
Proof.
  revert k; induction l as [|x l IH]; intros [|k] Hk; simpl in *; try lia; auto.
  apply IH; lia.
Qed.

Lemma update_nth_other {A : Type} k k' (f : A -> A) l d :
  k' <> k -> nth k' (update_nth k f l) d = nth k' l d.
Proof.
  revert k k'; induction l as [|x l IH]; intros [|k] [|k'] Hk; simpl; auto; try lia.
Qed.

Lemma py_index_last len : 0 < len -> py_index len (-1)%Z = Some (len - 1).
Proof.
  intros Hl. unfold py_index.
  replace (-1 <? 0)%Z with true by reflexivity.
  destruct (Z.leb_spec (- -1) (Z.of_nat len)); [f_equal|]; lia.
Qed.

Lemma py_index_nonneg len d :
  (0 <= d)%Z -> Z.to_nat d < len -> py_index len d = Some (Z.to_nat d).
Proof.
  intros Hd Hl. unfold py_index.
  destruct (d <? 0)%Z eqn:E; [apply Z.ltb_lt in E; lia|].
  destruct (d <? Z.of_nat len)%Z eqn:E'; [reflexivity|].
  apply Z.ltb_ge in E'. lia.
Qed.

Lemma for_each_seq {S : Type} (Inv : nat -> S -> Prop) body len : forall lo s,
  Inv lo s ->
  (forall j s, lo <= j < lo + len -> Inv j s ->
     exists s', body s j = inr s' /\ Inv (Datatypes.S j) s') ->
  exists s', for_each (seq lo len) body s = inr s' /\ Inv (lo + len) s'.
Proof.
  induction len as [|len IH]; intros lo s H0 Hstep; simpl.
  - exists s. rewrite Nat.add_0_r. auto.
  - destruct (Hstep lo s ltac:(lia) H0) as (s1 & -> & H1). simpl.
    destruct (IH (Datatypes.S lo) s1 H1) as (s' & Hs' & Hinv).
    + intros j s2 Hj. apply Hstep. lia.
    + exists s'. split; [exact Hs'|]. now replace (lo + Datatypes.S len)
        with (Datatypes.S lo + len) by lia.
Qed.

Section ReadOff.
Variable D : list (list Z).
Variable n : nat.
Hypothesis Hlen : length D = n.
Hypothesis Hrows : forall i, i < n -> length (nth i D []) = n.
Hypothesis Hsym : forall i j, i < n -> j < n -> at2 D i j = at2 D j i.
Hypothesis Hlow : forall i j, i < n -> j < n -> (-1 <= at2 D i j)%Z.

Lemma at2_le_max i j : i < n -> j < n -> (at2 D i j <= row_max (nth i D []))%Z.
Proof using Hlen Hrows Hsym Hlow.
  intros Hi Hj. apply DistanceFacts.row_max_upper. unfold at2. apply nth_In.
  rewrite Hrows by exact Hi. exact Hj.
Qed.

Lemma row_max_low i : i < n -> (-1 <= row_max (nth i D []))%Z.
Proof using Hlen Hrows Hsym Hlow.
  intros Hi. pose proof (at2_le_max i i Hi Hi). pose proof (Hlow i i Hi Hi). lia.
Qed.

Lemma nshells_pos i : i < n -> 0 < nshells D i.
Proof using Hlen Hrows Hsym Hlow. intros Hi. unfold nshells. pose proof (row_max_low i Hi). lia. Qed.

Lemma slot_lt i x : i < n -> x < n -> slot D i x < nshells D i.
Proof using Hlen Hrows Hsym Hlow.
  intros Hi Hx. pose proof (nshells_pos i Hi). unfold slot.
  destruct (x =? i) eqn:E; [lia|]. apply Nat.eqb_neq in E. cbv zeta.
  destruct (_ <? 0)%Z eqn:Ed; [lia|]. apply Z.ltb_ge in Ed.
  assert (Hle : (at2 D (Nat.max i x) (Nat.min i x) <= row_max (nth i D []))%Z).
  { destruct (Nat.max_spec i x) as [[Hlt ->]|[Hge ->]].
    - rewrite Nat.min_l by lia. rewrite Hsym by lia. apply at2_le_max; lia.
    - rewrite Nat.min_r by lia. apply at2_le_max; lia. }
  unfold nshells. lia.
Qed.

Lemma filled_ext P P' sets :
  (forall a, a < n -> P a = P' a) -> filled D n P sets -> filled D n P' sets.
Proof.
  intros Heq [Hl H]. split; [exact Hl|]. intros a Ha.
  destruct (H a Ha) as [H1 H2]. split; [exact H1|].
  intros s. rewrite <- Heq by exact Ha. apply H2.
Qed.

Lemma append_filled P sets a x idx :
  filled D n P sets -> a < n -> x < n ->
  py_index (nshells D a) idx = Some (slot D a x) ->
  exists sets',
    append_shell sets a idx x = inr sets'
    /\ filled D n (fun b => if b =? a then P a ++ [x] else P b) sets'.
Proof.
  intros [Hl H] Ha Hx Hidx. unfold append_shell.
  destruct (nth_error sets a) as [sh|] eqn:E;
    [|apply nth_error_None in E; lia].
  apply (nth_error_nth _ _ []) in E.
  destruct (H a Ha) as [Hla Hfa]. subst sh.
  rewrite Hla, Hidx. eexists. split; [reflexivity|].
  split; [now rewrite update_nth_length|].
  intros b Hb. destruct (b =? a) eqn:Eb.
  - apply Nat.eqb_eq in Eb. subst b.
    rewrite update_nth_same by lia.
    split; [now rewrite update_nth_length|].
    intros s. rewrite filter_app. simpl.
    destruct (Nat.eq_dec s (slot D a x)) as [->|Hne].
    + rewrite update_nth_same by (rewrite Hla; now apply slot_lt).
      rewrite Nat.eqb_refl, Hfa. reflexivity.
    + rewrite update_nth_other by exact Hne.
      replace (slot D a x =? s) with false
        by (symmetry; apply Nat.eqb_neq; congruence).
      rewrite app_nil_r. apply Hfa.
  - apply Nat.eqb_neq in Eb. rewrite update_nth_other by exact Eb.
    apply H. exact Hb.
Qed.

Lemma slot_pair i j :
  j < i ->
  slot D i j = (if (at2 D i j <? 0)%Z then nshells D i - 1
                else Z.to_nat (at2 D i j))
  /\ slot D j i = (if (at2 D i j <? 0)%Z then nshells D j - 1
                   else Z.to_nat (at2 D i j)).
Proof using Hlen Hrows Hsym Hlow.
  intros Hji. unfold slot.
  replace (j =? i) with false by (symmetry; apply Nat.eqb_neq; lia).
  replace (i =? j) with false by (symmetry; apply Nat.eqb_neq; lia).
  rewrite (Nat.max_l i j), (Nat.min_r i j), (Nat.max_r j i), (Nat.min_l j i) by lia.
  split; reflexivity.
Qed.

Lemma py_index_slot i x idx :
  i < n -> x < n ->
  slot D i x = (if (idx <? 0)%Z then nshells D i - 1 else Z.to_nat idx) ->
  py_index (nshells D i)
    (if (idx <? 0)%Z then (-1)%Z else idx) = Some (slot D i x).
Proof.
  intros Hi Hx Hs. pose proof (slot_lt i x Hi Hx) as Hlt. rewrite Hs in *.
  destruct (idx <? 0)%Z eqn:E.
  - apply py_index_last. now apply nshells_pos.
  - apply Z.ltb_ge in E. now apply py_index_nonneg.
Qed.

Lemma Pin_start i a :
  (if a =? i then Pout i i ++ [i] else Pout i a) = Pin i 0 a.
Proof.
  unfold Pin, Pout. destruct (a =? i) eqn:E.
  - rewrite Nat.ltb_irrefl. reflexivity.
  - reflexivity.
Qed.

Lemma Pin_finish i a : Pin i i a = Pout (S i) a.
Proof.
  unfold Pin, Pout. destruct (a =? i) eqn:E.
  - apply Nat.eqb_eq in E. subst a.
    replace (i <? S i) with true by (symmetry; apply Nat.ltb_lt; lia).
    rewrite Nat.sub_diag. simpl. now rewrite app_nil_r.
  - apply Nat.eqb_neq in E. destruct (a <? i) eqn:E1.
    + replace (a <? S i) with true
        by (symmetry; apply Nat.ltb_lt; apply Nat.ltb_lt in E1; lia).
      reflexivity.
    + replace (a <? S i) with false
        by (symmetry; apply Nat.ltb_ge; apply Nat.ltb_ge in E1; lia).
      reflexivity.
Qed.

Lemma Pin_step i j a :
  j < i ->
  (if a =? j then (if j =? i then Pin i j i ++ [j] else Pin i j j) ++ [i]
   else if a =? i then Pin i j i ++ [j] else Pin i j a)
  = Pin i (S j) a.
Proof.
  intros Hji.
  replace (j =? i) with false by (symmetry; apply Nat.eqb_neq; lia).
  unfold Pin, Pout. rewrite Nat.eqb_refl.
  destruct (a =? j) eqn:Ej.
  - apply Nat.eqb_eq in Ej. subst a.
    replace (j =? i) with false by (symmetry; apply Nat.eqb_neq; lia).
    rewrite Nat.ltb_irrefl.
    replace (j <? i) with true by (symmetry; apply Nat.ltb_lt; lia).
    replace (j <? S j) with true by (symmetry; apply Nat.ltb_lt; lia).
    replace (i - j) with (S (i - S j)) by lia.
    rewrite (seq_S (i - S j) (S j)). simpl. rewrite <- app_assoc.
    replace (S (j + (i - S j))) with i by lia. reflexivity.
  - apply Nat.eqb_neq in Ej. destruct (a =? i) eqn:Ei.
    + rewrite seq_S. reflexivity.
    + destruct (a <? j) eqn:E1.
      * replace (a <? S j) with true
          by (symmetry; apply Nat.ltb_lt; apply Nat.ltb_lt in E1; lia).
        reflexivity.
      * replace (a <? S j) with false
          by (symmetry; apply Nat.ltb_ge; apply Nat.ltb_ge in E1; lia).
        reflexivity.
Qed.

Lemma inner_step_filled i j sets :
  i < n -> j < i -> filled D n (Pin i j) sets ->
  exists sets', inner_step D i sets j = inr sets' /\ filled D n (Pin i (S j)) sets'.
Proof.
  intros Hi Hji Hf. unfold inner_step. cbv zeta.
  destruct (slot_pair i j Hji) as [Hs1 Hs2].
  pose proof (py_index_slot i j _ Hi ltac:(lia) Hs1) as Hp1.
  pose proof (py_index_slot j i _ ltac:(lia) Hi Hs2) as Hp2.
  destruct (at2 D i j <? 0)%Z.
  - destruct (append_filled _ _ i j _ Hf Hi ltac:(lia) Hp1) as (s1 & -> & Hf1).
    simpl.
    destruct (append_filled _ _ j i _ Hf1 ltac:(lia) Hi Hp2) as (s2 & -> & Hf2).
    exists s2. split; [reflexivity|].
    eapply filled_ext; [|exact Hf2]. intros a _. now apply Pin_step.
  - destruct (append_filled _ _ i j _ Hf Hi ltac:(lia) Hp1) as (s1 & -> & Hf1).
    simpl.
    destruct (append_filled _ _ j i _ Hf1 ltac:(lia) Hi Hp2) as (s2 & -> & Hf2).
    exists s2. split; [reflexivity|].
    eapply filled_ext; [|exact Hf2]. intros a _. now apply Pin_step.
Qed.

Lemma outer_step_filled i sets :
  i < n -> filled D n (Pout i) sets ->
  exists sets', outer_step D sets i = inr sets' /\ filled D n (Pout (S i)) sets'.
Proof.
  intros Hi Hf. unfold outer_step.
  assert (Hp0 : py_index (nshells D i) 0%Z = Some (slot D i i)).
  { unfold slot. rewrite Nat.eqb_refl. apply (py_index_nonneg _ 0%Z); [lia|].
    now apply nshells_pos. }
  destruct (append_filled _ _ i i _ Hf Hi Hi Hp0) as (s0 & -> & Hf0). simpl.
  apply (filled_ext _ (Pin i 0)) in Hf0; [|intros a _; apply Pin_start].
  destruct (for_each_seq (fun j s => filled D n (Pin i j) s) (inner_step D i) i 0 s0 Hf0)
    as (s' & Hs' & Hf').
  - intros j s Hj Hfj. apply inner_step_filled; auto; lia.
  - exists s'. split; [exact Hs'|].
    eapply filled_ext; [|exact Hf']. intros a _. apply Pin_finish.
Qed.

Lemma empty_sets_filled : filled D n (Pout 0) (empty_sets D).
Proof.
  unfold empty_sets. split; [now rewrite length_map|].
  intros a Ha.
  assert (E : nth a (map (fun row => repeat (@nil nat) (Z.to_nat (1 + row_max row + 1))) D) []
              = repeat [] (nshells D a)).
  { rewrite (nth_indep _ [] ((fun row => repeat (@nil nat)
                                 (Z.to_nat (1 + row_max row + 1))) []))
      by (rewrite length_map; lia).
    apply (map_nth (fun row => repeat (@nil nat) (Z.to_nat (1 + row_max row + 1)))). }
  rewrite E. split; [apply repeat_length|].
  intros s. unfold Pout. simpl.
  destruct (Nat.lt_ge_cases s (nshells D a)) as [Hlt|Hge].
  - now apply nth_repeat_lt.
  - apply nth_overflow. now rewrite repeat_length.
Qed.

Lemma Pout_order a : a < n -> Pout n a = order n a.
Proof.
  intros Ha. unfold Pout, order.
  now replace (a <? n) with true by (symmetry; apply Nat.ltb_lt; exact Ha).
Qed.

(** The loops never index out of range, and they put every node into the
    shell named by [slot]. *)
Lemma read_off_filled :
  exists sets, read_off D = inr sets /\ filled D n (order n) sets.
Proof using Hlen Hrows Hsym Hlow.
  unfold read_off. rewrite Hlen.
  destruct (for_each_seq (fun i s => filled D n (Pout i) s) (outer_step D) n 0
              (empty_sets D) empty_sets_filled) as (sets & Hs & Hf).
  - intros i s Hi Hfi. apply outer_step_filled; auto; lia.
  - exists sets. split; [exact Hs|].
    eapply filled_ext; [|exact Hf]. apply Pout_order.
Qed.

End ReadOff.

End ReadOffFacts.

(** ** The level sets of an adjacency matrix *)

Module LevelSetFacts.
Import LevelSets ReadOffFacts.

Lemma filter_split {A : Type} (f g h : A -> bool) l :
  (forall x, In x l -> h x = f x || g x) ->
  (forall x, In x l -> f x = true -> g x = false) ->
  Permutation (filter f l ++ filter g l) (filter h l).
Proof.
  induction l as [|x l IH]; intros Hh Hex; [constructor|]. simpl.
  assert (IH' : Permutation (filter f l ++ filter g l) (filter h l)).
  { apply IH; intros; [apply Hh|apply Hex]; simpl; auto. }
  rewrite (Hh x) by (simpl; auto).
  destruct (f x) eqn:Ef; simpl.
  - rewrite (Hex x) by (simpl; auto). now constructor.
  - destruct (g x); [|exact IH'].
    rewrite <- IH'. symmetry. apply Permutation_middle.
Qed.

Lemma concat_filters (f : nat -> nat) l m :
  Permutation (concat (map (fun s => filter (fun x => f x =? s) l) (seq 0 m)))
    (filter (fun x => f x <? m) l).
Proof.
  induction m as [|m IH].
  - simpl. induction l as [|x l IHl]; simpl; auto.
  - rewrite seq_S, map_app, concat_app. simpl. rewrite app_nil_r, IH.
    apply filter_split.
    + intros x _. destruct (Nat.ltb_spec (f x) m), (Nat.eqb_spec (f x) m),
        (Nat.ltb_spec (f x) (S m)); simpl; try reflexivity; lia.
    + intros x _ H. apply Nat.ltb_lt in H. apply Nat.eqb_neq. lia.
Qed.

Lemma filter_all {A : Type} (f : A -> bool) l :
  (forall x, In x l -> f x = true) -> filter f l = l.
Proof.
  induction l as [|x l IH]; intros H; simpl; [reflexivity|].
  rewrite (H x) by (simpl; auto). f_equal. apply IH. intros; apply H; simpl; auto.
Qed.

Lemma order_perm n i : i < n -> Permutation (order n i) (seq 0 n).
Proof.
  intros Hi. unfold order.
  replace n with (i + S (n - S i)) at 2 by lia.
  rewrite seq_app. simpl. apply Permutation_middle.
Qed.

Lemma order_In n i x : i < n -> In x (order n i) <-> x < n.
Proof.
  intros Hi. split; intros H.
  - apply (Permutation_in _ (order_perm n i Hi)) in H. apply in_seq in H. lia.
  - apply (Permutation_in _ (Permutation_sym (order_perm n i Hi))).
    apply in_seq. lia.
Qed.

Section Matrix.
Variable a : adjacency.
Variable K : option Z.

Let n := shape0 a.
Let D := distance_matrix a K.

Lemma D_at i j : i < n -> j < n -> at2 D i j = cap K (to_int (hops a i j)).
Proof. apply DistanceFacts.distance_matrix_at. Qed.

Lemma D_len : length D = n.
Proof. apply DistanceFacts.distance_matrix_length. Qed.

Lemma D_rows i : i < n -> length (nth i D []) = n.
Proof.
  intros Hi. unfold D. rewrite DistanceFacts.distance_matrix_row by exact Hi.
  now rewrite length_map, length_seq.
Qed.

Lemma D_sym i j : i < n -> j < n -> at2 D i j = at2 D j i.
Proof.
  intros Hi Hj. rewrite !D_at by assumption.
  now rewrite DistanceFacts.hops_sym.
Qed.

Lemma D_low i j : i < n -> j < n -> (-1 <= at2 D i j)%Z.
Proof. intros Hi Hj. rewrite D_at by assumption. apply DistanceFacts.cap_lower. Qed.

Lemma D_filled : exists sets, read_off D = inr sets /\ filled D n (order n) sets.
Proof.
  apply (read_off_filled D n D_len D_rows D_sym D_low).
Qed.

(** Every shell list, written out. *)
Lemma level_sets_shells :
  is_square a = true ->
  exists sets,
    level_sets a K = inr sets
    /\ length sets = n
    /\ forall i, i < n ->
         nth i sets []
         = map (fun s => filter (fun x => slot D i x =? s) (order n i))
             (seq 0 (nshells D i)).
Proof.
  intros Hsq. unfold level_sets. rewrite Hsq. simpl negb. cbv iota.
  destruct ((shape0 a =? 0) || (shape1 a =? 0)) eqn:E.
  - assert (Hn : n = 0).
    { apply orb_true_iff in E as [E|E]; apply Nat.eqb_eq in E; [exact E|].
      unfold n, shape0, shape1, is_square in *.
      destruct a as [|row rest]; [reflexivity|]. simpl in *.
      apply andb_true_iff in Hsq as [Hsq _]. apply Nat.eqb_eq in Hsq.
      unfold shape0 in Hsq. simpl in Hsq. lia. }
    exists []. split; [reflexivity|]. split; [simpl; lia|]. intros i Hi. lia.
  - destruct D_filled as (sets & Hr & Hl & Hf). fold D. rewrite Hr.
    exists sets. split; [reflexivity|]. split; [exact Hl|].
    intros i Hi. destruct (Hf i Hi) as [Hli Hsi].
    apply (nth_ext _ _ [] []).
    + now rewrite length_map, length_seq.
    + intros s Hs. rewrite Hli in Hs. rewrite Hsi.
      symmetry. apply (nth_map_seq (fun s => filter (fun x => slot D i x =? s) (order n i))).
      exact Hs.
Qed.

Lemma D_slot_lt i x : i < n -> x < n -> slot D i x < nshells D i.
Proof. apply (slot_lt D n D_len D_rows D_sym D_low). Qed.

Lemma D_slot i j :
  i < n -> j < n -> i <> j ->
  slot D i j = (if (at2 D i j <? 0)%Z then nshells D i - 1
                else Z.to_nat (at2 D i j)).
Proof.
  intros Hi Hj Hne. destruct (Nat.lt_trichotomy j i) as [Hlt|[Heq|Hgt]].
  - now destruct (slot_pair D n D_len D_rows D_sym D_low i j Hlt).
  - congruence.
  - destruct (slot_pair D n D_len D_rows D_sym D_low j i Hgt) as [_ ->].
    now rewrite (D_sym j i).
Qed.

Lemma D_at_max i j : i < n -> j < n -> (at2 D i j + 2 <= Z.of_nat (nshells D i))%Z.
Proof.
  intros Hi Hj. unfold nshells.
  pose proof (at2_le_max D n D_len D_rows D_sym D_low i j Hi Hj).
  pose proof (D_low i j Hi Hj). lia.
Qed.

Section Shells.
Variable sets : list (list (list nat)).
Hypothesis Hsets :
  forall i, i < n ->
    nth i sets []
    = map (fun s => filter (fun x => slot D i x =? s) (order n i))
        (seq 0 (nshells D i)).

Lemma shells_length i : i < n -> length (nth i sets []) = nshells D i.
Proof. intros Hi. now rewrite Hsets, length_map, length_seq. Qed.

Lemma shell_In i s x :
  i < n -> In x (nth s (nth i sets []) []) <-> x < n /\ slot D i x = s.
Proof.
  intros Hi. rewrite Hsets by exact Hi.
  destruct (Nat.lt_ge_cases s (nshells D i)) as [Hlt|Hge].
  - rewrite (nth_map_seq (fun s => filter (fun x => slot D i x =? s) (order n i)))
      by exact Hlt.
    rewrite filter_In, order_In, Nat.eqb_eq by exact Hi. reflexivity.
  - rewrite nth_overflow by (now rewrite length_map, length_seq).
    split; [intros []|]. intros [Hx Hs].
    pose proof (D_slot_lt i x Hi Hx). lia.
Qed.

Lemma shells_perm i : i < n -> Permutation (concat (nth i sets [])) (seq 0 n).
Proof.
  intros Hi. rewrite Hsets by exact Hi.
  rewrite (concat_filters (slot D i)), filter_all.
  - now apply order_perm.
  - intros x Hx. apply Nat.ltb_lt, D_slot_lt; [exact Hi|].
    now apply (order_In n i x Hi).
Qed.

(** A shell below the last one holds the nodes at exactly that many hops
    (and no more than [K]). *)
Lemma finite_shell i j d :
  i < n -> j < n -> i <> j ->
  d < length (nth i sets []) - 1 /\ In j (nth d (nth i sets []) [])
  <-> hops a i j = Some d /\ (forall k, K = Some k -> (Z.of_nat d <= k)%Z).
Proof.
  intros Hi Hj Hne. rewrite shells_length, shell_In, D_slot by assumption.
  pose proof (D_at_max i j Hi Hj) as Hmax. rewrite D_at in * by assumption.
  destruct (DistanceFacts.cap_spec K (hops a i j)) as [(h & Eh & Hk & Ev)|[Hfar Ev]];
    rewrite Ev in *.
  - rewrite Eh. replace (Z.of_nat h <? 0)%Z with false
      by (symmetry; apply Z.ltb_ge; lia).
    rewrite Nat2Z.id. split.
    + intros (Hd & _ & <-). split; [reflexivity|exact Hk].
    + intros [[= <-] _]. repeat split; auto; lia.
  - simpl. split; [intros (Hd & _ & E); lia|].
    intros [Eh Hk]. destruct Hfar as [E|(k & h & EK & E & Hlt)];
      rewrite E in Eh; [discriminate|].
    injection Eh as ->. specialize (Hk k EK). lia.
Qed.

(** An unreachable pair, or one farther apart than [K], meets in the
    last shell. *)
Lemma overflow_shell i j :
  i < n -> j < n -> i <> j ->
  hops a i j = None
  \/ (exists k h, K = Some k /\ hops a i j = Some h /\ (k < Z.of_nat h)%Z) ->
  In j (nth (length (nth i sets []) - 1) (nth i sets []) []).
Proof.
  intros Hi Hj Hne Hfar. rewrite shells_length, shell_In, D_slot by assumption.
  split; [exact Hj|]. rewrite D_at by assumption.
  assert (Ev : cap K (to_int (hops a i j)) = (-1)%Z).
  { destruct (DistanceFacts.cap_spec K (hops a i j))
      as [(h & Eh & Hk & _)|[_ Ev]]; [exfalso|exact Ev].
    destruct Hfar as [E|(k & h' & EK & E & Hlt)]; rewrite E in Eh;
      [discriminate|].
    injection Eh as ->. specialize (Hk k EK). lia. }
  rewrite Ev. reflexivity.
Qed.
(** When every entry of row [i] is a genuine distance, the last shell of
    node [i] receives nothing. *)
Lemma last_shell_empty i :
  i < n -> (forall j, j < n -> (0 <= at2 D i j)%Z) ->
  2 <= length (nth i sets [])
  /\ nth (length (nth i sets []) - 1) (nth i sets []) [] = [].
Proof.
  intros Hi Hfin. rewrite shells_length by exact Hi.
  pose proof (D_at_max i i Hi Hi) as Hii. pose proof (Hfin i Hi) as H0.
  split; [lia|].
  destruct (nth (nshells D i - 1) (nth i sets []) []) as [|x l] eqn:E;
    [reflexivity|exfalso].
  assert (Hin : In x (nth (nshells D i - 1) (nth i sets []) []))
    by (rewrite E; now left).
  apply shell_In in Hin as [Hx Hs]; [|exact Hi].
  destruct (Nat.eq_dec i x) as [<-|Hne].
  - unfold slot in Hs. rewrite Nat.eqb_refl in Hs. lia.
  - rewrite D_slot in Hs by assumption.
    pose proof (D_at_max i x Hi Hx). pose proof (Hfin x Hx).
    replace (at2 D i x <? 0)%Z with false in Hs
      by (symmetry; apply Z.ltb_ge; assumption).
    lia.
Qed.

End Shells.

End Matrix.

End LevelSetFacts.

(** ** Claims about the level sets *)

(** C1: the shell list of a node always ends with an overflow shell.  When
    every node is within finite range of node [i] (and within [K]), that
    last shell is present and empty.  For the path 0-1-2-3-4 with
    [K = None] the shell list of node 2 is [[2], [1, 3], [0, 4], []]; the
    constructor of the graph then hands the empty shell to the sampler as a
    partition, and the sampler's own assertion rejects it. *)
Theorem level_sets_overflow_fabricated :
  (forall a K,
     LevelSets.is_square a = true ->
     exists sets,
       LevelSets.level_sets a K = inr sets
       /\ forall i, i < LevelSets.shape0 a ->
            (forall j, j < LevelSets.shape0 a ->
               exists h, LevelSets.hops a i j = Some h
                         /\ forall k, K = Some k -> (Z.of_nat h <= k)%Z) ->
            2 <= length (nth i sets [])
            /\ nth (length (nth i sets []) - 1) (nth i sets []) [] = [])
  /\ exists sets,
       LevelSets.level_sets Samples.path5 None = inr sets
       /\ nth 2 sets [] = [[2]; [1; 3]; [0; 4]; []]
       /\ forall x z, Graph.init Samples.path5 x z None = inl AssertionError.
Proof.
  split.
  - intros a K Hsq.
    destruct (LevelSetFacts.level_sets_shells a K Hsq) as (sets & Hls & _ & Hsh).
    exists sets. split; [exact Hls|]. intros i Hi Hnear.
    apply (LevelSetFacts.last_shell_empty a K sets Hsh i Hi).
    intros j Hj. destruct (Hnear j Hj) as (h & Eh & Hk).
    rewrite LevelSetFacts.D_at, Eh by assumption.
    unfold LevelSets.cap, LevelSets.to_int. destruct K as [k|]; [|lia].
    specialize (Hk k eq_refl).
    replace (k <? Z.of_nat h)%Z with false by (symmetry; apply Z.ltb_ge; exact Hk).
    lia.
  - eexists. split; [vm_compute; reflexivity|]. split; [reflexivity|].
    intros x z. reflexivity.
Qed.

(** C5: the shells of every node are pairwise disjoint and cover the node
    set: flattened they are a rearrangement of [0 .. n-1], their sizes add up
    to [n], and every node lies in exactly one shell. *)
Theorem level_sets_partition a K :
  LevelSets.is_square a = true ->
  exists sets,
    LevelSets.level_sets a K = inr sets
    /\ length sets = LevelSets.shape0 a
    /\ forall i, i < LevelSets.shape0 a ->
         let sh := nth i sets [] in
         Permutation (concat sh) (seq 0 (LevelSets.shape0 a))
         /\ NoDup (concat sh)
         /\ sum (map (@length nat) sh) = LevelSets.shape0 a
         /\ (forall s s' x, In x (nth s sh []) -> In x (nth s' sh []) -> s = s')
         /\ (forall x, x < LevelSets.shape0 a ->
               exists s, s < length sh /\ In x (nth s sh [])).
Proof.
  intros Hsq.
  destruct (LevelSetFacts.level_sets_shells a K Hsq) as (sets & Hls & Hlen & Hsh).
  exists sets. split; [exact Hls|]. split; [exact Hlen|].
  intros i Hi sh.
  pose proof (LevelSetFacts.shells_perm a K sets Hsh i Hi) as Hperm. fold sh in Hperm.
  split; [exact Hperm|].
  split; [apply (Permutation_NoDup (Permutation_sym Hperm)), seq_NoDup|].
  split.
  - apply Permutation_length in Hperm. rewrite length_seq in Hperm.
    rewrite <- Hperm, length_concat. reflexivity.
  - split.
    + intros s s' x Hs Hs'.
      apply (LevelSetFacts.shell_In a K sets Hsh i s x Hi) in Hs as [_ <-].
      apply (LevelSetFacts.shell_In a K sets Hsh i s' x Hi) in Hs' as [_ <-].
      reflexivity.
    + intros x Hx. exists (LevelSets.slot (LevelSets.distance_matrix a K) i x).
      split.
      * unfold sh. rewrite (LevelSetFacts.shells_length a K sets Hsh i Hi).
        now apply LevelSetFacts.D_slot_lt.
      * apply (LevelSetFacts.shell_In a K sets Hsh i _ x Hi). auto.
Qed.

Lemma level_sets_partition_witness :
  exists sets,
    LevelSets.level_sets Samples.two_edges None = inr sets
    /\ Permutation (concat (nth 0 sets [])) (seq 0 4).
Proof.
  destruct (level_sets_partition Samples.two_edges None eq_refl)
    as (sets & Hls & _ & H).
  exists sets. split; [exact Hls|].
  apply (H 0). simpl. lia.
Defined.

(** C6: for distinct nodes [i] and [j], [j] lies in a shell [d] of [i] below
    the overflow shell exactly when [i] lies in shell [d] of [j] below its
    overflow shell, which is exactly when the two are [d] hops apart (and
    [d] is at most [K]); a pair that is unreachable or farther apart than
    [K] has each node in the other's last shell. *)
Theorem level_sets_symmetric a K :
  LevelSets.is_square a = true ->
  exists sets,
    LevelSets.level_sets a K = inr sets
    /\ forall i j, i < LevelSets.shape0 a -> j < LevelSets.shape0 a -> i <> j ->
         let si := nth i sets [] in
         let sj := nth j sets [] in
         (forall d, d < length si - 1 /\ In j (nth d si [])
                    <-> d < length sj - 1 /\ In i (nth d sj []))
         /\ (forall d, d < length si - 1 /\ In j (nth d si [])
                       <-> LevelSets.hops a i j = Some d
                           /\ (forall k, K = Some k -> (Z.of_nat d <= k)%Z))
         /\ (LevelSets.hops a i j = None
             \/ (exists k h, K = Some k /\ LevelSets.hops a i j = Some h
                             /\ (k < Z.of_nat h)%Z) ->
             In j (nth (length si - 1) si []) /\ In i (nth (length sj - 1) sj [])).
Proof.
  intros Hsq.
  destruct (LevelSetFacts.level_sets_shells a K Hsq) as (sets & Hls & Hlen & Hsh).
  exists sets. split; [exact Hls|].
  intros i j Hi Hj Hne si sj. unfold si, sj.
  pose proof (LevelSetFacts.finite_shell a K sets Hsh i j) as Hij.
  pose proof (LevelSetFacts.finite_shell a K sets Hsh j i) as Hji.
  split; [|split].
  - intros d. rewrite (Hij d Hi Hj Hne), (Hji d Hj Hi (not_eq_sym Hne)).
    now rewrite DistanceFacts.hops_sym.
  - intros d. now apply Hij.
  - intros Hfar. split.
    + now apply (LevelSetFacts.overflow_shell a K sets Hsh i j).
    + apply (LevelSetFacts.overflow_shell a K sets Hsh j i); auto.
      rewrite DistanceFacts.hops_sym. exact Hfar.
Qed.

Lemma level_sets_symmetric_witness :
  exists sets,
    LevelSets.level_sets Samples.two_edges None = inr sets
    /\ (1 < length (nth 0 sets []) - 1 /\ In 1 (nth 1 (nth 0 sets []) [])
        <-> 1 < length (nth 1 sets []) - 1 /\ In 0 (nth 1 (nth 1 sets []) [])).
Proof.
  destruct (level_sets_symmetric Samples.two_edges None eq_refl) as (sets & Hls & H).
  exists sets. split; [exact Hls|].
  assert (H0 : 0 < 4) by lia. assert (H1 : 1 < 4) by lia.
  assert (Hne : 0 <> 1) by discriminate.
  exact (proj1 (H 0 1 H0 H1 Hne) 1).
Defined.

(** ** The attributed graph *)

Module GraphFacts.
Import LevelSets Graph.

Lemma traverse_inr {T U : Type} (f : T -> result U) l : forall ys,
  traverse f l = inr ys ->
  length ys = length l
  /\ forall t d d', t < length l -> f (nth t l d) = inr (nth t ys d').
Proof.
  induction l as [|x l IH]; simpl; intros ys H.
  - injection H as <-. split; [reflexivity|]. intros; simpl in *; lia.
  - destruct (f x) as [e|y] eqn:Ex; simpl in H; [discriminate|].
    destruct (traverse f l) as [e|ys'] eqn:El; simpl in H; [discriminate|].
    injection H as <-. destruct (IH ys' eq_refl) as [Hl Hn].
    split; [simpl; now rewrite Hl|].
    intros [|t] d d' Ht; simpl; [exact Ex|]. apply Hn. simpl in Ht. lia.
Qed.

Lemma traverse_map {T U : Type} (f : T -> result U) (h : T -> U) l :
  (forall x, In x l -> f x = inr (h x)) -> traverse f l = inr (map h l).
Proof.
  induction l as [|x l IH]; intros H; simpl; [reflexivity|].
  rewrite (H x) by (simpl; auto). simpl.
  rewrite IH by (intros; apply H; simpl; auto). reflexivity.
Qed.

Lemma lookup_inr {T : Type} (d : list T) key v dflt :
  lookup d key = inr v -> key < length d /\ nth key d dflt = v.
Proof.
  unfold lookup. destruct (nth_error d key) as [w|] eqn:E; [|discriminate].
  intros [= <-]. split; [apply nth_error_Some; congruence|].
  now apply nth_error_nth.
Qed.

Lemma lookup_lt {T : Type} (d : list T) key dflt :
  key < length d -> lookup d key = inr (nth key d dflt).
Proof.
  intros H. unfold lookup. destruct (nth_error d key) as [w|] eqn:E.
  - f_equal. symmetry. now apply nth_error_nth.
  - apply nth_error_None in E. lia.
Qed.

(** The level sets have one entry per node, or none at all. *)
Lemma level_sets_length a K sets :
  level_sets a K = inr sets -> length sets = shape0 a \/ sets = [].
Proof.
  unfold level_sets. destruct (_ || _); [intros [= <-]; now right|].
  destruct (negb (is_square a)); [discriminate|].
  destruct (LevelSetFacts.D_filled a K) as (sets' & -> & Hl & _).
  intros [= <-]. now left.
Qed.

Section Constructed.
Variable a : adjacency.
Variable x : list (list R).
Variable z : list R.
Variable K : option Z.
Variable g : AttributedGraph.
Hypothesis Hinit : init a x z K = inr g.

Lemma init_fields :
  A g = a
  /\ level_sets a K = inr (level_sets_ g)
  /\ level_counts g = map (map (@length nat)) (level_sets_ g)
  /\ traverse (fun i => Ni <- lookup (level_counts g) i ;; inr (loss_weight Ni))
       (seq 0 (shape0 a)) = inr (loss_weights g)
  /\ traverse (neighborhood (level_sets_ g)) (seq 0 (shape0 a))
     = inr (neighborhoods g).
Proof using Hinit.
  revert Hinit. unfold init.
  destruct (level_sets a K) as [e|sets]; simpl; [discriminate|].
  destruct (traverse _ _) as [e|w] eqn:Ew; simpl; [discriminate|].
  destruct (traverse (neighborhood sets) _) as [e|nb] eqn:En; simpl; [discriminate|].
  intros [= <-]. simpl. auto.
Qed.

Lemma g_A : A g = a.
Proof using Hinit. apply init_fields. Qed.

Lemma g_neighborhoods_length : length (neighborhoods g) = shape0 a.
Proof using Hinit.
  destruct init_fields as (_ & _ & _ & _ & H).
  apply traverse_inr in H as [H _]. now rewrite length_seq in H.
Qed.

Lemma g_neighborhood i :
  i < shape0 a ->
  neighborhood (level_sets_ g) i = inr (nth i (neighborhoods g) None).
Proof using Hinit.
  intros Hi. destruct init_fields as (_ & _ & _ & _ & H).
  apply traverse_inr in H as [_ H].
  specialize (H i 0 None). rewrite length_seq, seq_nth in H by exact Hi.
  now apply H.
Qed.

Lemma g_node_known i : i < shape0 a -> i < length (level_sets_ g).
Proof using Hinit.
  intros Hi. pose proof (g_neighborhood i Hi) as H. unfold neighborhood in H.
  destruct (lookup (level_sets_ g) i) as [e|ls] eqn:E; simpl in H; [discriminate|].
  now apply (lookup_inr _ _ _ []) in E.
Qed.

Lemma g_sets_length : shape0 a <> 0 -> length (level_sets_ g) = shape0 a.
Proof using Hinit.
  intros Hn. destruct init_fields as (_ & H & _).
  apply level_sets_length in H as [H|H]; [exact H|].
  pose proof (g_node_known 0 ltac:(lia)) as H0. rewrite H in H0. simpl in H0. lia.
Qed.

Lemma g_level_counts i :
  nth i (level_counts g) [] = map (@length nat) (nth i (level_sets_ g) []).
Proof using Hinit.
  destruct init_fields as (_ & _ & -> & _).
  apply (map_nth (map (@length nat)) (level_sets_ g) [] i).
Qed.

Lemma g_loss_weight i :
  i < shape0 a ->
  nth i (loss_weights g) 0%Q
  = loss_weight (map (@length nat) (nth i (level_sets_ g) [])).
Proof using Hinit.
  intros Hi. destruct init_fields as (_ & _ & _ & H & _).
  apply traverse_inr in H as [_ H].
  specialize (H i 0 0%Q). rewrite length_seq, seq_nth in H by exact Hi.
  specialize (H Hi). simpl in H.
  rewrite (lookup_lt _ _ []) in H.
  - simpl in H. injection H as <-. now rewrite g_level_counts.
  - destruct init_fields as (_ & _ & -> & _). rewrite length_map.
    now apply g_node_known.
Qed.

(** A node with at least three shells owns a sampler over its shells
    beyond the self shell; the other nodes own none. *)
Lemma g_sampler i :
  i < shape0 a ->
  (3 <= length (nth i (level_sets_ g) []) /\
   exists s, KPartite.init (tl (nth i (level_sets_ g) [])) = inr s
             /\ nth i (neighborhoods g) None = Some s)
  \/ (length (nth i (level_sets_ g) []) < 3
      /\ nth i (neighborhoods g) None = None).
Proof using Hinit.
  intros Hi. pose proof (g_neighborhood i Hi) as H. unfold neighborhood in H.
  rewrite (lookup_lt _ _ []) in H by now apply g_node_known.
  cbv beta iota delta [bind] in H. revert H.
  destruct (3 <=? length (nth i (level_sets_ g) [])) eqn:E.
  - apply Nat.leb_le in E. left. split; [exact E|]. revert H.
    destruct (KPartite.init _) as [e|s]; intros H; [discriminate|].
    exists s. split; [reflexivity|]. now injection H.
  - intros H. apply Nat.leb_gt in E. right. split; [exact E|]. now injection H.
Qed.

Lemma g_eligible :
  eligible_nodes g
  = inr (filter (fun i => 3 <=? length (nth i (level_sets_ g) []))
           (seq 0 (shape0 a))).
Proof using Hinit.
  unfold eligible_nodes, nodes. rewrite g_A.
  rewrite (traverse_map _
             (fun i => (i, 3 <=? length (nth i (level_sets_ g) [])))).
  - cbv beta iota delta [bind]. f_equal.
    induction (seq 0 (shape0 a)) as [|i l IH]; [reflexivity|].
    cbn [map filter snd].
    destruct (3 <=? length (nth i (level_sets_ g) [])); cbn [map fst];
      now rewrite IH.
  - intros i Hi. apply in_seq in Hi.
    rewrite (lookup_lt _ _ []).
    + cbv beta iota delta [bind]. now rewrite g_level_counts, length_map.
    + destruct init_fields as (_ & _ & -> & _). rewrite length_map.
      apply g_node_known. lia.
Qed.

Lemma g_eligible_In i :
  In i (filter (fun i => 3 <=? length (nth i (level_sets_ g) []))
          (seq 0 (shape0 a)))
  <-> i < shape0 a /\ 3 <= length (nth i (level_sets_ g) []).
Proof using Type.
  rewrite filter_In, in_seq, Nat.leb_le. lia.
Qed.

End Constructed.

End GraphFacts.

(** ** Claims about the attributed graph *)

Section GraphClaims.
Import LevelSets Graph GraphFacts.

Lemma nth_tl {T : Type} (l : list T) q d : nth q (tl l) d = nth (S q) l d.
Proof. destruct l; [now destruct q|reflexivity]. Qed.

Lemma tl_map {T U : Type} (f : T -> U) l : tl (map f l) = map f (tl l).
Proof. now destruct l. Qed.

Lemma tl_length {T : Type} (l : list T) : length (tl l) = length l - 1.
Proof. destruct l; simpl; lia. Qed.

(** The shells handed to a sampler are all non-empty. *)
Lemma sampler_shells_nonempty a x z K g i d :
  init a x z K = inr g -> i < shape0 a ->
  3 <= length (nth i (level_sets_ g) []) ->
  1 <= d -> d < length (nth i (level_sets_ g) []) ->
  nth d (nth i (level_sets_ g) []) [] <> [].
Proof.
  intros Hinit Hi H3 Hd1 Hd.
  destruct (g_sampler a x z K g Hinit i Hi) as [(_ & s & Hs & _)|[Hlt _]]; [|lia].
  destruct (KPartiteFacts.init_inr _ _ Hs) as (_ & Hne & _).
  specialize (Hne (d - 1)). rewrite tl_length, nth_tl in Hne.
  replace (S (d - 1)) with d in Hne by lia.
  intros E. rewrite E in Hne. simpl in Hne. lia.
Qed.

Lemma sample_two_neighbors_unfold a x z K g i size rs :
  init a x z K = inr g -> i < shape0 a ->
  sample_two_neighbors g i size rs
  = if length (nth i (level_sets_ g) []) <? 3
    then (inl (Exception_only_one_layer i), rs)
    else match nth i (neighborhoods g) None with
         | None => (inl AttributeError, rs)
         | Some s => let (jk, rs') := KPartite.sample_edges s size rs in
                     (inr jk, rs')
         end.
Proof.
  intros Hinit Hi. unfold sample_two_neighbors.
  rewrite (nth_error_nth' _ []) by now apply (g_node_known a x z K g Hinit).
  rewrite (nth_error_nth' _ None)
    by now rewrite (g_neighborhoods_length a x z K g Hinit).
  reflexivity.
Qed.
End GraphClaims.

(** C2, as the code has it: on every constructed graph, [eligible_nodes]
    holds exactly the nodes with at least three shells, that is the nodes
    with a non-empty shell that is neither the self shell nor the last one
    and a further non-empty shell beyond it, which may be the overflow
    shell; a node with exactly one shell between its self shell and its
    overflow shell is eligible, and its overflow shell is not empty. *)
Theorem eligible_nodes_shells a x z K g :
  Graph.init a x z K = inr g ->
  exists l,
    Graph.eligible_nodes g = inr l
    /\ forall i,
         let sh := nth i (Graph.level_sets_ g) [] in
         (In i l <-> i < LevelSets.shape0 a /\ 3 <= length sh)
         /\ (In i l <->
             i < LevelSets.shape0 a
             /\ exists d d', 1 <= d /\ d < d' /\ d' < length sh
                             /\ nth d sh [] <> [] /\ nth d' sh [] <> [])
         /\ (i < LevelSets.shape0 a -> length sh = 3 ->
             In i l /\ nth 1 sh [] <> [] /\ nth 2 sh [] <> []).
Proof.
  intros Hinit. eexists. split; [apply (GraphFacts.g_eligible a x z K g Hinit)|].
  intros i sh. rewrite GraphFacts.g_eligible_In. fold sh.
  split; [reflexivity|]. split.
  - split.
    + intros [Hi H3]. split; [exact Hi|]. exists 1, 2.
      repeat split; try lia;
        apply (sampler_shells_nonempty a x z K g i _ Hinit Hi); fold sh; lia.
    + intros (Hi & d & d' & H1 & H2 & H3 & _). split; [exact Hi|lia].
  - intros Hi H3. split; [split; [exact Hi|lia]|].
    split; apply (sampler_shells_nonempty a x z K g i _ Hinit Hi); fold sh; lia.
Qed.

Lemma eligible_nodes_shells_witness :
  exists g l,
    Graph.init Samples.two_edges [] [] None = inr g
    /\ Graph.eligible_nodes g = inr l
    /\ (In 0 l <-> 0 < 4 /\ 3 <= length (nth 0 (Graph.level_sets_ g) [])).
Proof.
  eexists.
  destruct (eligible_nodes_shells Samples.two_edges [] [] None _ eq_refl)
    as (l & Hl & H).
  exists l. split; [reflexivity|]. split; [exact Hl|].
  exact (proj1 (H 0)).
Defined.

(** C2 as stated fails: in the graph of two disjoint edges every other node
    that node 0 can reach is a first-degree neighbour, and node 0 is
    eligible. *)
Lemma eligible_nodes_first_degree_counterexample :
  ~ (forall a x z K g i l,
       Graph.init a x z K = inr g ->
       i < LevelSets.shape0 a ->
       (forall j, j < LevelSets.shape0 a -> j <> i ->
          LevelSets.hops a i j = None \/ LevelSets.hops a i j = Some 1) ->
       Graph.eligible_nodes g = inr l ->
       ~ In i l).
Proof.
  intros H.
  assert (E : exists g, Graph.init Samples.two_edges [] [] None = inr g
                        /\ Graph.eligible_nodes g = inr [0; 1; 2; 3]).
  { eexists. split; reflexivity. }
  destruct E as (g & Hg & Hl).
  apply (H Samples.two_edges [] [] None g 0 [0; 1; 2; 3] Hg).
  - simpl. lia.
  - intros j Hj Hne. simpl in Hj.
    destruct j as [|[|[|[|j]]]]; try lia; vm_compute; auto.
  - exact Hl.
  - simpl. auto.
Qed.

(** C7: the loss weight stored for node [i] is half of the square of the sum
    of its shell sizes beyond the self shell minus the sum of their squares;
    for shell sizes [1, 3, 4] it is 12. *)
Theorem loss_weight_formula a x z K g i :
  Graph.init a x z K = inr g ->
  i < LevelSets.shape0 a ->
  let N := map Z.of_nat (map (@length nat) (nth i (Graph.level_sets_ g) [])) in
  (nth i (Graph.loss_weights g) 0
   == (1 # 2) * inject_Z (fold_right Z.add 0%Z (tl N) ^ 2
                          - fold_right Z.add 0%Z (map (fun c => c * c)%Z (tl N))))%Q
  /\ Qeq (Graph.loss_weight [1; 3; 4]) 12%Q.
Proof.
  intros Hinit Hi N. split; [|reflexivity].
  rewrite (GraphFacts.g_loss_weight a x z K g Hinit i Hi).
  unfold Graph.loss_weight, Graph.pair_count, N.
  rewrite !tl_map.
  rewrite (map_ext (fun c => c * c)%Z (fun c => c ^ 2)%Z) by (intros; lia).
  reflexivity.
Qed.

Lemma loss_weight_formula_witness :
  exists g,
    Graph.init Samples.two_edges [] [] None = inr g
    /\ (nth 0 (Graph.loss_weights g) 0 == 2)%Q.
Proof.
  eexists. split; [reflexivity|].
  assert (H0 : 0 < 4) by lia.
  destruct (loss_weight_formula Samples.two_edges [] [] None _ 0 eq_refl H0)
    as [H _].
  rewrite H. reflexivity.
Defined.

(** C8: on a constructed graph, [sample_two_neighbors] on one of its nodes
    raises exactly when the node has fewer than three shells, and when it
    raises the generator is left as it was. *)
Theorem sample_two_neighbors_raises a x z K g node size rs :
  Graph.init a x z K = inr g ->
  node < LevelSets.shape0 a ->
  (raises (fst (Graph.sample_two_neighbors g node size rs))
   <-> length (nth node (Graph.level_sets_ g) []) < 3)
  /\ (raises (fst (Graph.sample_two_neighbors g node size rs)) ->
      snd (Graph.sample_two_neighbors g node size rs) = rs).
Proof.
  intros Hinit Hnode.
  rewrite (sample_two_neighbors_unfold a x z K g node size rs Hinit Hnode).
  destruct (GraphFacts.g_sampler a x z K g Hinit node Hnode)
    as [(H3 & s & _ & ->)|[Hlt ->]].
  - replace (length (nth node (Graph.level_sets_ g) []) <? 3) with false
      by (symmetry; apply Nat.ltb_ge; exact H3).
    destruct (KPartite.sample_edges s size rs) as [jk rs']. simpl.
    split; [split; [intros []|lia]|intros []].
  - replace (length (nth node (Graph.level_sets_ g) []) <? 3) with true
      by (symmetry; apply Nat.ltb_lt; exact Hlt).
    simpl. split; [split; auto|reflexivity].
Qed.

Lemma sample_two_neighbors_raises_witness :
  exists g,
    Graph.init Samples.two_edges [] [] None = inr g
    /\ (raises (fst (Graph.sample_two_neighbors g 1 5 Samples.ramp))
        <-> length (nth 1 (Graph.level_sets_ g) []) < 3).
Proof.
  eexists. split; [reflexivity|].
  assert (H1 : 1 < 4) by lia.
  exact (proj1 (sample_two_neighbors_raises Samples.two_edges [] [] None _ 1 5
                  Samples.ramp eq_refl H1)).
Defined.

(** C10: on a constructed graph a node is eligible exactly when its entry of
    [neighborhoods] holds a sampler, and sampling at an eligible node runs
    the sampler built from its shells beyond the self shell. *)
Theorem eligible_iff_sampler a x z K g :
  Graph.init a x z K = inr g ->
  exists l,
    Graph.eligible_nodes g = inr l
    /\ (forall i, In i l <-> nth i (Graph.neighborhoods g) None <> None)
    /\ (forall i, In i l ->
          exists s,
            KPartite.init (tl (nth i (Graph.level_sets_ g) [])) = inr s
            /\ nth_error (Graph.neighborhoods g) i = Some (Some s)
            /\ forall size rs,
                 Graph.sample_two_neighbors g i size rs
                 = (inr (fst (KPartite.sample_edges s size rs)),
                    snd (KPartite.sample_edges s size rs))).
Proof.
  intros Hinit. eexists. split; [apply (GraphFacts.g_eligible a x z K g Hinit)|].
  split.
  - intros i. rewrite GraphFacts.g_eligible_In.
    destruct (Nat.lt_ge_cases i (LevelSets.shape0 a)) as [Hi|Hi].
    + destruct (GraphFacts.g_sampler a x z K g Hinit i Hi)
        as [(H3 & s & _ & ->)|[Hlt ->]].
      * split; [discriminate|auto].
      * split; [lia|congruence].
    + rewrite (nth_overflow (Graph.neighborhoods g) None)
        by now rewrite (GraphFacts.g_neighborhoods_length a x z K g Hinit).
      split; [lia|congruence].
  - intros i Hin. apply GraphFacts.g_eligible_In in Hin as [Hi H3].
    destruct (GraphFacts.g_sampler a x z K g Hinit i Hi)
      as [(_ & s & Hs & Hn)|[Hlt _]]; [|lia].
    exists s. split; [exact Hs|]. split.
    + rewrite (nth_error_nth' _ None)
        by now rewrite (GraphFacts.g_neighborhoods_length a x z K g Hinit).
      now rewrite Hn.
    + intros size rs.
      rewrite (sample_two_neighbors_unfold a x z K g i size rs Hinit Hi), Hn.
      replace (length (nth i (Graph.level_sets_ g) []) <? 3) with false
        by (symmetry; apply Nat.ltb_ge; exact H3).
      now destruct (KPartite.sample_edges s size rs).
Qed.

Lemma eligible_iff_sampler_witness :
  exists g l,
    Graph.init Samples.two_edges [] [] None = inr g
    /\ Graph.eligible_nodes g = inr l
    /\ (In 2 l <-> nth 2 (Graph.neighborhoods g) None <> None).
Proof.
  eexists.
  destruct (eligible_iff_sampler Samples.two_edges [] [] None _ eq_refl)
    as (l & Hl & H & _).
  exists l. split; [reflexivity|]. split; [exact Hl|]. exact (H 2).
Defined.

(** ** The loss *)

Module LossFacts.
Import Loss.

Lemma div_self_ones (s : list R) :
  Forall (fun v => 0 < v)%R s -> zipWith Rdiv s s = map (fun _ => 1%R) s.
Proof.
  induction 1 as [|v s Hv _ IH]; simpl; [reflexivity|].
  rewrite IH. f_equal. field. lra.
Qed.

Lemma rsum_ones {T : Type} (s : list T) : rsum (map (fun _ => 1%R) s) = INR (length s).
Proof.
  induction s as [|v s IH]; [reflexivity|].
  change (length (v :: s)) with (S (length s)). rewrite S_INR.
  simpl. rewrite IH. lra.
Qed.

Lemma rsum_log_ones {T : Type} (s : list T) :
  rsum (map ln (map (fun _ => 1%R) s)) = 0%R.
Proof.
  induction s as [|v s IH]; simpl; [reflexivity|]. rewrite IH, ln_1. lra.
Qed.

Lemma rsum_sq_diff_self (m s : list R) :
  rsum (zipWith Rdiv (map (fun v => v * v)%R (zipWith Rminus m m)) s) = 0%R.
Proof.
  revert s; induction m as [|v m IH]; intros [|u s]; simpl; try reflexivity.
  rewrite IH. unfold Rdiv. replace (v - v)%R with 0%R by lra. lra.
Qed.

Lemma map_nth_lt {T U : Type} (f : T -> U) l t d d' :
  t < length l -> nth t (map f l) d' = f (nth t l d).
Proof.
  intros Ht. rewrite (nth_indep _ d' (f d)) by (now rewrite length_map).
  apply map_nth.
Qed.

Lemma closer_energy_nth l mu_i sigma_i mu_j sigma_j t :
  t < length mu_i -> t < length sigma_i ->
  t < length mu_j -> t < length sigma_j ->
  nth t (closer_energy l mu_i sigma_i mu_j sigma_j) 0%R
  = closer_row l (nth t mu_i []) (nth t sigma_i []) (nth t mu_j []) (nth t sigma_j []).
Proof.
  intros H1 H2 H3 H4. unfold closer_energy, closer_row, sum_last, log_t, sq_t,
    div_t, sub_t, rows2.
  assert (Hd : t < length (zipWith (zipWith Rdiv) sigma_j sigma_i))
    by (rewrite zipWith_length; lia).
  assert (Hm : t < length (zipWith (zipWith Rminus) mu_i mu_j))
    by (rewrite zipWith_length; lia).
  rewrite (zipWith_nth _ _ _ t 0%R 0%R 0%R);
    [|rewrite zipWith_length, !length_map, !zipWith_length, length_map,
        zipWith_length; lia
     |rewrite !length_map, zipWith_length; lia].
  rewrite (zipWith_nth _ _ _ t 0%R 0%R 0%R);
    [|rewrite length_map, zipWith_length; lia
     |rewrite length_map, zipWith_length, length_map, zipWith_length; lia].
  rewrite !(map_nth_lt rsum _ t []);
    [|rewrite length_map; exact Hd
     |rewrite zipWith_length, length_map, zipWith_length; lia
     |exact Hd].
  rewrite (map_nth_lt (map ln) _ t []) by exact Hd.
  rewrite !(zipWith_nth _ _ _ t [] [] []);
    try assumption; [|rewrite length_map; exact Hm].
  rewrite (map_nth_lt (map (fun v => v * v)%R) _ t []) by exact Hm.
  rewrite (zipWith_nth _ _ _ t [] [] []) by assumption.
  reflexivity.
Qed.

Lemma closer_energy_lt l mu_i sigma_i mu_j sigma_j t :
  t < length mu_i -> t < length sigma_i ->
  t < length mu_j -> t < length sigma_j ->
  t < length (closer_energy l mu_i sigma_i mu_j sigma_j).
Proof.
  intros H1 H2 H3 H4. unfold closer_energy, sum_last, log_t, sq_t, div_t, sub_t, rows2.
  rewrite !zipWith_length, !length_map, !zipWith_length, length_map, zipWith_length.
  lia.
Qed.

(** Entry [t] of the closer energies exists and is the energy of row [t]. *)
Lemma closer_energy_entry l mu_i sigma_i mu_j sigma_j t :
  t < length mu_i -> t < length sigma_i ->
  t < length mu_j -> t < length sigma_j ->
  nth_error (closer_energy l mu_i sigma_i mu_j sigma_j) t
  = Some (closer_row l (nth t mu_i []) (nth t sigma_i [])
            (nth t mu_j []) (nth t sigma_j [])).
Proof.
  intros H1 H2 H3 H4.
  rewrite (nth_error_nth' _ 0%R) by now apply closer_energy_lt.
  f_equal. now apply closer_energy_nth.
Qed.

Lemma closer_row_same l m s :
  length s = l -> Forall (fun v => 0 < v)%R s -> closer_row l m s m s = 0%R.
Proof.
  intros Hl Hpos. unfold closer_row.
  rewrite (div_self_ones s Hpos), rsum_ones, rsum_log_ones, rsum_sq_diff_self, Hl.
  lra.
Qed.

End LossFacts.

(** C9: for a triplet of the batch whose closer neighbour has the same means
    and the same, positive, variances as its anchor, [compute_loss] computes
    a closer energy for that triplet, and it is 0. *)
Theorem closer_energy_identical enc x i j t :
  let mu := fst (Loss.forward enc x) in
  let sigma := snd (Loss.forward enc x) in
  let mu_i := Loss.gather_rows mu i in
  let sigma_i := Loss.gather_rows sigma i in
  let mu_j := Loss.gather_rows mu j in
  let sigma_j := Loss.gather_rows sigma j in
  t < length i -> t < length j ->
  nth t mu_j [] = nth t mu_i [] ->
  nth t sigma_j [] = nth t sigma_i [] ->
  length (nth t sigma_i []) = Loss.L enc ->
  Forall (fun v => 0 < v)%R (nth t sigma_i []) ->
  nth_error (Loss.closer_energy (Loss.L enc) mu_i sigma_i mu_j sigma_j) t
  = Some 0%R.
Proof.
  intros mu sigma mu_i sigma_i mu_j sigma_j Hi Hj Hmu Hsigma Hlen Hpos.
  rewrite LossFacts.closer_energy_entry
    by (unfold mu_i, sigma_i, mu_j, sigma_j, Loss.gather_rows;
        rewrite take_length; assumption).
  rewrite Hmu, Hsigma. f_equal. now apply LossFacts.closer_row_same.
Qed.

Lemma closer_energy_identical_witness :
  nth_error
    (Loss.closer_energy 2
       (Loss.gather_rows [[1; 2]; [3; 5]]%R [1])
       (Loss.gather_rows [[1; 4]; [2; 2]]%R [1])
       (Loss.gather_rows [[1; 2]; [3; 5]]%R [1])
       (Loss.gather_rows [[1; 4]; [2; 2]]%R [1])) 0
  = Some 0%R.
Proof.
  apply (closer_energy_identical Samples.fixed_encoder [] [1] [1] 0).
  - simpl. lia.
  - simpl. lia.
  - reflexivity.
  - reflexivity.
  - reflexivity.
  - simpl. repeat constructor; lra.
Defined.

(** * Further properties of the code *)

(** ** Hop distances, continued *)

Module HopFacts.
Import LevelSets DistanceFacts.

Lemma ball_mono a k i j : In j (ball a k i) -> In j (ball a (S k) i).
Proof. intros H. apply ball_step. now left. Qed.

Lemma ball_mono_le a k k' i j : k <= k' -> In j (ball a k i) -> In j (ball a k' i).
Proof.
  induction 1 as [|k' _ IH]; [auto|]. intros H. apply ball_mono. now apply IH.
Qed.

Lemma first_ball_some a i j : forall fuel k h,
  first_ball a i j k fuel = Some h
  <-> k <= h < k + fuel /\ In j (ball a h i)
      /\ forall k', k <= k' < h -> ~ In j (ball a k' i).
Proof.
  induction fuel as [|fuel IH]; intros k h; simpl.
  - split; [discriminate|]. intros [H _]. lia.
  - destruct (mem j (ball a k i)) eqn:E.
    + apply mem_In in E. split.
      * intros [= <-]. split; [lia|]. split; [exact E|]. intros k' Hk'. lia.
      * intros (Hk & Hin & Hmin). f_equal.
        destruct (Nat.eq_dec k h) as [|Hne]; [assumption|].
        exfalso. apply (Hmin k); [lia|exact E].
    + assert (Hnot : ~ In j (ball a k i))
        by (intros H; apply mem_In in H; congruence).
      rewrite IH. split.
      * intros (Hk & Hin & Hmin). split; [lia|]. split; [exact Hin|].
        intros k' Hk'. destruct (Nat.eq_dec k' k) as [->|Hne]; [exact Hnot|].
        apply Hmin. lia.
      * intros (Hk & Hin & Hmin).
        assert (k <> h) by (intros ->; contradiction).
        split; [lia|]. split; [exact Hin|]. intros k' Hk'. apply Hmin. lia.
Qed.

(** [hops a i j = Some h]: [j] is within [h] hops of [i] and not within
    fewer. *)
Lemma hops_some a i j h :
  hops a i j = Some h
  <-> h < shape0 a /\ In j (ball a h i) /\ forall k, k < h -> ~ In j (ball a k i).
Proof.
  unfold hops. rewrite first_ball_some. split.
  - intros (Hk & Hin & Hmin). repeat split; auto; try lia. intros k Hk'.
    apply Hmin. lia.
  - intros (Hk & Hin & Hmin). repeat split; auto; try lia. intros k Hk'.
    apply Hmin. lia.
Qed.

Lemma hops_self a i : 0 < shape0 a -> hops a i i = Some 0.
Proof.
  intros Hn. apply hops_some. split; [exact Hn|]. split; [now left|]. intros; lia.
Qed.

Lemma hops_zero a i j : hops a i j = Some 0 -> j = i.
Proof.
  intros H. apply hops_some in H as (_ & [H|[]] & _). now symmetry.
Qed.

Lemma linked_lt a i j : linked a i j = true -> i < shape0 a /\ j < shape0 a.
Proof.
  unfold linked. intros H. apply andb_true_iff in H as [H _].
  apply andb_true_iff in H as [H1 H2].
  apply Nat.ltb_lt in H1, H2. auto.
Qed.

(** One hop apart means linked and distinct. *)
Lemma hops_one a i j :
  hops a i j = Some 1 <-> i <> j /\ linked a i j = true.
Proof.
  rewrite hops_some. split.
  - intros (_ & Hin & Hmin).
    assert (Hne : i <> j) by (intros ->; apply (Hmin 0); [lia|now left]).
    split; [exact Hne|].
    apply ball_step in Hin as [[H|[]]|(m & [<-|[]] & Hl)]; [congruence|exact Hl].
  - intros [Hne Hl]. destruct (linked_lt a i j Hl) as [Hi Hj].
    split; [lia|]. split.
    + apply ball_step. right. exists i. split; [now left|exact Hl].
    + intros k Hk Hin. assert (k = 0) by lia. subst k.
      destruct Hin as [H|[]]. congruence.
Qed.

(** A node at [S h] hops has a linked node at [h] hops. *)
Lemma hops_pred a i j h :
  hops a i j = Some (S h) ->
  exists m, hops a i m = Some h /\ linked a m j = true.
Proof.
  intros H. apply hops_some in H as (Hn & Hin & Hmin).
  apply ball_step in Hin as [Hin|(m & Hm & Hl)];
    [exfalso; apply (Hmin h); [lia|exact Hin]|].
  exists m. split; [|exact Hl]. apply hops_some.
  split; [lia|]. split; [exact Hm|].
  intros k Hk Hmk. apply (Hmin (S k)); [lia|].
  apply ball_step. right. exists m. auto.
Qed.

(** Distances have no gaps: below a node at [h] hops there is a node at
    every smaller distance. *)
Lemma hops_below a i j h :
  i < shape0 a -> hops a i j = Some h ->
  forall d, d <= h -> exists m, m < shape0 a /\ hops a i m = Some d.
Proof.
  intros Hi. revert j. induction h as [|h IH]; intros j Hj d Hd.
  - assert (d = 0) by lia. subst d. exists i. split; [exact Hi|].
    apply hops_self. lia.
  - destruct (hops_pred a i j h Hj) as (m & Hm & Hl).
    destruct (Nat.eq_dec d (S h)) as [->|Hne].
    + exists j. split; [|exact Hj]. now destruct (linked_lt a m j Hl).
    + apply (IH m Hm). lia.
Qed.

End HopFacts.

(** ** The shells in terms of the graph *)

Module ShellFacts.
Import LevelSets DistanceFacts HopFacts LevelSetFacts.

(** [j] is at a finite hop distance from [i] that is at most [K]. *)
Definition in_range (a : adjacency) (K : option Z) (i j : nat) : Prop :=
  exists h, hops a i j = Some h /\ forall k, K = Some k -> (Z.of_nat h <= k)%Z.

Lemma singleton_list (l : list nat) i :
  NoDup l -> (forall x, In x l <-> x = i) -> l = [i].
Proof.
  intros Hnd H. destruct l as [|u l].
  - exfalso. apply (proj2 (H i) eq_refl).
  - assert (u = i) by (apply H; now left). subst u.
    destruct l as [|v l]; [reflexivity|exfalso].
    assert (v = i) by (apply H; right; now left). subst v.
    inversion Hnd as [|? ? Hn _]; subst. apply Hn. now left.
Qed.

Section OfMatrix.
Variable a : adjacency.
Variable K : option Z.
Variable sets : list (list (list nat)).
Hypothesis Hsq : is_square a = true.
Hypothesis Hls : level_sets a K = inr sets.

Let n := shape0 a.
Let D := distance_matrix a K.

Lemma sets_shells :
  forall i, i < n ->
    nth i sets []
    = map (fun s => filter (fun x => slot D i x =? s) (order n i))
        (seq 0 (nshells D i)).
Proof using Hsq Hls.
  destruct (level_sets_shells a K Hsq) as (sets' & Hls' & _ & H).
  rewrite Hls in Hls'. injection Hls' as <-. exact H.
Qed.

Lemma shell_NoDup i s : i < n -> NoDup (nth s (nth i sets []) []).
Proof using Hsq Hls.
  intros Hi. rewrite sets_shells by exact Hi.
  destruct (Nat.lt_ge_cases s (nshells D i)) as [Hlt|Hge].
  - rewrite (nth_map_seq (fun s => filter (fun x => slot D i x =? s) (order n i)))
      by exact Hlt.
    apply NoDup_filter.
    apply (Permutation_NoDup (Permutation_sym (order_perm n i Hi))), seq_NoDup.
  - rewrite nth_overflow by (now rewrite length_map, length_seq). constructor.
Qed.

Lemma in_range_at i j :
  i < n -> j < n -> in_range a K i j ->
  exists h, hops a i j = Some h /\ at2 D i j = Z.of_nat h.
Proof using Hsq Hls.
  intros Hi Hj (h & Eh & Hk). exists h. split; [exact Eh|].
  unfold D. rewrite distance_matrix_at, Eh by assumption.
  unfold cap, to_int. destruct K as [k|]; [|reflexivity].
  specialize (Hk k eq_refl).
  now replace (k <? Z.of_nat h)%Z with false by (symmetry; apply Z.ltb_ge; exact Hk).
Qed.

Lemma at_in_range i j :
  i < n -> j < n -> (0 <= at2 D i j)%Z ->
  exists h, hops a i j = Some h /\ at2 D i j = Z.of_nat h /\ in_range a K i j.
Proof using Hsq Hls.
  intros Hi Hj H0. unfold D in *. rewrite distance_matrix_at in * by assumption.
  destruct (cap_spec K (hops a i j)) as [(h & Eh & Hk & Ev)|[_ Ev]];
    [|rewrite Ev in H0; lia].
  exists h. split; [exact Eh|]. split; [exact Ev|]. exists h. auto.
Qed.

(** The farthest node within range sits in the last shell but one. *)
Lemma farthest_in_range i :
  i < n ->
  exists j, j < n /\ at2 D i j = row_max (nth i D [])
            /\ (at2 D i j + 2 = Z.of_nat (length (nth i sets [])))%Z.
Proof using Hsq Hls.
  intros Hi.
  assert (Hrow : nth i D [] <> []).
  { intros E. pose proof (D_rows a K i Hi) as Hl. fold D in Hl.
    rewrite E in Hl. simpl in Hl. fold n in Hl. lia. }
  destruct (In_nth _ _ 0%Z (row_max_in _ Hrow)) as (j & Hj & Ej).
  pose proof (D_rows a K i Hi) as Hl. fold D n in Hl. rewrite Hl in Hj.
  exists j. split; [exact Hj|]. split; [exact Ej|].
  rewrite (shells_length a K sets sets_shells i Hi). fold D.
  unfold nshells. fold (at2 D i j) in Ej. rewrite <- Ej.
  pose proof (D_low a K i j Hi Hj). fold D in H. lia.
Qed.

(** A node has at least three shells exactly when some other node is within
    range. *)
Lemma three_shells_iff i :
  i < n ->
  3 <= length (nth i sets []) <-> exists j, j < n /\ j <> i /\ in_range a K i j.
Proof using Hsq Hls.
  intros Hi. split.
  - intros H3. destruct (farthest_in_range i Hi) as (j & Hj & _ & Hlen).
    destruct (at_in_range i j Hi Hj ltac:(lia)) as (h & Eh & Ev & Hr).
    exists j. split; [exact Hj|]. split; [|exact Hr].
    intros ->. rewrite hops_self in Eh by (fold n; lia). injection Eh as <-. lia.
  - intros (j & Hj & Hne & Hr).
    destruct (in_range_at i j Hi Hj Hr) as (h & Eh & Ev).
    assert (h <> 0) by (intros ->; apply hops_zero in Eh; congruence).
    pose proof (D_at_max a K i j Hi Hj) as Hmax. fold D in Hmax.
    rewrite (shells_length a K sets sets_shells i Hi). fold D. lia.
Qed.

(** The last shell of a node with a node within range is empty exactly when
    every node is within range. *)
Lemma last_shell_empty_iff i :
  i < n -> 3 <= length (nth i sets []) ->
  nth (length (nth i sets []) - 1) (nth i sets []) [] = []
  <-> forall j, j < n -> in_range a K i j.
Proof using Hsq Hls.
  intros Hi H3. split.
  - intros Hempty j Hj.
    destruct (Z_lt_le_dec (at2 D i j) 0) as [Hneg|Hpos];
      [|now destruct (at_in_range i j Hi Hj Hpos) as (_ & _ & _ & Hr)].
    exfalso.
    assert (Hne : i <> j).
    { intros <-.
      destruct (proj1 (three_shells_iff i Hi) H3) as (j' & Hj' & _ & (h & Eh & Hk)).
      unfold D in Hneg. rewrite distance_matrix_at, hops_self in Hneg
        by (try assumption; fold n; lia).
      unfold cap, to_int in Hneg. destruct K as [k|]; [|simpl in Hneg; lia].
      specialize (Hk k eq_refl).
      destruct (Z.ltb_spec k (Z.of_nat 0)); simpl in *; lia. }
    assert (Hin : In j (nth (length (nth i sets []) - 1) (nth i sets []) [])).
    { rewrite (shells_length a K sets sets_shells i Hi).
      apply (shell_In a K sets sets_shells i _ j Hi). split; [exact Hj|].
      rewrite (D_slot a K i j Hi Hj Hne). fold D.
      now replace (at2 D i j <? 0)%Z with true by (symmetry; apply Z.ltb_lt; exact Hneg). }
    rewrite Hempty in Hin. destruct Hin.
  - intros Hall.
    apply (last_shell_empty a K sets sets_shells i Hi).
    intros j Hj. destruct (in_range_at i j Hi Hj (Hall j Hj)) as (h & _ & Ev).
    fold D. lia.
Qed.

End OfMatrix.

End ShellFacts.

(** X1: when [K] is absent or non-negative, the first shell of every node is
    the node itself and nothing else, and the node has at least two
    shells. *)
Theorem level_sets_self_shell a K sets i :
  LevelSets.is_square a = true ->
  LevelSets.level_sets a K = inr sets ->
  (forall k, K = Some k -> (0 <= k)%Z) ->
  i < LevelSets.shape0 a ->
  nth 0 (nth i sets []) [] = [i] /\ 2 <= length (nth i sets []).
Proof.
  intros Hsq Hls HK Hi.
  pose proof (ShellFacts.sets_shells a K sets Hsq Hls) as Hsh.
  assert (Hii : LevelSets.at2 (LevelSets.distance_matrix a K) i i = 0%Z).
  { rewrite DistanceFacts.distance_matrix_at, HopFacts.hops_self by (assumption || lia).
    unfold LevelSets.cap, LevelSets.to_int. destruct K as [k|]; [|reflexivity].
    specialize (HK k eq_refl).
    now replace (k <? Z.of_nat 0)%Z with false by (symmetry; apply Z.ltb_ge; simpl; lia). }
  pose proof (LevelSetFacts.D_at_max a K i i Hi Hi) as Hmax.
  rewrite (LevelSetFacts.shells_length a K sets Hsh i Hi).
  split; [|lia].
  apply ShellFacts.singleton_list; [now apply (ShellFacts.shell_NoDup a K sets Hsq Hls)|].
  intros x. rewrite (LevelSetFacts.shell_In a K sets Hsh i 0 x Hi). split.
  - intros [Hx Hs]. destruct (Nat.eq_dec i x) as [|Hne]; [congruence|exfalso].
    rewrite (LevelSetFacts.D_slot a K i x Hi Hx Hne) in Hs.
    destruct (Z.ltb_spec (LevelSets.at2 (LevelSets.distance_matrix a K) i x) 0);
      [lia|].
    destruct (ShellFacts.at_in_range a K sets Hsq Hls i x Hi Hx H) as (h & Eh & Ev & _).
    assert (h = 0) by lia. subst h. apply HopFacts.hops_zero in Eh. congruence.
  - intros ->. split; [exact Hi|]. unfold LevelSets.slot. now rewrite Nat.eqb_refl.
Qed.

Lemma level_sets_self_shell_witness :
  exists sets,
    LevelSets.level_sets Samples.two_edges (Some 1%Z) = inr sets
    /\ nth 0 (nth 3 sets []) [] = [3].
Proof.
  eexists. split; [vm_compute; reflexivity|].
  refine (proj1 (level_sets_self_shell Samples.two_edges (Some 1%Z) _ 3
                   eq_refl eq_refl _ _)).
  - intros k [= <-]. lia.
  - simpl. lia.
Defined.

(** X2: for a node with at least three shells, shell 1 holds exactly the
    nodes linked to it by an entry of the adjacency matrix in either
    direction; and a node with such a link always has at least three shells
    when [K] is absent or at least 1. *)
Theorem level_sets_first_shell a K sets i j :
  LevelSets.is_square a = true ->
  LevelSets.level_sets a K = inr sets ->
  (forall k, K = Some k -> (1 <= k)%Z) ->
  i < LevelSets.shape0 a -> j < LevelSets.shape0 a -> i <> j ->
  (3 <= length (nth i sets []) /\ In j (nth 1 (nth i sets []) [])
   <-> LevelSets.linked a i j = true).
Proof.
  intros Hsq Hls HK Hi Hj Hne.
  pose proof (ShellFacts.sets_shells a K sets Hsq Hls) as Hsh.
  pose proof (LevelSetFacts.finite_shell a K sets Hsh i j 1 Hi Hj Hne) as H.
  rewrite HopFacts.hops_one in H. split.
  - intros [H3 Hin]. apply H. split; [lia|exact Hin].
  - intros Hl. destruct (proj2 H) as [H3 Hin]; [|split; [lia|exact Hin]].
    split; [auto|]. intros k Ek. specialize (HK k Ek). simpl. lia.
Qed.

Lemma level_sets_first_shell_witness :
  exists sets,
    LevelSets.level_sets Samples.path5 (Some 2%Z) = inr sets
    /\ (3 <= length (nth 1 sets []) /\ In 2 (nth 1 (nth 1 sets []) [])
        <-> LevelSets.linked Samples.path5 1 2 = true).
Proof.
  eexists. split; [vm_compute; reflexivity|].
  apply (level_sets_first_shell Samples.path5 (Some 2%Z) _ 1 2 eq_refl eq_refl).
  - intros k [= <-]. lia.
  - simpl. lia.
  - simpl. lia.
  - discriminate.
Defined.

Lemma shells_no_gaps a K sets i d :
  LevelSets.is_square a = true ->
  LevelSets.level_sets a K = inr sets ->
  i < LevelSets.shape0 a ->
  1 <= d -> d + 1 < length (nth i sets []) ->
  exists m, m < LevelSets.shape0 a /\ m <> i
            /\ In m (nth d (nth i sets []) [])
            /\ LevelSets.hops a i m = Some d.
Proof.
  intros Hsq Hls Hi Hd1 Hd.
  pose proof (ShellFacts.sets_shells a K sets Hsq Hls) as Hsh.
  destruct (ShellFacts.farthest_in_range a K sets Hsq Hls i Hi) as (j & Hj & _ & Hlen).
  destruct (ShellFacts.at_in_range a K sets Hsq Hls i j Hi Hj ltac:(lia))
    as (h & Eh & Ev & (h' & Eh' & Hk)).
  rewrite Eh in Eh'. injection Eh' as <-.
  destruct (HopFacts.hops_below a i j h Hi Eh d ltac:(lia)) as (m & Hm & Em).
  assert (Hne : i <> m).
  { intros <-. rewrite HopFacts.hops_self in Em by lia. injection Em as <-. lia. }
  exists m. split; [exact Hm|]. split; [auto|]. split; [|exact Em].
  apply (LevelSetFacts.finite_shell a K sets Hsh i m d Hi Hm Hne).
  split; [exact Em|]. intros k Ek. specialize (Hk k Ek). lia.
Qed.

(** X3: the shells of a node have no gaps: every shell between the self
    shell and the last shell is non-empty and holds a node at exactly that
    hop distance. *)
Theorem level_sets_no_gaps a K sets i d :
  LevelSets.is_square a = true ->
  LevelSets.level_sets a K = inr sets ->
  i < LevelSets.shape0 a ->
  1 <= d -> d + 1 < length (nth i sets []) ->
  exists m, m < LevelSets.shape0 a /\ m <> i
            /\ In m (nth d (nth i sets []) [])
            /\ LevelSets.hops a i m = Some d.
Proof. exact (shells_no_gaps a K sets i d). Qed.

Lemma level_sets_no_gaps_witness :
  exists sets,
    LevelSets.level_sets Samples.path5 None = inr sets
    /\ exists m, m < 5 /\ m <> 0 /\ In m (nth 3 (nth 0 sets []) [])
                 /\ LevelSets.hops Samples.path5 0 m = Some 3.
Proof.
  eexists. split; [vm_compute; reflexivity|].
  apply (level_sets_no_gaps Samples.path5 None _ 0 3 eq_refl eq_refl);
    simpl; lia.
Defined.

(** ** The sampler tables *)

Module TableFacts.
Import KPartite KPartiteFacts.

Lemma init_succeeds parts :
  2 <= length parts -> Forall (fun pt => pt <> []) parts ->
  exists g, init parts = inr g.
Proof.
  intros H2 Hne. unfold init.
  replace (2 <=? length parts) with true by (symmetry; now apply Nat.leb_le).
  replace (forallb (fun c => 0 <? c) (map (@length nat) parts)) with true.
  - simpl. eexists. reflexivity.
  - symmetry. apply forallb_forall. intros c Hc. apply in_map_iff in Hc as (pt & <- & Hpt).
    rewrite Forall_forall in Hne. specialize (Hne pt Hpt).
    apply Nat.ltb_lt. destruct pt; [congruence|simpl; lia].
Qed.

Lemma init_fails parts :
  length parts < 2 \/ In [] parts -> init parts = inl AssertionError.
Proof.
  intros H. unfold init.
  destruct (2 <=? length parts) eqn:E2; simpl; [|reflexivity].
  apply Nat.leb_le in E2. destruct H as [H|H]; [lia|].
  replace (forallb (fun c => 0 <? c) (map (@length nat) parts)) with false;
    [reflexivity|].
  symmetry. apply not_true_is_false. intros Hall.
  rewrite forallb_forall in Hall.
  specialize (Hall (length (@nil nat)) (in_map _ _ _ H)). discriminate.
Qed.

Lemma sum_repeat c m : sum (repeat c m) = c * m.
Proof. induction m as [|m IH]; simpl; [lia|]. rewrite IH. lia. Qed.

Lemma sum_n_i parts :
  sum (n_i_of parts (lens parts)) = sum (map (fun c => c * c) (lens parts)).
Proof.
  induction parts as [|pt ps IH]; [reflexivity|].
  rewrite n_i_of_cons, sum_app, sum_repeat, IH. reflexivity.
Qed.

Lemma sum_pointwise (l l' : list nat) T :
  length l = length l' ->
  (forall t, t < length l -> nth t l 0 + nth t l' 0 = T) ->
  sum l + sum l' = T * length l.
Proof.
  revert l'; induction l as [|x l IH]; intros [|y l'] Hlen H; simpl in *;
    try discriminate; [lia|].
  pose proof (H 0 ltac:(lia)) as H0. simpl in H0.
  assert (IH' : sum l + sum l' = T * length l)
    by (apply IH; [lia|intros t Ht; apply (H (S t)); lia]).
  rewrite Nat.mul_succ_r. lia.
Qed.

Section Constructed.
Variable parts : list (list nat).
Variable g : CompleteKPartiteGraph.
Hypothesis Hinit : init parts = inr g.

Lemma g_n_i_length : length (n_i g) = total g.
Proof using Hinit.
  rewrite (g_total parts g Hinit).
  destruct (init_inr _ _ Hinit) as (_ & _ & ->). simpl. apply n_i_of_length.
Qed.

Lemma g_start_i_length : length (start_i g) = total g.
Proof using Hinit.
  rewrite (g_total parts g Hinit).
  destruct (init_inr _ _ Hinit) as (_ & _ & ->). simpl. apply start_i_of_length.
Qed.

Lemma g_nodes_length : length (nodes g) = total g.
Proof using Hinit.
  rewrite (g_total parts g Hinit), (g_nodes parts g Hinit). apply concat_length.
Qed.

Lemma g_p_length : length (p g) = total g.
Proof using Hinit.
  rewrite <- (g_out_degrees_length parts g Hinit).
  destruct (init_inr _ _ Hinit) as (_ & _ & ->). simpl. apply length_map.
Qed.

(** The out-degrees add up to [total^2] minus the squares of the partition
    sizes: twice the number of edges of the complete multipartite graph. *)
Lemma g_degree_sum :
  sum (out_degrees g) + sum (map (fun c => c * c) (counts g)) = total g * total g.
Proof using Hinit.
  rewrite (g_counts parts g Hinit), <- sum_n_i.
  replace (n_i_of parts (lens parts)) with (n_i g)
    by (destruct (init_inr _ _ Hinit) as (_ & _ & ->); reflexivity).
  rewrite (sum_pointwise (out_degrees g) (n_i g) (total g)).
  - now rewrite (g_out_degrees_length parts g Hinit).
  - now rewrite (g_out_degrees_length parts g Hinit), g_n_i_length.
  - intros t Ht. rewrite (g_out_degrees_length parts g Hinit) in Ht.
    rewrite (g_out_degree parts g Hinit t Ht), (g_n parts g Hinit t Ht).
    destruct (g_block parts g Hinit t Ht) as [_ Hb]. lia.
Qed.

End Constructed.



End TableFacts.

(** X4: the constructor of the sampler raises [AssertionError] when it gets
    fewer than two partitions or an empty partition, and succeeds otherwise;
    on success every per-node table has one entry per node and every
    out-degree lies between 1 and [total - 1]. *)
Theorem kpartite_init_total parts :
  (length parts < 2 \/ In [] parts -> KPartite.init parts = inl AssertionError)
  /\ (2 <= length parts -> Forall (fun pt => pt <> []) parts ->
      exists g, KPartite.init parts = inr g)
  /\ (forall g, KPartite.init parts = inr g ->
        2 <= length parts /\ Forall (fun pt => pt <> []) parts
        /\ KPartite.total g = length (concat parts)
        /\ length (KPartite.nodes g) = KPartite.total g
        /\ length (KPartite.n_i g) = KPartite.total g
        /\ length (KPartite.start_i g) = KPartite.total g
        /\ length (KPartite.out_degrees g) = KPartite.total g
        /\ length (KPartite.p g) = KPartite.total g
        /\ forall j, j < KPartite.total g ->
             1 <= nth j (KPartite.out_degrees g) 0 < KPartite.total g).
Proof.
  split; [apply TableFacts.init_fails|]. split; [apply TableFacts.init_succeeds|].
  intros g Hg.
  split; [apply (KPartiteFacts.g_two_parts parts g Hg)|].
  split.
  { apply Forall_forall. intros pt Hpt E. subst pt.
    pose proof (TableFacts.init_fails parts (or_intror Hpt)). congruence. }
  split; [rewrite KPartiteFacts.concat_length; apply (KPartiteFacts.g_total parts g Hg)|].
  split; [apply (TableFacts.g_nodes_length parts g Hg)|].
  split; [apply (TableFacts.g_n_i_length parts g Hg)|].
  split; [apply (TableFacts.g_start_i_length parts g Hg)|].
  split; [apply (KPartiteFacts.g_out_degrees_length parts g Hg)|].
  split; [apply (TableFacts.g_p_length parts g Hg)|].
  intros j Hj. pose proof (KPartiteFacts.g_out_degree_pos parts g Hg j Hj).
  rewrite (KPartiteFacts.g_out_degree parts g Hg j Hj) in *.
  pose proof (KPartiteFacts.g_part_lt parts g Hg j Hj) as Hq.
  pose proof (KPartiteFacts.g_parts_nonempty parts g Hg _ Hq). lia.
Qed.

Lemma kpartite_init_total_witness :
  KPartite.init [[1; 2]; []] = inl AssertionError
  /\ exists g, KPartite.init [[1; 2]; [3]] = inr g.
Proof.
  destruct (kpartite_init_total [[1; 2]; []]) as (Hfail & _).
  destruct (kpartite_init_total [[1; 2]; [3]]) as (_ & Hok & _).
  split.
  - apply Hfail. right. simpl. auto.
  - apply Hok; [simpl; lia|]. repeat constructor; discriminate.
Defined.



(** ** The attributed graph, continued *)

Module GraphMore.
Import LevelSets Graph GraphFacts.

Lemma traverse_all_ok {T U : Type} (f : T -> result U) l :
  (forall x, In x l -> exists y, f x = inr y) -> exists ys, traverse f l = inr ys.
Proof.
  induction l as [|x l IH]; intros H; simpl; [eexists; reflexivity|].
  destruct (H x (or_introl eq_refl)) as (y & ->). simpl.
  destruct IH as (ys & ->); [intros; apply H; now right|]. simpl.
  eexists; reflexivity.
Qed.

Lemma traverse_fail {T U : Type} (f : T -> result U) l e :
  (forall x, In x l -> (exists y, f x = inr y) \/ f x = inl e) ->
  (exists x, In x l /\ f x = inl e) ->
  traverse f l = inl e.
Proof.
  induction l as [|x l IH]; intros Hall (x0 & Hin & Hx0); [destruct Hin|]. simpl.
  destruct (Hall x (or_introl eq_refl)) as [(y & Ey)| ->]; [|reflexivity].
  rewrite Ey. simpl.
  rewrite IH; [reflexivity|intros; apply Hall; now right|].
  destruct Hin as [->|Hin]; [congruence|]. exists x0. auto.
Qed.

Lemma sum_Z l : fold_right Z.add 0%Z (map Z.of_nat l) = Z.of_nat (sum l).
Proof. induction l as [|c l IH]; simpl; [reflexivity|]. rewrite IH. lia. Qed.

Lemma sum_sq_Z l :
  fold_right Z.add 0%Z (map (fun c => c ^ 2)%Z (map Z.of_nat l))
  = Z.of_nat (sum (map (fun c => c * c) l)).
Proof.
  induction l as [|c l IH]; [reflexivity|].
  cbn [map fold_right]. rewrite IH. unfold sum. cbn [fold_right]. nia.
Qed.

Lemma nth01_le_sum l : nth 0 l 0 + nth 1 l 0 <= sum l.
Proof. destruct l as [|u [|v l]]; simpl; lia. Qed.

Lemma seq_sorted_filter (f : nat -> bool) n : forall lo,
  StronglySorted lt (filter f (seq lo n)).
Proof.
  induction n as [|n IH]; intros lo; simpl; [constructor|].
  destruct (f lo); [|apply IH]. constructor; [apply IH|].
  apply Forall_forall. intros y Hy. apply filter_In in Hy as [Hy _].
  apply in_seq in Hy. lia.
Qed.

(** A constructed graph comes from a square matrix. *)
Lemma init_square a x z K g : init a x z K = inr g -> is_square a = true.
Proof.
  intros Hinit.
  destruct (init_fields a x z K g Hinit) as (_ & Hls & _).
  unfold level_sets in Hls.
  destruct ((shape0 a =? 0) || (shape1 a =? 0)) eqn:E.
  - injection Hls as Hs. destruct a as [|row rest]; [reflexivity|exfalso].
    pose proof (g_node_known _ x z K g Hinit 0 ltac:(simpl; lia)) as H.
    rewrite <- Hs in H. simpl in H. lia.
  - destruct (is_square a); [reflexivity|discriminate].
Qed.

(** The pair count of a shell list, through the tables of its sampler. *)
Lemma pair_count_degrees (sh : list (list nat)) s :
  KPartite.init (tl sh) = inr s ->
  pair_count (map (@length nat) sh) = Z.of_nat (sum (KPartite.out_degrees s)).
Proof.
  intros Hs. unfold pair_count. cbv zeta.
  assert (E : tl (map (@length nat) sh) = KPartite.lens (tl sh))
    by (now destruct sh).
  rewrite E, sum_Z, sum_sq_Z.
  pose proof (TableFacts.g_degree_sum (tl sh) s Hs) as H.
  rewrite (KPartiteFacts.g_counts _ _ Hs), (KPartiteFacts.g_total _ _ Hs) in H.
  nia.
Qed.

(** A sampler has at least two nodes. *)
Lemma sampler_two_nodes parts s : KPartite.init parts = inr s -> 2 <= KPartite.total s.
Proof.
  intros Hs. rewrite (KPartiteFacts.g_total parts s Hs).
  pose proof (KPartiteFacts.g_two_parts parts s Hs) as H2.
  pose proof (KPartiteFacts.g_parts_nonempty parts s Hs 0 ltac:(lia)) as H0.
  pose proof (KPartiteFacts.g_parts_nonempty parts s Hs 1 ltac:(lia)) as H1.
  pose proof (KPartiteFacts.offset_mono parts 2 (length parts) H2) as Hm.
  pose proof (KPartiteFacts.offset_total parts (length parts)) as Ht.
  rewrite (KPartiteFacts.offset_step parts 1), (KPartiteFacts.offset_step parts 0) in Hm
    by lia.
  lia.
Qed.

Lemma pair_count_short N : length N < 3 -> pair_count N = 0%Z.
Proof.
  intros H. destruct N as [|c0 [|c1 [|c2 r]]]; simpl in H; try lia;
    unfold pair_count; cbn [tl map fold_right]; lia.
Qed.

End GraphMore.

(** X6: on a constructed graph the loss weight of a node that owns a
    sampler is half the sum of the sampler's out-degrees, that is the number
    of edges between its shells, and it is at least 1; the loss weight of a
    node without a sampler is 0. *)
Theorem loss_weight_counts_edges a x z K g i :
  Graph.init a x z K = inr g ->
  i < LevelSets.shape0 a ->
  (forall s, nth i (Graph.neighborhoods g) None = Some s ->
     (nth i (Graph.loss_weights g) 0
      == (1 # 2) * inject_Z (Z.of_nat (sum (KPartite.out_degrees s))))%Q
     /\ (1 <= nth i (Graph.loss_weights g) 0)%Q)
  /\ (nth i (Graph.neighborhoods g) None = None ->
      (nth i (Graph.loss_weights g) 0 == 0)%Q).
Proof.
  intros Hinit Hi.
  rewrite (GraphFacts.g_loss_weight a x z K g Hinit i Hi). unfold Graph.loss_weight.
  destruct (GraphFacts.g_sampler a x z K g Hinit i Hi)
    as [(H3 & s & Hs & Hn)|[Hlt Hn]]; rewrite Hn.
  - split; [|discriminate]. intros s' [= <-].
    rewrite (GraphMore.pair_count_degrees _ s Hs). split; [reflexivity|].
    assert (H2 : 2 <= sum (KPartite.out_degrees s)).
    { pose proof (GraphMore.nth01_le_sum (KPartite.out_degrees s)).
      pose proof (GraphMore.sampler_two_nodes _ s Hs) as Ht.
      pose proof (KPartiteFacts.g_out_degree_pos _ s Hs 0 ltac:(lia)).
      pose proof (KPartiteFacts.g_out_degree_pos _ s Hs 1 ltac:(lia)). lia. }
    unfold Qle, Qmult, inject_Z. cbn [Qnum Qden]. lia.
  - split; [discriminate|]. intros _.
    rewrite GraphMore.pair_count_short by (now rewrite length_map).
    reflexivity.
Qed.

Lemma loss_weight_counts_edges_witness :
  exists g,
    Graph.init Samples.two_edges [] [] None = inr g
    /\ (1 <= nth 0 (Graph.loss_weights g) 0)%Q.
Proof.
  eexists. split; [reflexivity|].
  assert (H0 : 0 < 4) by lia.
  destruct (loss_weight_counts_edges Samples.two_edges [] [] None _ 0 eq_refl H0)
    as [H _].
  exact (proj2 (H _ eq_refl)).
Defined.

(** ** Which graphs can be constructed *)

Module ConstructFacts.
Import LevelSets Graph GraphFacts GraphMore.

Lemma kpartite_init_cases parts :
  (exists s, KPartite.init parts = inr s) \/ KPartite.init parts = inl AssertionError.
Proof.
  unfold KPartite.init. destruct (2 <=? length parts); simpl; [|now right].
  destruct (forallb _ _); simpl; [left; eexists; reflexivity|now right].
Qed.

Section OfMatrix.
Variable a : adjacency.
Variable attrs : list (list R).
Variable labels : list R.
Variable K : option Z.
Variable sets : list (list (list nat)).
Hypothesis Hsq : is_square a = true.
Hypothesis Hls : level_sets a K = inr sets.

Lemma sets_length : length sets = shape0 a.
Proof using Hsq Hls.
  destruct (LevelSetFacts.level_sets_shells a K Hsq) as (sets' & Hls' & Hl & _).
  rewrite Hls in Hls'. now injection Hls' as <-.
Qed.

Lemma weights_ok :
  exists w,
    traverse (fun i => Ni <- lookup (map (map (@length nat)) sets) i ;;
                       inr (loss_weight Ni)) (seq 0 (shape0 a)) = inr w.
Proof using Hsq Hls.
  apply traverse_all_ok. intros i Hi. apply in_seq in Hi.
  rewrite (lookup_lt _ _ []) by (rewrite length_map, sets_length; lia).
  eexists. reflexivity.
Qed.

Lemma neighborhood_cases i :
  i < shape0 a ->
  neighborhood sets i
  = if 3 <=? length (nth i sets [])
    then g <- KPartite.init (tl (nth i sets [])) ;; inr (Some g)
    else inr None.
Proof using Hsq Hls.
  intros Hi. unfold neighborhood.
  rewrite (lookup_lt _ _ []) by (rewrite sets_length; lia). reflexivity.
Qed.

(** The shells handed to the sampler of node [i] are non-empty exactly when
    the last one is. *)
Lemma tail_shells_nonempty i :
  i < shape0 a -> 3 <= length (nth i sets []) ->
  nth (length (nth i sets []) - 1) (nth i sets []) [] <> [] ->
  Forall (fun pt => pt <> []) (tl (nth i sets [])).
Proof using Hsq Hls.
  intros Hi H3 Hlast. apply Forall_forall. intros pt Hpt.
  destruct (In_nth _ _ [] Hpt) as (q & Hq & <-).
  rewrite tl_length in Hq. rewrite nth_tl.
  destruct (Nat.eq_dec (S q) (length (nth i sets []) - 1)) as [->|Hne];
    [exact Hlast|].
  destruct (shells_no_gaps a K sets i (S q) Hsq Hls Hi ltac:(lia) ltac:(lia))
    as (m & _ & _ & Hin & _).
  intros E. rewrite E in Hin. destruct Hin.
Qed.

Lemma init_unfold :
  init a attrs labels K
  = (w <- traverse (fun i => Ni <- lookup (map (map (@length nat)) sets) i ;;
                             inr (loss_weight Ni)) (seq 0 (shape0 a)) ;;
     nb <- traverse (neighborhood sets) (seq 0 (shape0 a)) ;;
     inr {| A := a; X := attrs; z := labels; level_sets_ := sets;
            level_counts := map (map (@length nat)) sets;
            loss_weights := w; neighborhoods := nb |}).
Proof using Hls.
  unfold init. rewrite Hls. reflexivity.
Qed.

Lemma init_ok :
  (forall i, i < shape0 a -> 3 <= length (nth i sets []) ->
     nth (length (nth i sets []) - 1) (nth i sets []) [] <> []) ->
  exists g, init a attrs labels K = inr g.
Proof using Hsq Hls.
  intros Hall. rewrite init_unfold.
  destruct weights_ok as (w & ->). simpl.
  destruct (traverse_all_ok (neighborhood sets) (seq 0 (shape0 a))) as (nb & ->).
  - intros i Hi. apply in_seq in Hi. rewrite neighborhood_cases by lia.
    destruct (Nat.leb_spec 3 (length (nth i sets []))) as [H3|_];
      [|eexists; reflexivity].
    destruct (TableFacts.init_succeeds (tl (nth i sets []))) as (s & ->).
    + rewrite tl_length. lia.
    + apply tail_shells_nonempty; [lia|exact H3|apply Hall; [lia|exact H3]].
    + eexists; reflexivity.
  - simpl. eexists; reflexivity.
Qed.

Lemma init_rejected i :
  i < shape0 a -> 3 <= length (nth i sets []) ->
  nth (length (nth i sets []) - 1) (nth i sets []) [] = [] ->
  init a attrs labels K = inl AssertionError.
Proof using Hsq Hls.
  intros Hi H3 Hlast. rewrite init_unfold.
  destruct weights_ok as (w & ->). simpl.
  rewrite (traverse_fail (neighborhood sets) (seq 0 (shape0 a)) AssertionError);
    [reflexivity| |].
  - intros j Hj. apply in_seq in Hj. rewrite neighborhood_cases by lia.
    destruct (3 <=? length (nth j sets [])); [|left; eexists; reflexivity].
    destruct (kpartite_init_cases (tl (nth j sets []))) as [(s & ->)| ->];
      [left; eexists; reflexivity|now right].
  - exists i. split; [apply in_seq; lia|].
    rewrite neighborhood_cases by exact Hi.
    replace (3 <=? length (nth i sets [])) with true
      by (symmetry; now apply Nat.leb_le).
    rewrite TableFacts.init_fails; [reflexivity|].
    right. rewrite <- Hlast.
    replace (nth (length (nth i sets []) - 1) (nth i sets []) [])
      with (nth (length (nth i sets []) - 2) (tl (nth i sets [])) [])
      by (rewrite nth_tl; f_equal; lia).
    apply nth_In. rewrite tl_length. lia.
Qed.

End OfMatrix.

End ConstructFacts.

(** X7: for a square adjacency matrix the graph is constructed exactly when
    no node has some other node within range and every node within range:
    if each node with another node within [K] hops also has a node that is
    unreachable or farther than [K], construction succeeds; if some node has
    another node in range and none out of range, construction raises
    [AssertionError]. *)
Theorem graph_init_constructible a x z K :
  LevelSets.is_square a = true ->
  ((forall i, i < LevelSets.shape0 a ->
      (exists j, j < LevelSets.shape0 a /\ j <> i /\ ShellFacts.in_range a K i j) ->
      exists j, j < LevelSets.shape0 a /\ ~ ShellFacts.in_range a K i j) ->
   exists g, Graph.init a x z K = inr g)
  /\ (forall i, i < LevelSets.shape0 a ->
        (exists j, j < LevelSets.shape0 a /\ j <> i /\ ShellFacts.in_range a K i j) ->
        (forall j, j < LevelSets.shape0 a -> ShellFacts.in_range a K i j) ->
        Graph.init a x z K = inl AssertionError).
Proof.
  intros Hsq.
  destruct (LevelSetFacts.level_sets_shells a K Hsq) as (sets & Hls & _ & _).
  split.
  - intros Hfar. apply (ConstructFacts.init_ok a x z K sets Hsq Hls).
    intros i Hi H3 Hempty.
    destruct (Hfar i Hi) as (j & Hj & Hout).
    + now apply (ShellFacts.three_shells_iff a K sets Hsq Hls i Hi).
    + apply Hout.
      now apply (proj1 (ShellFacts.last_shell_empty_iff a K sets Hsq Hls i Hi H3) Hempty).
  - intros i Hi Hnear Hall.
    assert (H3 : 3 <= length (nth i sets []))
      by now apply (ShellFacts.three_shells_iff a K sets Hsq Hls i Hi).
    apply (ConstructFacts.init_rejected a x z K sets Hsq Hls i Hi H3).
    now apply (ShellFacts.last_shell_empty_iff a K sets Hsq Hls i Hi H3).
Qed.

Lemma graph_init_constructible_witness :
  Graph.init Samples.path5 [] [] None = inl AssertionError.
Proof.
  destruct (graph_init_constructible Samples.path5 [] [] None eq_refl) as [_ H].
  assert (H0 : 0 < 5) by lia.
  apply (H 0 H0).
  - exists 1. split; [simpl; lia|]. split; [discriminate|].
    exists 1. split; [reflexivity|discriminate].
  - intros j Hj. simpl in Hj.
    destruct j as [|[|[|[|[|j]]]]]; [| | | | |lia];
      eexists; (split; [vm_compute; reflexivity|discriminate]).
Defined.

(** X8: on a constructed graph [eligible_nodes] lists, in increasing order
    and without repetition, exactly the nodes that have another node within
    range; when [K] is absent or at least 1 these are the nodes with at
    least one link. *)
Theorem eligible_nodes_in_graph a x z K g :
  Graph.init a x z K = inr g ->
  exists l,
    Graph.eligible_nodes g = inr l
    /\ StronglySorted lt l /\ NoDup l
    /\ (forall i, In i l <->
          i < LevelSets.shape0 a
          /\ exists j, j < LevelSets.shape0 a /\ j <> i
                       /\ ShellFacts.in_range a K i j)
    /\ ((forall k, K = Some k -> (1 <= k)%Z) ->
        forall i, In i l <-> exists j, j <> i /\ LevelSets.linked a i j = true).
Proof.
  intros Hinit.
  pose proof (GraphMore.init_square a x z K g Hinit) as Hsq.
  destruct (GraphFacts.init_fields a x z K g Hinit) as (_ & Hls & _).
  eexists. split; [apply (GraphFacts.g_eligible a x z K g Hinit)|].
  assert (Hchar : forall i,
            In i (filter (fun i => 3 <=? length (nth i (Graph.level_sets_ g) []))
                    (seq 0 (LevelSets.shape0 a)))
            <-> i < LevelSets.shape0 a
                /\ exists j, j < LevelSets.shape0 a /\ j <> i
                             /\ ShellFacts.in_range a K i j).
  { intros i. rewrite GraphFacts.g_eligible_In. split; intros [Hi H]; (split; [exact Hi|]);
      now apply (ShellFacts.three_shells_iff a K _ Hsq Hls i Hi). }
  split; [apply GraphMore.seq_sorted_filter|].
  split; [apply NoDup_filter, seq_NoDup|].
  split; [exact Hchar|].
  intros HK i. rewrite Hchar. split.
  - intros (Hi & j & Hj & Hne & (h & Eh & Hk)).
    assert (h <> 0) by (intros ->; apply HopFacts.hops_zero in Eh; congruence).
    destruct (HopFacts.hops_below a i j h Hi Eh 1 ltac:(lia)) as (m & _ & Em).
    apply HopFacts.hops_one in Em as [Hne' Hl]. exists m. auto.
  - intros (j & Hne & Hl). destruct (HopFacts.linked_lt a i j Hl) as [Hi Hj].
    split; [exact Hi|]. exists j. split; [exact Hj|]. split; [exact Hne|].
    exists 1. split; [apply HopFacts.hops_one; auto|].
    intros k Ek. specialize (HK k Ek). simpl. lia.
Qed.

Lemma eligible_nodes_in_graph_witness :
  exists g l,
    Graph.init Samples.two_edges [] [] (Some 1%Z) = inr g
    /\ Graph.eligible_nodes g = inr l /\ StronglySorted lt l.
Proof.
  eexists.
  destruct (eligible_nodes_in_graph Samples.two_edges [] [] (Some 1%Z) _ eq_refl)
    as (l & Hl & Hs & _).
  exists l. split; [reflexivity|]. split; [exact Hl|exact Hs].
Defined.

(** ** The dataset generator *)

Module DatasetFacts.
Import LevelSets Graph GraphFacts Dataset.

Lemma splice_length {T : Type} lo len (block t : list T) :
  length block = len -> lo + len <= length t ->
  length (firstn lo t ++ block ++ skipn (lo + len) t) = length t.
Proof.
  intros Hb H. rewrite !length_app, length_firstn, length_skipn. lia.
Qed.

Lemma splice_before {T : Type} lo len (block t : list T) u d :
  lo + len <= length t -> u < lo ->
  nth u (firstn lo t ++ block ++ skipn (lo + len) t) d = nth u t d.
Proof.
  intros H Hu. rewrite app_nth1 by (rewrite length_firstn; lia).
  rewrite <- (firstn_skipn lo t) at 2.
  rewrite app_nth1 by (rewrite length_firstn; lia). reflexivity.
Qed.

Lemma splice_inside {T : Type} lo len (block t : list T) u d :
  length block = len -> lo + len <= length t -> lo <= u < lo + len ->
  nth u (firstn lo t ++ block ++ skipn (lo + len) t) d = nth (u - lo) block d.
Proof.
  intros Hb H Hu. rewrite app_nth2 by (rewrite length_firstn; lia).
  rewrite length_firstn, Nat.min_l by lia.
  rewrite app_nth1 by lia. reflexivity.
Qed.

Lemma fill_slice_splice {T : Type} lo len (v : T) t :
  lo + len <= length t ->
  fill_slice lo (lo + len) v t
  = firstn lo t ++ repeat (Some v) len ++ skipn (lo + len) t.
Proof.
  intros H. unfold fill_slice, slice_lo, slice_hi.
  rewrite (Nat.min_l lo), (Nat.min_l (lo + len)), Nat.max_r by lia.
  replace (lo + len - lo) with len by lia. reflexivity.
Qed.

Lemma assign_slice_splice {T : Type} lo len (vals : list T) t :
  length vals = len -> lo + len <= length t ->
  assign_slice lo (lo + len) vals t
  = inr (firstn lo t ++ map Some vals ++ skipn (lo + len) t).
Proof.
  intros Hv H. unfold assign_slice, slice_lo, slice_hi.
  rewrite (Nat.min_l lo), (Nat.min_l (lo + len)), Nat.max_r by lia.
  replace (lo + len - lo) with len by lia.
  now rewrite Hv, Nat.eqb_refl.
Qed.

(** Every pair drawn by a sampler has its first node in an earlier
    partition than its second. *)
Lemma sampler_rows parts s size rs t :
  KPartite.init parts = inr s -> t < size ->
  length (fst (fst (KPartite.sample_edges s size rs))) = size
  /\ length (snd (fst (KPartite.sample_edges s size rs))) = size
  /\ exists a b, a < b /\ b < length parts
       /\ In (nth t (fst (fst (KPartite.sample_edges s size rs))) 0) (nth a parts [])
       /\ In (nth t (snd (fst (KPartite.sample_edges s size rs))) 0) (nth b parts []).
Proof.
  intros Hs Ht. rewrite KPartiteFacts.sample_edges_pointwise. simpl.
  rewrite !length_map, !length_seq. split; [reflexivity|]. split; [reflexivity|].
  rewrite !nth_map_seq by exact Ht.
  apply (sample_edge_ordered parts s _ _ Hs).
  - apply (KPartiteFacts.g_origin_lt parts s Hs).
  - apply (KPartiteFacts.g_rank_lt parts s Hs).
Qed.

Lemma sample_edges_lengths s size rs :
  length (fst (fst (KPartite.sample_edges s size rs))) = size
  /\ length (snd (fst (KPartite.sample_edges s size rs))) = size.
Proof.
  rewrite KPartiteFacts.sample_edges_pointwise. simpl.
  now rewrite !length_map, !length_seq.
Qed.

(** A loss weight is an integer over 2, as [float64] takes it. *)
Lemma loss_weight_den N : Qden (loss_weight N) = 2%positive.
Proof. reflexivity. Qed.

(** Row [t] of the buffers is a finished triplet of anchor [i]. *)
Definition row_ok (g : AttributedGraph) (b : buffers) (t i : nat) : Prop :=
  nth t (buf_i b) None = Some i
  /\ nth t (buf_w b) None = Some (to_float32 (float64 (nth i (loss_weights g) 0%Q)))
  /\ exists j k da db,
       nth t (buf_j b) None = Some j /\ nth t (buf_k b) None = Some k
       /\ 1 <= da /\ da < db /\ db < length (nth i (level_sets_ g) [])
       /\ In j (nth da (nth i (level_sets_ g) []) [])
       /\ In k (nth db (nth i (level_sets_ g) []) []).

Definition sized (nrows : nat) (b : buffers) : Prop :=
  length (buf_i b) = nrows /\ length (buf_j b) = nrows
  /\ length (buf_k b) = nrows /\ length (buf_w b) = nrows.

Definition same_prefix (m : nat) (b b' : buffers) : Prop :=
  forall t, t < m ->
    nth t (buf_i b') None = nth t (buf_i b) None
    /\ nth t (buf_j b') None = nth t (buf_j b) None
    /\ nth t (buf_k b') None = nth t (buf_k b) None
    /\ nth t (buf_w b') None = nth t (buf_w b) None.

Lemma row_ok_prefix g b b' m t i :
  same_prefix m b b' -> t < m -> row_ok g b t i -> row_ok g b' t i.
Proof.
  intros Hp Ht (Hi & Hw & j & k & da & db & Hj & Hk & H).
  destruct (Hp t Ht) as (Ei & Ej & Ek & Ew).
  split; [congruence|]. split; [congruence|].
  exists j, k, da, db. split; [congruence|]. split; [congruence|]. exact H.
Qed.

Section Constructed.
Variable a : adjacency.
Variable attrs : list (list R).
Variable labels : list R.
Variable K : option Z.
Variable g : AttributedGraph.
Hypothesis Hinit : init a attrs labels K = inr g.

Lemma g_loss_weights_length : length (loss_weights g) = shape0 a.
Proof using Hinit.
  destruct (init_fields a attrs labels K g Hinit) as (_ & _ & _ & H & _).
  apply traverse_inr in H as [H _]. now rewrite length_seq in H.
Qed.

Lemma row_step_ok ns nrows b index i rs :
  i < shape0 a -> 3 <= length (nth i (level_sets_ g) []) ->
  sized nrows b -> index * ns + ns <= nrows ->
  exists b' rs',
    row_step g ns b index i rs = (inr b', rs')
    /\ sized nrows b'
    /\ same_prefix (index * ns) b b'
    /\ forall t, index * ns <= t < index * ns + ns -> row_ok g b' t i.
Proof using Hinit.
  intros Hi H3 (Li & Lj & Lk & Lw) Hfit. unfold row_step. cbv zeta.
  rewrite (sample_two_neighbors_unfold a attrs labels K g i ns rs Hinit Hi).
  replace (length (nth i (level_sets_ g) []) <? 3) with false
    by (symmetry; apply Nat.ltb_ge; exact H3).
  destruct (g_sampler a attrs labels K g Hinit i Hi) as [(_ & s & Hs & ->)|[Hlt _]];
    [|lia].
  pose proof (sample_edges_lengths s ns rs) as [Ljs Lks].
  pose proof (fun t Ht => sampler_rows _ s ns rs t Hs Ht) as Hrows.
  destruct (KPartite.sample_edges s ns rs) as [[js ks] rs']. simpl in Ljs, Lks, Hrows.
  rewrite (assign_slice_splice _ ns js) by (assumption || lia).
  rewrite (assign_slice_splice _ ns ks) by (assumption || lia).
  rewrite (nth_error_nth' _ 0%Q) by (rewrite g_loss_weights_length; exact Hi).
  rewrite !fill_slice_splice by lia.
  eexists. exists rs'. split; [reflexivity|].
  split; [|split].
  - unfold sized. cbn [buf_i buf_j buf_k buf_w].
    rewrite !splice_length by (rewrite ?repeat_length, ?length_map; lia). auto.
  - intros t Ht. cbn [buf_i buf_j buf_k buf_w].
    rewrite !splice_before by lia. auto.
  - intros t Ht. unfold row_ok. cbn [buf_i buf_j buf_k buf_w].
    rewrite !splice_inside by (rewrite ?repeat_length, ?length_map; lia).
    rewrite !nth_repeat_lt by lia.
    split; [reflexivity|]. split; [reflexivity|].
    destruct (Hrows (t - index * ns) ltac:(lia)) as (_ & _ & ia & ib & Hab & Hb & Hja & Hkb).
    rewrite tl_length in Hb. rewrite !nth_tl in Hja, Hkb.
    exists (nth (t - index * ns) js 0), (nth (t - index * ns) ks 0), (S ia), (S ib).
    split; [apply (LossFacts.map_nth_lt Some); lia|].
    split; [apply (LossFacts.map_nth_lt Some); lia|].
    repeat split; auto; lia.
Qed.

Lemma rows_loop_ok ns nrows : forall rest m b rs,
  (forall i, In i rest ->
     i < shape0 a /\ 3 <= length (nth i (level_sets_ g) [])) ->
  sized nrows b -> (m + length rest) * ns = nrows ->
  exists b' rs',
    rows_loop g ns (combine (seq m (length rest)) rest) b rs = (inr b', rs')
    /\ sized nrows b'
    /\ same_prefix (m * ns) b b'
    /\ forall t, m * ns <= t < nrows -> row_ok g b' t (nth (t / ns - m) rest 0).
Proof using Hinit.
  induction rest as [|i rest IH]; intros m b rs Hel Hsz Hrows.
  - exists b, rs. simpl. split; [reflexivity|]. split; [exact Hsz|].
    split; [intros t Ht; auto|]. intros t Ht. simpl in Hrows. lia.
  - simpl length in *. simpl seq. simpl combine. simpl rows_loop.
    destruct (Hel i (or_introl eq_refl)) as [Hi H3].
    destruct (row_step_ok ns nrows b m i rs Hi H3 Hsz ltac:(nia))
      as (b1 & rs1 & -> & Hsz1 & Hp1 & Hblock).
    destruct (IH (S m) b1 rs1) as (b2 & rs2 & -> & Hsz2 & Hp2 & Hrest).
    + intros i' Hi'. apply Hel. now right.
    + exact Hsz1.
    + lia.
    + exists b2, rs2. split; [reflexivity|]. split; [exact Hsz2|]. split.
      * intros t Ht. destruct (Hp1 t Ht) as (E1 & E2 & E3 & E4).
        destruct (Hp2 t ltac:(simpl; lia)) as (F1 & F2 & F3 & F4).
        repeat split; congruence.
      * intros t Ht.
        destruct (Nat.lt_ge_cases t (S m * ns)) as [Hlt|Hge].
        -- assert (Hns : 0 < ns) by (destruct ns; [simpl in *; lia|lia]).
           assert (Ediv : t / ns = m).
           { symmetry. apply (Nat.div_unique t ns m (t - m * ns)); simpl in Hlt; nia. }
           rewrite Ediv, Nat.sub_diag. simpl nth.
           apply (row_ok_prefix g b1 b2 (S m * ns) t i Hp2 Hlt).
           apply Hblock. simpl in Hlt. lia.
        -- assert (Hns : 0 < ns) by (destruct ns; [simpl in *; lia|lia]).
           assert (Hdiv : S m <= t / ns)
             by (apply Nat.div_le_lower_bound; [lia|nia]).
           replace (t / ns - m) with (S (t / ns - S m)) by lia. simpl nth.
           apply Hrest. lia.
Qed.

(** A batch whose every row is a finished triplet. *)
Definition batch_ok (el : list nat) (ns : nat) (bt : Batch) : Prop :=
  batch_X bt = X g /\ batch_nsamples bt = ns
  /\ sized (length el * ns)
       {| buf_i := i_indices bt; buf_j := j_indices bt; buf_k := k_indices bt;
          buf_w := weights bt |}
  /\ forall t, t < length el * ns ->
       row_ok g {| buf_i := i_indices bt; buf_j := j_indices bt;
                   buf_k := k_indices bt; buf_w := weights bt |}
         t (nth (t / ns) el 0).

Lemma one_iteration_ok el ns w rs :
  (forall i, In i el ->
     i < shape0 a /\ 3 <= length (nth i (level_sets_ g) [])) ->
  length w = length el * ns ->
  exists bt rs',
    one_iteration g ns el (length el * ns) w rs = (inr bt, rs')
    /\ batch_ok el ns bt.
Proof using Hinit.
  intros Hel Hw. unfold one_iteration.
  destruct (rows_loop_ok ns (length el * ns) el 0
              {| buf_i := empty (length el * ns); buf_j := empty (length el * ns);
                 buf_k := empty (length el * ns); buf_w := w |} rs Hel)
    as (b' & rs' & -> & Hsz & _ & Hrows).
  - unfold sized, empty. cbn [buf_i buf_j buf_k buf_w].
    rewrite !repeat_length. auto.
  - reflexivity.
  - eexists. exists rs'. split; [reflexivity|].
    unfold batch_ok. cbn [batch_X batch_nsamples i_indices j_indices k_indices weights].
    split; [reflexivity|]. split; [reflexivity|].
    destruct b' as [bi bj bk bw]. cbn [buf_i buf_j buf_k buf_w].
    split; [exact Hsz|]. intros t Ht.
    specialize (Hrows t ltac:(lia)). now rewrite Nat.sub_0_r in Hrows.
Qed.

Lemma iterations_loop_ok el ns : forall count w rs,
  (forall i, In i el ->
     i < shape0 a /\ 3 <= length (nth i (level_sets_ g) [])) ->
  length w = length el * ns ->
  exists batches rs',
    iterations_loop g ns el (length el * ns) count w rs = ((batches, None), rs')
    /\ length batches = count
    /\ Forall (batch_ok el ns) batches.
Proof using Hinit.
  induction count as [|count IH]; intros w rs Hel Hw; simpl.
  - exists [], rs. repeat split; auto.
  - destruct (one_iteration_ok el ns w rs Hel Hw) as (bt & rs1 & -> & Hbt).
    destruct (IH (weights bt) rs1 Hel) as (batches & rs2 & -> & Hlen & Hall).
    + destruct Hbt as (_ & _ & (_ & _ & _ & Hlw) & _). exact Hlw.
    + exists (bt :: batches), rs2. simpl.
      split; [reflexivity|]. split; [now rewrite Hlen|]. now constructor.
Qed.

End Constructed.

End DatasetFacts.

(** X9: on a constructed graph the dataset generator never raises and
    yields exactly [iterations] batches.  Every batch carries the attribute
    matrix and [nsamples]; its four arrays have [nsamples] rows per eligible
    node and no uninitialised entry; row [t] holds the eligible node
    [t / nsamples] as anchor, that node's loss weight rounded to float32
    (the weight tensor is a float32 one, so a weight above 2^24 can differ
    from the float64 weight of the graph), and a pair of nodes from two
    shells of the anchor beyond its self shell, the closer node from the
    shell of smaller index. *)
Theorem dataset_iter_batches a x z K g ns count rs :
  Graph.init a x z K = inr g ->
  exists el batches rs',
    Graph.eligible_nodes g = inr el
    /\ Dataset.iter {| Dataset.graph := g; Dataset.nsamples := ns;
                       Dataset.iterations := count |} rs
       = ((batches, None), rs')
    /\ length batches = count
    /\ forall bt, In bt batches ->
         Dataset.batch_X bt = Graph.X g
         /\ Dataset.batch_nsamples bt = ns
         /\ length (Dataset.i_indices bt) = length el * ns
         /\ length (Dataset.j_indices bt) = length el * ns
         /\ length (Dataset.k_indices bt) = length el * ns
         /\ length (Dataset.weights bt) = length el * ns
         /\ forall t, t < length el * ns ->
              let i := nth (t / ns) el 0 in
              let sh := nth i (Graph.level_sets_ g) [] in
              nth t (Dataset.i_indices bt) None = Some i
              /\ nth t (Dataset.weights bt) None
                 = Some (Dataset.to_float32
                           (Dataset.float64 (nth i (Graph.loss_weights g) 0%Q)))
              /\ exists j k da db,
                   nth t (Dataset.j_indices bt) None = Some j
                   /\ nth t (Dataset.k_indices bt) None = Some k
                   /\ 1 <= da /\ da < db /\ db < length sh
                   /\ In j (nth da sh []) /\ In k (nth db sh []).
Proof.
  intros Hinit. unfold Dataset.iter. cbn [Dataset.graph Dataset.nsamples Dataset.iterations].
  rewrite (GraphFacts.g_eligible a x z K g Hinit).
  set (el := filter _ _).
  destruct (DatasetFacts.iterations_loop_ok a x z K g Hinit el ns count
              (Dataset.empty (length el * ns)) rs)
    as (batches & rs' & Hrun & Hlen & Hall).
  - intros i Hi. now apply GraphFacts.g_eligible_In in Hi.
  - apply repeat_length.
  - exists el, batches, rs'. split; [reflexivity|]. split; [exact Hrun|].
    split; [exact Hlen|]. intros bt Hbt.
    rewrite Forall_forall in Hall.
    destruct (Hall bt Hbt) as (HX & Hns & (Li & Lj & Lk & Lw) & Hrows).
    repeat (split; [assumption|]). intros t Ht. apply (Hrows t Ht).
Qed.

Lemma dataset_iter_batches_witness :
  exists g el batches rs',
    Graph.init Samples.two_edges [] [] None = inr g
    /\ Graph.eligible_nodes g = inr el
    /\ Dataset.iter {| Dataset.graph := g; Dataset.nsamples := 2;
                       Dataset.iterations := 2 |} Samples.ramp
       = ((batches, None), rs')
    /\ length batches = 2.
Proof.
  eexists.
  destruct (dataset_iter_batches Samples.two_edges [] [] None _ 2 2 Samples.ramp
              eq_refl) as (el & batches & rs' & Hel & Hrun & Hlen & _).
  exists el, batches, rs'. split; [reflexivity|]. auto.
Defined.

(** The weight of a node with shells of sizes 1, 4099 and 4101 is 16809999
    in the graph and 16810000 in a batch. *)
Example weight_rounded_in_batch :
  Qeq (Graph.loss_weight [1; 4099; 4101]) (16809999 # 1)
  /\ Dataset.float64 (Graph.loss_weight [1; 4099; 4101])
     = binary_normalize 53 1024 16809999 0 false
  /\ Dataset.to_float32 (Dataset.float64 (Graph.loss_weight [1; 4099; 4101]))
     = binary_normalize 24 128 16810000 0 false.
Proof. vm_compute. repeat split. Qed.

(** ** The encoder and the loss, continued *)

Module NetworkFacts.
Import Loss Network.

Lemma elu_plus1_pos v : (0 < elu v + 1)%R.
Proof.
  unfold elu. destruct (Rlt_dec 0 v); [lra|].
  pose proof (exp_pos v). lra.
Qed.

Lemma linear_length l x : length (linear l x) = length x.
Proof. apply length_map. Qed.

Lemma linear_row_length l x t :
  t < length x ->
  length (nth t (linear l x) []) = Nat.min (length (weight l)) (length (bias l)).
Proof.
  intros Ht. unfold linear.
  rewrite (LossFacts.map_nth_lt _ x t []) by exact Ht.
  now rewrite zipWith_length, length_map.
Qed.

Lemma map_map_row {T : Type} (f : R -> T) (x : tensor) t :
  nth t (map (map f) x) [] = map f (nth t x []).
Proof. apply (map_nth (map f) x [] t). Qed.

Lemma ln_le_minus1 r : (0 < r)%R -> (ln r <= r - 1)%R.
Proof.
  intros Hr. pose proof (exp_ineq1_le (r - 1)) as H.
  replace (1 + (r - 1))%R with r in H by lra.
  destruct H as [H|H].
  - left. apply ln_increasing in H; [|exact Hr]. now rewrite ln_exp in H.
  - right. rewrite H at 1. apply ln_exp.
Qed.

(** The variance part of the divergence of one row. *)
Lemma ratio_part_nonneg : forall sj si : list R,
  length sj = length si ->
  Forall (fun v => 0 < v)%R si -> Forall (fun v => 0 < v)%R sj ->
  (0 <= rsum (zipWith Rdiv sj si) - INR (length si)
        - rsum (map ln (zipWith Rdiv sj si)))%R.
Proof.
  induction sj as [|u sj IH]; intros [|v si] Hlen Hsi Hsj; try discriminate.
  - simpl. lra.
  - inversion Hsi as [|? ? Hv Hsi']; subst. inversion Hsj as [|? ? Hu Hsj']; subst.
    specialize (IH si ltac:(simpl in Hlen; lia) Hsi' Hsj').
    change (length (v :: si)) with (S (length si)). rewrite S_INR.
    cbn [zipWith map rsum fold_right]. fold (rsum (zipWith Rdiv sj si)).
    fold (rsum (map ln (zipWith Rdiv sj si))).
    assert (Hr : (0 < u / v)%R) by (apply Rdiv_lt_0_compat; assumption).
    pose proof (ln_le_minus1 _ Hr). lra.
Qed.

Lemma square_part_nonneg : forall d si : list R,
  Forall (fun v => 0 < v)%R si ->
  (0 <= rsum (zipWith Rdiv (map (fun v => v * v)%R d) si))%R.
Proof.
  induction d as [|u d IH]; intros [|v si] Hsi; simpl; try lra.
  inversion Hsi as [|? ? Hv Hsi']; subst. specialize (IH si Hsi').
  fold (rsum (zipWith Rdiv (map (fun v => (v * v)%R) d) si)).
  assert (0 <= u * u / v)%R.
  { apply Rmult_le_pos; [nra|]. left. now apply Rinv_0_lt_compat. }
  lra.
Qed.

Lemma closer_row_nonneg l mi si mj sj :
  length si = l -> length sj = l ->
  Forall (fun v => 0 < v)%R si -> Forall (fun v => 0 < v)%R sj ->
  (0 <= closer_row l mi si mj sj)%R.
Proof.
  intros Hsi Hsj Psi Psj. unfold closer_row.
  pose proof (ratio_part_nonneg sj si ltac:(lia) Psi Psj) as H1.
  pose proof (square_part_nonneg (zipWith Rminus mi mj) si Psi) as H2.
  rewrite Hsi in H1. lra.
Qed.

Lemma rsum_nonneg (v : list R) : Forall (fun e => 0 <= e)%R v -> (0 <= rsum v)%R.
Proof. induction 1; simpl; [lra|]. fold (rsum l). lra. Qed.

Lemma zipWith_Forall {T U V : Type} (f : T -> U -> V) (P : V -> Prop) xs ys :
  (forall x y, In x xs -> In y ys -> P (f x y)) -> Forall P (zipWith f xs ys).
Proof.
  revert ys; induction xs as [|x xs IH]; intros [|y ys] H; simpl; constructor.
  - apply H; now left.
  - apply IH. intros; apply H; now right.
Qed.

Lemma zipWith_In {T U V : Type} (f : T -> U -> V) xs ys v :
  In v (zipWith f xs ys) -> exists x y, In x xs /\ In y ys /\ v = f x y.
Proof.
  revert ys; induction xs as [|x xs IH]; intros [|y ys] H; simpl in H;
    try contradiction.
  destruct H as [<-|H].
  - exists x, y. repeat split; now left.
  - destruct (IH ys H) as (x' & y' & Hx & Hy & E).
    exists x', y'. repeat split; auto; now right.
Qed.

End NetworkFacts.

Lemma forward_shape p x :
  let mu := fst (Network.forward p x) in
  let sigma := snd (Network.forward p x) in
  length mu = length x /\ length sigma = length x
  /\ forall t, t < length x ->
       length (nth t mu [])
       = Nat.min (length (Network.weight (Network.linear_mu p)))
           (length (Network.bias (Network.linear_mu p)))
       /\ length (nth t sigma [])
          = Nat.min (length (Network.weight (Network.linear_sigma p)))
              (length (Network.bias (Network.linear_sigma p)))
       /\ Forall (fun v => 0 < v)%R (nth t sigma []).
Proof.
  unfold Network.forward. cbn [fst snd].
  split; [now rewrite NetworkFacts.linear_length, !length_map,
            NetworkFacts.linear_length, length_map, NetworkFacts.linear_length|].
  split; [now rewrite length_map, NetworkFacts.linear_length, !length_map,
            NetworkFacts.linear_length, length_map, NetworkFacts.linear_length|].
  intros t Ht.
  assert (Hh : t < length (map (map Network.relu)
                             (Network.linear (Network.linear2 p)
                                (map (map Network.relu)
                                   (Network.linear (Network.linear1 p) x)))))
    by now rewrite !length_map, NetworkFacts.linear_length, length_map,
         NetworkFacts.linear_length.
  split; [now apply NetworkFacts.linear_row_length|].
  rewrite NetworkFacts.map_map_row. rewrite length_map.
  split; [now apply NetworkFacts.linear_row_length|].
  apply Forall_forall. intros v Hv. apply in_map_iff in Hv as (u & <- & _).
  apply NetworkFacts.elu_plus1_pos.
Qed.

(** X10: the encoder returns one row of means and one row of variances per
    row of attributes, each row with one entry per output of its layer; over
    the reals every variance is strictly positive.  (In the float32
    arithmetic of the source [elu(v) + 1] rounds to 0 for [v] below about
    -17, so the float variance is only non-negative.) *)
Theorem forward_variance_positive p x :
  let mu := fst (Network.forward p x) in
  let sigma := snd (Network.forward p x) in
  length mu = length x /\ length sigma = length x
  /\ forall t, t < length x ->
       length (nth t mu [])
       = Nat.min (length (Network.weight (Network.linear_mu p)))
           (length (Network.bias (Network.linear_mu p)))
       /\ length (nth t sigma [])
          = Nat.min (length (Network.weight (Network.linear_sigma p)))
              (length (Network.bias (Network.linear_sigma p)))
       /\ Forall (fun v => 0 < v)%R (nth t sigma []).
Proof. exact (forward_shape p x). Qed.

(** X11: the closer energy of a triplet whose anchor and closer neighbour
    have positive variances in all [L] components is non-negative. *)
Theorem closer_energy_nonneg enc x i j t :
  let mu := fst (Loss.forward enc x) in
  let sigma := snd (Loss.forward enc x) in
  let mu_i := Loss.gather_rows mu i in
  let sigma_i := Loss.gather_rows sigma i in
  let mu_j := Loss.gather_rows mu j in
  let sigma_j := Loss.gather_rows sigma j in
  t < length i -> t < length j ->
  length (nth t sigma_i []) = Loss.L enc ->
  length (nth t sigma_j []) = Loss.L enc ->
  Forall (fun v => 0 < v)%R (nth t sigma_i []) ->
  Forall (fun v => 0 < v)%R (nth t sigma_j []) ->
  (0 <= nth t (Loss.closer_energy (Loss.L enc) mu_i sigma_i mu_j sigma_j) 0)%R.
Proof.
  intros mu sigma mu_i sigma_i mu_j sigma_j Hi Hj Li Lj Pi Pj.
  rewrite LossFacts.closer_energy_nth
    by (unfold mu_i, sigma_i, mu_j, sigma_j, Loss.gather_rows;
        rewrite take_length; assumption).
  now apply NetworkFacts.closer_row_nonneg.
Qed.

Lemma closer_energy_nonneg_witness :
  Rle 0%R
    (nth 0%nat
       (Loss.closer_energy 2%nat
          (Loss.gather_rows [[1; 2]; [3; 5]]%R [0%nat])
          (Loss.gather_rows [[1; 4]; [2; 2]]%R [0%nat])
          (Loss.gather_rows [[1; 2]; [3; 5]]%R [1%nat])
          (Loss.gather_rows [[1; 4]; [2; 2]]%R [1%nat])) 0%R).
Proof.
  apply (closer_energy_nonneg Samples.fixed_encoder [] [0] [1] 0).
  - simpl. lia.
  - simpl. lia.
  - reflexivity.
  - reflexivity.
  - simpl. repeat constructor; lra.
  - simpl. repeat constructor; lra.
Defined.

(** X12: with non-negative weights and a positive number of samples the
    loss is non-negative. *)
Theorem compute_loss_nonneg enc x i j k w nsamples :
  Forall (fun v => 0 <= v)%R w ->
  0 < nsamples ->
  (0 <= Loss.compute_loss enc x i j k w nsamples)%R.
Proof.
  intros Hw Hn. unfold Loss.compute_loss.
  destruct (Loss.forward enc x) as [mu sigma].
  apply Rmult_le_pos; [|left; apply Rinv_0_lt_compat, lt_0_INR; exact Hn].
  unfold Loss.dot. apply NetworkFacts.rsum_nonneg.
  apply NetworkFacts.zipWith_Forall. intros e wt He Hwt.
  rewrite Forall_forall in Hw. apply Rmult_le_pos; [|now apply Hw].
  apply NetworkFacts.zipWith_In in He as (c & r & Hc & Hr & ->).
  apply in_map_iff in Hc as (c0 & <- & _).
  apply NetworkFacts.zipWith_In in Hr as (e1 & q1 & He1 & Hq1 & ->).
  apply in_map_iff in He1 as (e0 & <- & _).
  apply in_map_iff in Hq1 as (q0 & <- & _).
  pose proof (exp_pos e0). pose proof (sqrt_pos q0). nra.
Qed.

Lemma compute_loss_nonneg_witness :
  Rle 0%R
    (Loss.compute_loss Samples.fixed_encoder [] [0%nat] [1%nat] [1%nat] [2%R] 3%nat).
Proof.
  apply compute_loss_nonneg.
  - repeat constructor. lra.
  - lia.
Defined.

(** ** train_test_split *)

Module SplitFacts.
Import Split.

Lemma count_update k v (l : list nat) x :
  k < length l ->
  count_occ Nat.eq_dec (LevelSets.update_nth k (fun _ => v) l) x
  + (if Nat.eq_dec (nth k l 0) x then 1 else 0)
  = count_occ Nat.eq_dec l x + (if Nat.eq_dec v x then 1 else 0).
Proof.
  revert k; induction l as [|u l IH]; intros [|k] Hk; simpl in *; try lia.
  - destruct (Nat.eq_dec v x), (Nat.eq_dec u x); lia.
  - specialize (IH k ltac:(lia)). destruct (Nat.eq_dec u x); lia.
Qed.

Lemma swap_length i j x : length (swap i j x) = length x.
Proof. unfold swap. now rewrite !ReadOffFacts.update_nth_length. Qed.

Lemma swap_perm i j x :
  i < length x -> j < length x -> Permutation (swap i j x) x.
Proof.
  intros Hi Hj. apply (Permutation_count_occ Nat.eq_dec). intros v.
  unfold swap. cbv zeta.
  set (x1 := LevelSets.update_nth i (fun _ => nth j x 0) x).
  assert (Hj1 : nth j x1 0 = nth j x 0).
  { unfold x1. destruct (Nat.eq_dec j i) as [->|Hne].
    - now rewrite ReadOffFacts.update_nth_same.
    - now rewrite ReadOffFacts.update_nth_other. }
  pose proof (count_update j (nth i x 0) x1 v) as H2.
  rewrite Hj1 in H2.
  assert (Hl1 : length x1 = length x)
    by (unfold x1; apply ReadOffFacts.update_nth_length).
  specialize (H2 ltac:(lia)).
  pose proof (count_update i (nth j x 0) x v Hi) as H1. fold x1 in H1.
  lia.
Qed.

Lemma shuffle_from_perm m : forall x rs,
  m < length x ->
  Permutation (fst (shuffle_from m x rs)) x
  /\ snd (shuffle_from m x rs) = advance m rs.
Proof.
  induction m as [|m IH]; intros x rs Hm.
  - simpl. split; [reflexivity|]. destruct rs as [tp ps]. unfold advance. simpl.
    f_equal. lia.
  - cbn [shuffle_from].
    assert (Hj : below (tape rs (pos rs)) (S (S m)) < length x).
    { pose proof (below_lt (tape rs (pos rs)) (S (S m)) ltac:(lia)). lia. }
    destruct (IH (swap (S m) (below (tape rs (pos rs)) (S (S m))) x) (advance 1 rs))
      as [Hp Hs]; [rewrite swap_length; lia|].
    split.
    + rewrite Hp. now apply swap_perm.
    + rewrite Hs. unfold advance. simpl. f_equal. lia.
Qed.

Lemma shuffle_perm x rs :
  Permutation (fst (shuffle x rs)) x
  /\ snd (shuffle x rs) = advance (length x - 1) rs.
Proof.
  unfold shuffle. destruct x as [|u x].
  - simpl. split; [reflexivity|]. destruct rs. unfold advance. simpl. f_equal. lia.
  - apply shuffle_from_perm. simpl. lia.
Qed.

(** The float product decides the index: 10 * 0.7 is 7.0, and 100 * 0.29 is
    a float below 29. *)
Example split_index_floats :
  split_index 10 Samples.float_half = inr 5%Z
  /\ split_index 10 Samples.float_0_7 = inr 7%Z
  /\ split_index 100 Samples.float_0_29 = inr 28%Z
  /\ split_index 10 S754_nan = inl ValueError
  /\ split_index 10 (S754_infinity false) = inl OverflowError.
Proof. vm_compute. repeat split. Qed.

End SplitFacts.

(** X13: for a ratio that is a float, [train_test_split] raises, before
    any draw, exactly when [int(n * train_ratio)] raises (the float product
    is infinite or not a number); otherwise it returns two lists that
    together hold every node of [range(n)] exactly once, after one draw per
    node but the first, the train part ending where the slice bound
    [int(n * train_ratio)] falls in a list of [n] nodes. *)
Theorem train_test_split_partition n ratio rs :
  match Split.train_test_split n ratio rs with
  | (inl e, rs') => rs' = rs /\ Split.split_index n ratio = inl e
  | (inr (train, test), rs') =>
      Permutation (train ++ test) (seq 0 n)
      /\ NoDup (train ++ test)
      /\ length train + length test = n
      /\ rs' = advance (n - 1) rs
      /\ exists s, Split.split_index n ratio = inr s
                   /\ length train = Split.slice_bound n s
  end.
Proof.
  unfold Split.train_test_split.
  destruct (Split.split_index n ratio) as [e|s]; [split; reflexivity|].
  destruct (SplitFacts.shuffle_perm (seq 0 n) rs) as [Hp Hs].
  destruct (Split.shuffle (seq 0 n) rs) as [nodes' rs']. cbn [fst snd] in *.
  assert (Hl : length nodes' = n)
    by (rewrite (Permutation_length Hp); apply length_seq).
  rewrite firstn_skipn.
  split; [exact Hp|].
  split; [apply (Permutation_NoDup (Permutation_sym Hp)), seq_NoDup|].
  split; [rewrite <- length_app, firstn_skipn; exact Hl|].
  split; [now rewrite Hs, length_seq|].
  exists s. split; [reflexivity|].
  rewrite length_firstn, Hl. apply Nat.min_l.
  unfold Split.slice_bound. destruct (Z.ltb_spec s 0); lia.
Qed.

(** X14: over the reals, for the encoder network whose variance layer has
    [l] outputs, every triplet with indices inside the attribute matrix has
    a closer energy, which is non-negative, and 0 when the closer node is
    the anchor.  (In the float32 arithmetic of the source a variance can
    round to 0, and the energy is then not a number.) *)
Theorem encoder_closer_energy_nonneg l p x i j t :
  length (Network.weight (Network.linear_sigma p)) = l ->
  length (Network.bias (Network.linear_sigma p)) = l ->
  t < length i -> t < length j ->
  nth t i 0 < length x -> nth t j 0 < length x ->
  let enc := Network.encoder l p in
  let mu := fst (Loss.forward enc x) in
  let sigma := snd (Loss.forward enc x) in
  let closer :=
    Loss.closer_energy (Loss.L enc) (Loss.gather_rows mu i)
      (Loss.gather_rows sigma i) (Loss.gather_rows mu j)
      (Loss.gather_rows sigma j) in
  exists e, nth_error closer t = Some e
            /\ (0 <= e)%R
            /\ (nth t i 0 = nth t j 0 -> e = 0%R).
Proof.
  intros Hw Hb Hi Hj Hxi Hxj enc mu sigma closer.
  unfold closer, mu, sigma, enc. cbn [Network.encoder Loss.L Loss.forward].
  destruct (forward_shape p x) as (_ & _ & Hrows).
  destruct (Hrows _ Hxi) as (_ & Li & Pi).
  destruct (Hrows _ Hxj) as (_ & Lj & Pj).
  rewrite LossFacts.closer_energy_entry
    by (unfold Loss.gather_rows; rewrite take_length; assumption).
  eexists. split; [reflexivity|].
  unfold Loss.gather_rows. rewrite !take_nth by assumption.
  split.
  - apply NetworkFacts.closer_row_nonneg; try assumption; lia.
  - intros E. rewrite <- E. apply LossFacts.closer_row_same; [lia|assumption].
Qed.

Lemma encoder_closer_energy_nonneg_witness :
  exists e,
    nth_error
      (Loss.closer_energy 1
         (Loss.gather_rows
            (fst (Network.forward Samples.unit_params [[1]; [2]]%R)) [0])
         (Loss.gather_rows
            (snd (Network.forward Samples.unit_params [[1]; [2]]%R)) [0])
         (Loss.gather_rows
            (fst (Network.forward Samples.unit_params [[1]; [2]]%R)) [1])
         (Loss.gather_rows
            (snd (Network.forward Samples.unit_params [[1]; [2]]%R)) [1])) 0
    = Some e /\ (0 <= e)%R.
Proof.
  destruct (encoder_closer_energy_nonneg 1 Samples.unit_params [[1]; [2]]%R
              [0] [1] 0) as (e & He & Hpos & _); try (simpl; lia).
  exists e. split; [exact He|exact Hpos].
Defined.

(** ** Edge cases *)

Module EdgeFacts.
Import LevelSets.

Lemma cap_negative k d : (k < 0)%Z -> (-1 <= d)%Z -> cap (Some k) d = (-1)%Z.
Proof.
  intros Hk Hd. unfold cap. destruct (Z.ltb_spec k d); lia.
Qed.

Lemma to_int_lower h : (-1 <= to_int h)%Z.
Proof. destruct h; simpl; lia. Qed.

End EdgeFacts.

(** X15: with a negative [K] every distance is discarded: each node gets a
    single shell, and that shell holds every node exactly once. *)
Theorem level_sets_negative_K a k sets i :
  LevelSets.is_square a = true ->
  LevelSets.level_sets a (Some k) = inr sets ->
  (k < 0)%Z ->
  i < LevelSets.shape0 a ->
  exists shell, nth i sets [] = [shell]
                /\ Permutation shell (seq 0 (LevelSets.shape0 a)).
Proof.
  intros Hsq Hls Hk Hi.
  pose proof (ShellFacts.sets_shells a (Some k) sets Hsq Hls) as Hsh.
  destruct (ShellFacts.farthest_in_range a (Some k) sets Hsq Hls i Hi)
    as (j & Hj & _ & Hlen).
  rewrite DistanceFacts.distance_matrix_at in Hlen by assumption.
  rewrite (EdgeFacts.cap_negative k _ Hk (EdgeFacts.to_int_lower _)) in Hlen.
  pose proof (LevelSetFacts.shells_perm a (Some k) sets Hsh i Hi) as Hperm.
  destruct (nth i sets []) as [|shell [|s2 r]]; simpl in Hlen; try lia.
  exists shell. split; [reflexivity|].
  simpl in Hperm. now rewrite app_nil_r in Hperm.
Qed.

Lemma level_sets_negative_K_witness :
  exists sets shell,
    LevelSets.level_sets Samples.two_edges (Some (-1)%Z) = inr sets
    /\ nth 1 sets [] = [shell] /\ Permutation shell (seq 0 4).
Proof.
  eexists.
  destruct (level_sets_negative_K Samples.two_edges (-1)%Z _ 1 eq_refl eq_refl)
    as (shell & Hs & Hp); [lia|simpl; lia|].
  exists shell. split; [vm_compute; reflexivity|]. split; [exact Hs|exact Hp].
Defined.

(** X16: a graph without nodes is constructed, with no eligible node, no
    loss weight and no sampler; a matrix with rows but no columns is
    rejected with [KeyError]. *)
Theorem graph_init_degenerate a x z K :
  (LevelSets.shape0 a = 0 ->
   exists g, Graph.init a x z K = inr g
             /\ Graph.eligible_nodes g = inr []
             /\ Graph.level_sets_ g = [] /\ Graph.loss_weights g = []
             /\ Graph.neighborhoods g = [])
  /\ (0 < LevelSets.shape0 a -> LevelSets.shape1 a = 0 ->
      Graph.init a x z K = inl KeyError).
Proof.
  split.
  - intros Hn. unfold Graph.init, LevelSets.level_sets. rewrite Hn. simpl.
    eexists. split; [reflexivity|].
    unfold Graph.eligible_nodes, Graph.nodes. simpl. rewrite Hn. simpl. auto.
  - intros Hn Hc. unfold Graph.init, LevelSets.level_sets. rewrite Hc.
    replace (LevelSets.shape0 a =? 0) with false
      by (symmetry; apply Nat.eqb_neq; lia).
    simpl. destruct (LevelSets.shape0 a) as [|n]; [lia|]. reflexivity.
Qed.

Lemma graph_init_degenerate_witness :
  (exists g, Graph.init [] [] [] None = inr g /\ Graph.eligible_nodes g = inr [])
  /\ Graph.init [[]; []] [] [] None = inl KeyError.
Proof.
  destruct (graph_init_degenerate [] [] [] None) as [H0 _].
  destruct (graph_init_degenerate [[]; []] [] [] None) as [_ H1].
  split.
  - destruct (H0 eq_refl) as (g & Hg & He & _). exists g. auto.
  - apply H1; [simpl; lia|reflexivity].
Defined.
